(** * OmniScore compiler (src/services/omniParser.ts): a shallow embedding

    The development follows the TypeScript class [OmniParser] function by
    function.

    - JavaScript numbers are modelled by [num]: exact rationals extended
      with the IEEE special values the parser can produce (NaN, the two
      infinities and the two zeros).  Finite arithmetic is exact: rounding
      and overflow of binary64 are not modelled.  A statement that
      depends on the counter of measures is made for measure numbers
      below [2 ^ 53] in absolute value, which binary64 holds exactly.
    - JavaScript strings are modelled by [string], a sequence of 8-bit
      code units; [toLowerCase] acts on the letters A to Z.
    - The plain objects used as tables ([macros], [globalCursors]) are
      finite maps keyed by strings: a key is looked up among the entries
      the parser has stored, the names an object inherits from
      [Object.prototype] are not modelled.  A statement that depends on
      the absence of an entry is made for tokens that hold no such name
      ([own_names]).
    - The parser object is an explicit state record threaded through a
      small monad whose outcomes are normal completion, a thrown
      TypeError, or exhaustion of the loop budget (fuel).  Every loop of
      the source is a loop of the model and costs fuel per iteration.
    - The pitch strings [midi:n] of an event are modelled by the numbers
      [n]. *)

From Stdlib Require Import ZArith QArith String Ascii List Bool Lia Lqa.
From Stdlib Require Import Permutation Sorted.
From stdpp Require Import base option gmap strings.
Import ListNotations.

Local Open Scope Z_scope.
Local Open Scope string_scope.

(* ------------------------------------------------------------------ *)
(** ** Numbers *)

Inductive num : Type :=
  | NaN
  | Inf (neg : bool)
  | Zero (neg : bool)
  | Fin (q : Q).   (* a non-zero rational, kept in lowest terms *)

Definition ofQ (q : Q) : num :=
  if Qeq_bool q 0 then Zero false else Fin (Qred q).

Definition ofZ (z : Z) : num := ofQ (inject_Z z).

Definition Qneg_bool (q : Q) : bool := negb (Qle_bool 0 q).

(** The sign bit ([true] for negative). *)
Definition sgn (x : num) : bool :=
  match x with
  | NaN => false
  | Inf s | Zero s => s
  | Fin q => Qneg_bool q
  end.

Definition nneg (x : num) : num :=
  match x with
  | NaN => NaN
  | Inf s => Inf (negb s)
  | Zero s => Zero (negb s)
  | Fin q => Fin (Qred (- q))
  end.

Definition nadd (x y : num) : num :=
  match x, y with
  | NaN, _ | _, NaN => NaN
  | Inf a, Inf b => if eqb a b then Inf a else NaN
  | Inf a, _ => Inf a
  | _, Inf b => Inf b
  | Zero a, Zero b => Zero (a && b)
  | Zero _, Fin q => Fin q
  | Fin p, Zero _ => Fin p
  | Fin p, Fin q => ofQ (p + q)
  end.

Definition nsub (x y : num) : num := nadd x (nneg y).

Definition nmul (x y : num) : num :=
  match x, y with
  | NaN, _ | _, NaN => NaN
  | Inf _, Zero _ | Zero _, Inf _ => NaN
  | Inf a, _ => Inf (xorb a (sgn y))
  | _, Inf b => Inf (xorb (sgn x) b)
  | Zero a, _ => Zero (xorb a (sgn y))
  | _, Zero b => Zero (xorb (sgn x) b)
  | Fin p, Fin q => Fin (Qred (p * q))
  end.

Definition ndiv (x y : num) : num :=
  match x, y with
  | NaN, _ | _, NaN => NaN
  | Inf _, Inf _ | Zero _, Zero _ => NaN
  | Inf a, _ => Inf (xorb a (sgn y))
  | _, Inf b => Zero (xorb (sgn x) b)
  | Zero a, _ => Zero (xorb a (sgn y))
  | _, Zero b => Inf (xorb (sgn x) b)
  | Fin p, Fin q => Fin (Qred (p / q))
  end.

Definition isNaN (x : num) : bool :=
  match x with NaN => true | _ => false end.

(** The rational a finite number stands for (both zeros are 0). *)
Definition qval (x : num) : Q :=
  match x with Fin q => q | _ => 0%Q end.

(** [x < y] as JavaScript evaluates it: false as soon as one side is NaN. *)
Definition nlt (x y : num) : bool :=
  match x, y with
  | NaN, _ | _, NaN => false
  | Inf true, Inf true => false
  | Inf true, _ => true
  | _, Inf true => false
  | Inf false, _ => false
  | _, Inf false => true
  | _, _ => negb (Qle_bool (qval y) (qval x))
  end.

Definition ngt (x y : num) : bool := nlt y x.

(** [x <= y]. *)
Definition nle (x y : num) : bool :=
  negb (isNaN x) && negb (isNaN y) && negb (nlt y x).

(** [x === y] on numbers. *)
Definition neqb (x y : num) : bool := nle x y && nle y x.

(** Truthiness of a number: NaN and the zeros are falsy. *)
Definition truthy_num (x : num) : bool :=
  match x with NaN | Zero _ => false | _ => true end.

(** The integer a number denotes, when it is one. *)
Definition to_int (x : num) : option Z :=
  match x with
  | Zero _ => Some 0
  | Fin q => if Z.eqb (Zpos (Qden q)) 1 then Some (Qnum q) else None
  | _ => None
  end.

(* ------------------------------------------------------------------ *)
(** ** Characters and strings *)

Definition code (c : ascii) : N := N_of_ascii c.

Definition in_range (lo hi : N) (c : ascii) : bool :=
  (N.leb lo (code c) && N.leb (code c) hi)%bool.

Definition is_digit (c : ascii) : bool := in_range 48 57 c.
Definition is_upper (c : ascii) : bool := in_range 65 90 c.
Definition is_lower (c : ascii) : bool := in_range 97 122 c.
Definition is_alpha (c : ascii) : bool := is_upper c || is_lower c.

Definition chr_eqb (a b : ascii) : bool := Ascii.eqb a b.

(** The double-quote character, and a text between double quotes. *)
Definition dquote : ascii := ascii_of_N 34.
Definition quoted (s : string) : string :=
  String dquote (s ++ String dquote EmptyString).

(** [\w] of regular expressions. *)
Definition is_word_re (c : ascii) : bool :=
  is_alpha c || is_digit c || chr_eqb c "_".

(** White space and line terminators ([\s], [trim], [parseInt]). *)
Definition is_space (c : ascii) : bool :=
  in_range 9 13 c || N.eqb (code c) 32 || N.eqb (code c) 160.

(** Line terminators: what [.] does not match and where [$] matches
    under the [m] flag. *)
Definition is_line_term (c : ascii) : bool :=
  N.eqb (code c) 10 || N.eqb (code c) 13.

Definition lower_char (c : ascii) : ascii :=
  if is_upper c then ascii_of_N (code c + 32) else c.

Fixpoint toLowerCase (s : string) : string :=
  match s with
  | EmptyString => EmptyString
  | String c r => String (lower_char c) (toLowerCase r)
  end.

Definition str_eqb (a b : string) : bool := String.eqb a b.

Definition startsWith (s p : string) : bool := String.prefix p s.

Fixpoint rev_str (s acc : string) : string :=
  match s with
  | EmptyString => acc
  | String c r => rev_str r (String c acc)
  end.

Definition endsWith (s p : string) : bool :=
  String.prefix (rev_str p "") (rev_str s "").

(** [s.includes(p)]. *)
Fixpoint includes (s p : string) : bool :=
  String.prefix p s ||
  match s with
  | EmptyString => false
  | String _ r => includes r p
  end.

(** [s.replace(c, '')] for a one-character string [c]: the first
    occurrence is dropped. *)
Fixpoint drop_first (c : ascii) (s : string) : string :=
  match s with
  | EmptyString => EmptyString
  | String d r => if chr_eqb c d then r else String d (drop_first c r)
  end.

(** [s.replace(/c/g, '')] for a character class: every matching
    character is dropped. *)
Fixpoint drop_all (p : ascii -> bool) (s : string) : string :=
  match s with
  | EmptyString => EmptyString
  | String d r => if p d then drop_all p r else String d (drop_all p r)
  end.

(** [(s.match(/c/g) || []).length]. *)
Fixpoint count_char (c : ascii) (s : string) : nat :=
  match s with
  | EmptyString => O
  | String d r => (if chr_eqb c d then 1 else 0) + count_char c r
  end.

(** [s.split(c)] for a one-character separator. *)
Fixpoint split_aux (c : ascii) (s cur : string) : list string :=
  match s with
  | EmptyString => [rev_str cur ""]
  | String d r =>
      if chr_eqb c d then rev_str cur "" :: split_aux c r ""
      else split_aux c r (String d cur)
  end.

Definition split (c : ascii) (s : string) : list string := split_aux c s "".

(** [s.split(/\s+/)]. *)
Fixpoint split_ws_aux (s cur : string) (in_sep : bool) : list string :=
  match s with
  | EmptyString => [rev_str cur ""]
  | String d r =>
      if is_space d then
        if in_sep then split_ws_aux r cur true
        else rev_str cur "" :: split_ws_aux r "" true
      else split_ws_aux r (String d cur) false
  end.

Definition split_ws (s : string) : list string := split_ws_aux s "" false.

Fixpoint skip_ws (s : string) : string :=
  match s with
  | String c r => if is_space c then skip_ws r else s
  | EmptyString => EmptyString
  end.

Definition trim (s : string) : string :=
  rev_str (skip_ws (rev_str (skip_ws s) "")) "".

(* ------------------------------------------------------------------ *)
(** ** Numeric conversions of the JavaScript runtime *)

(** The value of a digit in a radix up to 36. *)
Definition digit_val (radix : Z) (c : ascii) : option Z :=
  let v :=
    if is_digit c then Some (Z.of_N (code c) - 48)
    else if in_range 97 122 c then Some (Z.of_N (code c) - 87)
    else if in_range 65 90 c then Some (Z.of_N (code c) - 55)
    else None in
  match v with
  | Some d => if Z.ltb d radix then Some d else None
  | None => None
  end.

(** The longest prefix of digits: its value, its length, and the rest. *)
Fixpoint take_digits (radix : Z) (s : string) (acc : Z) (n : nat)
  : Z * nat * string :=
  match s with
  | String c r =>
      match digit_val radix c with
      | Some d => take_digits radix r (acc * radix + d) (S n)
      | None => (acc, n, s)
      end
  | EmptyString => (acc, n, s)
  end.

(** An optional sign: [true] for minus. *)
Definition take_sign (s : string) : bool * string :=
  match s with
  | String "-" r => (true, r)
  | String "+" r => (false, r)
  | _ => (false, s)
  end.

(** The number of sign [neg] and magnitude [q]; a zero keeps its sign. *)
Definition signed (neg : bool) (q : Q) : num :=
  if Qeq_bool q 0 then Zero neg else Fin (Qred (if neg then - q else q)).

(** [parseInt(s, 10)]. *)
Definition parseInt10 (s : string) : num :=
  let '(neg, s1) := take_sign (skip_ws s) in
  match take_digits 10 s1 0 0 with
  | (_, O, _) => NaN
  | (v, _, _) => signed neg (inject_Z v)
  end.

Definition hex_prefix (s : string) : option string :=
  match s with
  | String "0" (String x r) =>
      if chr_eqb x "x" || chr_eqb x "X" then Some r else None
  | _ => None
  end.

(** [parseInt(s)]: the radix is 16 after a [0x] prefix, 10 otherwise. *)
Definition parseInt (s : string) : num :=
  let '(neg, s1) := take_sign (skip_ws s) in
  let '(radix, s2) :=
    match hex_prefix s1 with Some r => (16, r) | None => (10, s1) end in
  match take_digits radix s2 0 0 with
  | (_, O, _) => NaN
  | (v, _, _) => signed neg (inject_Z v)
  end.

(** [parseInt(undefined)], [parseInt] of a missing array element. *)
Definition parseInt10_opt (s : option string) : num :=
  match s with Some s => parseInt10 s | None => NaN end.

Definition parseInt_opt (s : option string) : num :=
  match s with Some s => parseInt s | None => NaN end.

Definition pow10 (e : Z) : Q := Qpower (10 # 1) e.

(** An exponent part at the head of [s]: its value and the rest. *)
Definition take_exponent (s : string) : option (Z * string) :=
  match s with
  | String e r =>
      if chr_eqb e "e" || chr_eqb e "E" then
        let '(eneg, r1) := take_sign r in
        match take_digits 10 r1 0 0 with
        | (_, O, _) => None
        | (ev, _, r2) => Some (if eneg then - ev else ev, r2)
        end
      else None
  | EmptyString => None
  end.

(** An unsigned decimal literal at the head of [s]: digits, an optional
    fraction, an optional exponent.  Returns its value and the rest. *)
Definition take_decimal (s : string) : option (Q * string) :=
  let '(i, ni, r1) := take_digits 10 s 0 0 in
  let '(f, nf, r2) :=
    match r1 with
    | String "." r => take_digits 10 r 0 0
    | _ => (0, O, r1)
    end in
  if Nat.eqb (ni + nf) 0 then None
  else
    let mant :=
      (inject_Z (i * 10 ^ Z.of_nat nf + f) * pow10 (- Z.of_nat nf))%Q in
    match take_exponent r2 with
    | Some (e, r3) => Some ((mant * pow10 e)%Q, r3)
    | None => Some (mant, r2)
    end.

(** [parseFloat(s)]. *)
Definition parseFloat (s : string) : num :=
  let '(neg, s1) := take_sign (skip_ws s) in
  if startsWith s1 "Infinity" then Inf neg
  else match take_decimal s1 with
       | Some (q, _) => signed neg q
       | None => NaN
       end.

(** The prefix of a hexadecimal, octal or binary literal. *)
Definition radix_literal (s : string) : option (Z * string) :=
  match s with
  | String "0" (String x r) =>
      if chr_eqb x "x" || chr_eqb x "X" then Some (16, r)
      else if chr_eqb x "o" || chr_eqb x "O" then Some (8, r)
      else if chr_eqb x "b" || chr_eqb x "B" then Some (2, r)
      else None
  | _ => None
  end.

(** [Number(s)] for a string [s]. *)
Definition Number (s : string) : num :=
  let t := trim s in
  if str_eqb t "" then Zero false
  else match radix_literal t with
  | Some (radix, r) =>
      match take_digits radix r 0 0 with
      | (_, O, _) => NaN
      | (v, _, EmptyString) => ofZ v
      | _ => NaN
      end
  | None =>
      let '(neg, s1) := take_sign t in
      if str_eqb s1 "Infinity" then Inf neg
      else match take_decimal s1 with
           | Some (q, EmptyString) => signed neg q
           | _ => NaN
           end
  end.

(* ------------------------------------------------------------------ *)
(** ** Lexer *)

(** Step 1 of [parse]: [source.replace(/%%.*$/gm, '')].  A comment runs
    from [%%] up to, and not including, the next line terminator. *)
Fixpoint strip_comments (s : string) (in_comment : bool) : string :=
  match s with
  | EmptyString => EmptyString
  | String c r =>
      if in_comment then
        if is_line_term c then String c (strip_comments r false)
        else strip_comments r true
      else if chr_eqb c "%" && startsWith r "%" then strip_comments r true
      else String c (strip_comments r false)
  end.

(** The four alternatives of [REGEX_TOKEN]. *)
Definition is_punct (c : ascii) : bool :=
  match c with
  | "{" | "}" | "|" | "," | "[" | "]" | "=" | "(" | ")" | ":" => true
  | _ => false
  end%char.

Definition is_ident_start (c : ascii) : bool := is_alpha c || chr_eqb c "_".
Definition is_ident_char (c : ascii) : bool := is_word_re c.

Definition is_generic (c : ascii) : bool :=
  is_word_re c ||
  match c with "." | "-" | "+" | "#" => true | _ => false end%char.

Fixpoint has_char (c : ascii) (s : string) : bool :=
  match s with
  | EmptyString => false
  | String d r => chr_eqb c d || has_char c r
  end.

Inductive lex_mode : Type :=
  | LIdle                  (* between tokens *)
  | LQuote (acc : string)  (* inside a quoted string whose end exists *)
  | LMacro (acc : string)  (* inside [$name] *)
  | LWord (acc : string).  (* inside a generic run *)

Definition snoc (s : string) (c : ascii) : string := s ++ String c "".

(** A match attempt at the character [c], followed by [r], between two
    tokens: the token completed at once (a punctuation character) and
    the mode for the rest.  A character at which no alternative matches
    is skipped. *)
Definition lex_start (c : ascii) (r : string) : list string * lex_mode :=
  if is_punct c then ([String c ""], LIdle)
  else if chr_eqb c dquote then
    if has_char dquote r then ([], LQuote (String c "")) else ([], LIdle)
  else if chr_eqb c "$" then
    match r with
    | String d _ =>
        if is_ident_start d then ([], LMacro (String c "")) else ([], LIdle)
    | EmptyString => ([], LIdle)
    end
  else if is_generic c then ([], LWord (String c ""))
  else ([], LIdle).

(** One character [c], followed by [r], in the mode [mode]: the tokens
    completed at this character and the mode for the rest. *)
Definition lex_step (mode : lex_mode) (c : ascii) (r : string)
  : list string * lex_mode :=
  match mode with
  | LIdle => lex_start c r
  | LQuote acc =>
      if chr_eqb c dquote then ([snoc acc c], LIdle)
      else ([], LQuote (snoc acc c))
  | LMacro acc =>
      if is_ident_char c then ([], LMacro (snoc acc c))
      else (acc :: fst (lex_start c r), snd (lex_start c r))
  | LWord acc =>
      if is_generic c then ([], LWord (snoc acc c))
      else (acc :: fst (lex_start c r), snd (lex_start c r))
  end.

(** [text.match(REGEX_TOKEN) || []]: all matches, left to right. *)
Fixpoint lex (s : string) (mode : lex_mode) : list string :=
  match s with
  | EmptyString =>
      match mode with
      | LIdle | LQuote _ => []
      | LMacro acc | LWord acc => [acc]
      end
  | String c r =>
      (fst (lex_step mode c r) ++ lex r (snd (lex_step mode c r)))%list
  end.

Definition tokenize (text : string) : list string := lex text LIdle.

(* ------------------------------------------------------------------ *)
(** ** Data model (src/App.tsx, the declarations after the component) *)

Definition TICKS_PER_QUARTER : num := ofZ 1920.

(** [StaffStyle]: the enum's values are strings, and [parseDef] casts an
    arbitrary attribute value to it. *)
Definition STANDARD : string := "standard".
Definition TAB : string := "tab".
Definition GRID : string := "grid".

Inductive DrumMapValue : Type :=
  | DNum (midi : num)
  | DPair (position midi : num).

Definition GM_DRUM_MAP : list (string * DrumMapValue) :=
  [("k", DNum (ofZ 36)); ("s", DNum (ofZ 38)); ("ss", DNum (ofZ 37));
   ("h", DNum (ofZ 42)); ("ho", DNum (ofZ 46)); ("ph", DNum (ofZ 44));
   ("c", DNum (ofZ 49)); ("r", DNum (ofZ 51)); ("rb", DNum (ofZ 53));
   ("t1", DNum (ofZ 50)); ("t2", DNum (ofZ 47)); ("t3", DNum (ofZ 43))].

Definition GUITAR_STD_TUNING : list string :=
  ["E2"; "A2"; "D3"; "G3"; "B3"; "E4"].

Inductive arg : Type :=
  | AStr (s : string)
  | ANum (n : num).

Record Attribute : Type := mkAttribute {
  attr_name : string;
  attr_args : list arg
}.

Record OmniMeta : Type := mkMeta {
  title : string;
  composer : string;
  tempo : num;
  timeSignature : num * num;
  meta_key : string;
  meta_style : string
}.

Record InstrumentDef : Type := mkInst {
  inst_id : string;
  inst_label : string;
  inst_group : option string;
  inst_style : string;
  inst_clef : option string;
  inst_transpose : option num;
  inst_tuning : option (list string);
  inst_map : option (list (string * DrumMapValue));
  inst_patch : option string;
  inst_vol : option num;
  inst_pan : option num
}.

Inductive EventType : Type := note | rest | chord.

(** A pitch is the number [n] of the string [midi:n]. *)
Record NoteEvent : Type := mkEvent {
  kind : EventType;
  pitches : list num;
  duration : num;
  tickStart : num;
  tickEnd : num;
  velocity : num;
  instrumentId : string;
  voiceId : string;
  modifiers : list Attribute
}.

Record CompiledScore : Type := mkScore {
  meta : OmniMeta;
  instruments : list InstrumentDef;
  timeline : list NoteEvent;
  durationTicks : num
}.

Record VoiceCursor : Type := mkCursor {
  cur_octave : num;
  cur_duration : num;
  cur_tick : num
}.

Record MacroDef : Type := mkMacro {
  params : list string;
  body : string
}.

(** The fields of an [OmniParser] object that [parse] works on. *)
Record Parser : Type := mkParser {
  tokens : list string;
  tokenIndex : nat;
  score : CompiledScore;
  macros : gmap string MacroDef;
  currentGroup : option string;
  globalCursors : gmap string (gmap string VoiceCursor)
}.

(** The state the constructor builds. *)
Definition initial_meta : OmniMeta :=
  mkMeta "Untitled" "Unknown" (ofZ 120) (ofZ 4, ofZ 4) "C" "standard".

Definition initial_score : CompiledScore :=
  mkScore initial_meta [] [] (Zero false).

Definition new_parser (toks : list string) : Parser :=
  mkParser toks 0 initial_score ∅ None ∅.

(** Field updates. *)
Definition set_tokenIndex (i : nat) (p : Parser) : Parser :=
  mkParser (tokens p) i (score p) (macros p) (currentGroup p) (globalCursors p).
Definition set_score (s : CompiledScore) (p : Parser) : Parser :=
  mkParser (tokens p) (tokenIndex p) s (macros p) (currentGroup p)
    (globalCursors p).
Definition set_macros (m : gmap string MacroDef) (p : Parser) : Parser :=
  mkParser (tokens p) (tokenIndex p) (score p) m (currentGroup p)
    (globalCursors p).
Definition set_currentGroup (g : option string) (p : Parser) : Parser :=
  mkParser (tokens p) (tokenIndex p) (score p) (macros p) g (globalCursors p).
Definition set_globalCursors (c : gmap string (gmap string VoiceCursor))
    (p : Parser) : Parser :=
  mkParser (tokens p) (tokenIndex p) (score p) (macros p) (currentGroup p) c.

Definition set_meta (m : OmniMeta) (s : CompiledScore) : CompiledScore :=
  mkScore m (instruments s) (timeline s) (durationTicks s).
Definition set_instruments (l : list InstrumentDef) (s : CompiledScore)
  : CompiledScore :=
  mkScore (meta s) l (timeline s) (durationTicks s).
Definition set_timeline (l : list NoteEvent) (s : CompiledScore)
  : CompiledScore :=
  mkScore (meta s) (instruments s) l (durationTicks s).
Definition set_durationTicks (d : num) (s : CompiledScore) : CompiledScore :=
  mkScore (meta s) (instruments s) (timeline s) d.

Definition set_title (v : string) (m : OmniMeta) : OmniMeta :=
  mkMeta v (composer m) (tempo m) (timeSignature m) (meta_key m) (meta_style m).
Definition set_composer (v : string) (m : OmniMeta) : OmniMeta :=
  mkMeta (title m) v (tempo m) (timeSignature m) (meta_key m) (meta_style m).
Definition set_tempo (v : num) (m : OmniMeta) : OmniMeta :=
  mkMeta (title m) (composer m) v (timeSignature m) (meta_key m) (meta_style m).
Definition set_timeSignature (v : num * num) (m : OmniMeta) : OmniMeta :=
  mkMeta (title m) (composer m) (tempo m) v (meta_key m) (meta_style m).
Definition set_key (v : string) (m : OmniMeta) : OmniMeta :=
  mkMeta (title m) (composer m) (tempo m) (timeSignature m) v (meta_style m).

(* ------------------------------------------------------------------ *)
(** ** The parser monad *)

Inductive outcome (A : Type) : Type :=
  | Done (a : A)   (* normal completion *)
  | Throw          (* a TypeError was raised *)
  | OutOfFuel.     (* a loop ran longer than the budget *)

Arguments Done {A} a.
Arguments Throw {A}.
Arguments OutOfFuel {A}.

Definition M (A : Type) : Type := Parser -> outcome (A * Parser).

Definition ret {A} (a : A) : M A := fun st => Done (a, st).

Definition bind {A B} (m : M A) (k : A -> M B) : M B :=
  fun st =>
    match m st with
    | Done (a, st') => k a st'
    | Throw => Throw
    | OutOfFuel => OutOfFuel
    end.

Definition throw {A} : M A := fun _ => Throw.

Declare Scope parser_scope.
Delimit Scope parser_scope with parser.
Notation "x <- m ;; k" := (bind m (fun x => k))
  (at level 100, m at next level, k at level 200, right associativity)
  : parser_scope.
Notation "m ;; k" := (bind m (fun _ => k))
  (at level 100, k at level 200, right associativity) : parser_scope.
Local Open Scope parser_scope.

Definition get_state : M Parser := fun st => Done (st, st).
Definition modify (f : Parser -> Parser) : M unit :=
  fun st => Done (tt, f st).
Definition when (b : bool) (m : M unit) : M unit := if b then m else ret tt.

(** A loop with local variables [S]: [step] runs one iteration and
    either continues with new locals or leaves the loop with a result.
    Every iteration costs one unit of fuel. *)
Fixpoint iterate {S R} (n : nat) (step : S -> M (S + R)) (s : S) : M R :=
  match n with
  | O => fun _ => OutOfFuel
  | Datatypes.S n' =>
      r <- step s ;;
      match r with
      | inl s' => iterate n' step s'
      | inr x => ret x
      end
  end.

(** [while (cond) body]. *)
Definition while (n : nat) (cond : M bool) (body : M unit) : M unit :=
  iterate n (fun _ : unit =>
    b <- cond ;;
    if b then body ;; ret (inl tt) else ret (inr tt)) tt.

(** [this.tokens[this.tokenIndex] || ""]. *)
Definition peek : M string :=
  fun st => Done (nth (tokenIndex st) (tokens st) EmptyString, st).

Definition consume : M string :=
  fun st =>
    Done (nth (tokenIndex st) (tokens st) EmptyString,
          set_tokenIndex (S (tokenIndex st)) st).

Definition match_tok (val : string) : M bool :=
  p <- peek ;;
  if str_eqb p val then consume ;; ret true else ret false.

(** [this.tokenIndex < this.tokens.length]. *)
Definition in_bounds : M bool :=
  fun st => Done (Nat.ltb (tokenIndex st) (length (tokens st)), st).

Definition peek_is (val : string) : M bool :=
  p <- peek ;; ret (str_eqb p val).

Definition skip_if (val : string) : M unit :=
  b <- peek_is val ;; when b (consume ;; ret tt).

(* ------------------------------------------------------------------ *)
(** ** Pitch and duration resolver *)

Definition nth_str (i : nat) (l : list string) : string :=
  nth i l EmptyString.

(** Truthiness of a possibly missing string. *)
Definition truthy_str (s : option string) : bool :=
  match s with
  | Some s => negb (str_eqb s EmptyString)
  | None => false
  end.

(** [token.split(/(?<!:[\d])\./)]: split at every dot that is not
    preceded by a colon and a digit.  [p2] and [p1] are the two
    characters before the current one. *)
Fixpoint split_attr_aux (s cur : string) (p2 p1 : option ascii)
  : list string :=
  match s with
  | EmptyString => [rev_str cur EmptyString]
  | String c r =>
      let guarded :=
        match p2, p1 with
        | Some a, Some b => chr_eqb a ":" && is_digit b
        | _, _ => false
        end in
      if chr_eqb c "." && negb guarded then
        rev_str cur EmptyString :: split_attr_aux r EmptyString p1 (Some c)
      else split_attr_aux r (String c cur) p1 (Some c)
  end.

Definition split_attr (token : string) : list string :=
  split_attr_aux token EmptyString None None.

(** The callback of [attrStrings.map] in [parseEvent]. *)
Definition parse_attr (s : string) : Attribute :=
  if includes s "(" then
    let parts := split "(" s in
    let name := nth_str 0 parts in
    let argStr := nth_str 1 parts in
    mkAttribute name
      (map (fun a => if isNaN (Number a) then AStr a else ANum (Number a))
           (split "," (drop_first ")" argStr)))
  else mkAttribute s [].

Definition parseDurationVal (str : string) : num :=
  let dotCount := count_char "." str in
  let clean := drop_all (chr_eqb ".") str in
  let base := ndiv (ofZ 4) (parseInt10 clean) in
  let val := if Nat.eqb dotCount 1 then nmul base (ofQ (3 # 2)) else base in
  if Nat.eqb dotCount 2 then nmul val (ofQ (7 # 4)) else val.

(** [REGEX_PITCH = /^([a-g])(qs|qf|tqs|tqf|x|bb|b|#|n)*(-?\d+)?$/i]. *)
Definition ACCIDENTALS : list string :=
  ["qs"; "qf"; "tqs"; "tqf"; "x"; "bb"; "b"; "#"; "n"].

(** [s] starts with [p] up to letter case: the text matched and the rest. *)
Fixpoint prefix_ci (p s : string) : option (string * string) :=
  match p, s with
  | EmptyString, _ => Some (EmptyString, s)
  | String a p', String b s' =>
      if chr_eqb (lower_char a) (lower_char b) then
        match prefix_ci p' s' with
        | Some (m, r) => Some (String b m, r)
        | None => None
        end
      else None
  | String _ _, EmptyString => None
  end.

Fixpoint first_alt (alts : list string) (s : string)
  : option (string * string) :=
  match alts with
  | [] => None
  | a :: alts' =>
      match prefix_ci a s with
      | Some r => Some r
      | None => first_alt alts' s
      end
  end.

(** The starred group: the capture is the text of its last iteration.
    [n] bounds the number of iterations by the length of the text. *)
Fixpoint match_accs (n : nat) (s : string) (last : option string)
  : option string * string :=
  match n with
  | O => (last, s)
  | S n' =>
      match first_alt ACCIDENTALS s with
      | Some (m, r) => match_accs n' r (Some m)
      | None => (last, s)
      end
  end.

Fixpoint all_digits (s : string) : bool :=
  match s with
  | EmptyString => true
  | String c r => is_digit c && all_digits r
  end.

(** The optional third group, anchored at the end of the text. *)
Definition match_octave (s : string) : option (option string) :=
  match s with
  | EmptyString => Some None
  | String c r =>
      let ds := if chr_eqb c "-" then r else s in
      if negb (str_eqb ds EmptyString) && all_digits ds then Some (Some s)
      else None
  end.

(** [pitch.match(REGEX_PITCH)]: the three groups. *)
Definition match_pitch (pitch : string)
  : option (string * option string * option string) :=
  match pitch with
  | String c r =>
      if in_range 97 103 (lower_char c) then
        let '(acc, r1) := match_accs (String.length r) r None in
        match match_octave r1 with
        | Some oct => Some (String c EmptyString, acc, oct)
        | None => None
        end
      else None
  | EmptyString => None
  end.

Definition baseMap (step : string) : Z :=
  if str_eqb step "c" then 0 else if str_eqb step "d" then 2
  else if str_eqb step "e" then 4 else if str_eqb step "f" then 5
  else if str_eqb step "g" then 7 else if str_eqb step "a" then 9
  else 11.

(** The semitone of a step letter and an accidental. *)
Definition semitone_of (step acc : string) : Z :=
  let semitone := baseMap step in
  let semitone := if str_eqb acc "#" then semitone + 1 else semitone in
  let semitone := if str_eqb acc "b" then semitone - 1 else semitone in
  let semitone := if str_eqb acc "x" then semitone + 2 else semitone in
  let semitone := if str_eqb acc "bb" then semitone - 2 else semitone in
  semitone.

Definition parsePitchToMidi (pitch : string) (lastOctave : num)
  : num * num :=
  match match_pitch pitch with
  | None => (ofZ 60, ofZ 4)
  | Some (m1, m2, octStr) =>
      let step := toLowerCase m1 in
      let acc := match m2 with Some a => a | None => EmptyString end in
      let octave :=
        match octStr with
        | Some o => parseInt10 o
        | None => lastOctave
        end in
      let semitone := semitone_of step acc in
      (nadd (nmul (nadd octave (ofZ 1)) (ofZ 12)) (ofZ semitone), octave)
  end.

Definition push_pitch (p : num) (e : NoteEvent) : NoteEvent :=
  mkEvent (kind e) (pitches e ++ [p]) (duration e) (tickStart e) (tickEnd e)
    (velocity e) (instrumentId e) (voiceId e) (modifiers e).

Definition set_octave (o : num) (c : VoiceCursor) : VoiceCursor :=
  mkCursor o (cur_duration c) (cur_tick c).
Definition set_duration (d : num) (c : VoiceCursor) : VoiceCursor :=
  mkCursor (cur_octave c) d (cur_tick c).

Fixpoint assoc {V} (k : string) (l : list (string * V)) : option V :=
  match l with
  | [] => None
  | (k', v) :: r => if str_eqb k k' then Some v else assoc k r
  end.

(** [tuning[i]] for a number [i]. *)
Definition index_num {A} (l : list A) (i : num) : option A :=
  match to_int i with
  | Some z => if Z.ltb z 0 then None else nth_error l (Z.to_nat z)
  | None => None
  end.

(** [resolvePitch]: the cursor and the event are mutated in place, so
    both are returned. *)
Definition resolvePitch (p : string) (inst : InstrumentDef)
    (cursor : VoiceCursor) (event : NoteEvent) : VoiceCursor * NoteEvent :=
  if str_eqb (inst_style inst) TAB then
    let parts := split "-" p in
    if Nat.eqb (length parts) 2 then
      let fret := parseInt (nth_str 0 parts) in
      let str := parseInt (nth_str 1 parts) in
      let tuning :=
        match inst_tuning inst with
        | Some t => t
        | None => GUITAR_STD_TUNING
        end in
      let stringPitch :=
        index_num tuning (nsub (ofZ (Z.of_nat (length tuning))) str) in
      if truthy_str stringPitch then
        let '(midi, _) :=
          parsePitchToMidi (default EmptyString stringPitch) (ofZ 4) in
        (cursor, push_pitch (nadd midi fret) event)
      else (cursor, event)
    else (cursor, event)
  else if str_eqb (inst_style inst) GRID then
    let map :=
      match inst_map inst with
      | Some m => m
      | None => GM_DRUM_MAP
      end in
    match assoc p map with
    | Some (DNum v) =>
        if truthy_num v then (cursor, push_pitch v event) else (cursor, event)
    | Some (DPair _ v) => (cursor, push_pitch v event)
    | None => (cursor, event)
    end
  else
    let '(midi, octave) := parsePitchToMidi p (cur_octave cursor) in
    (set_octave octave cursor, push_pitch midi event).

(* ------------------------------------------------------------------ *)
(** ** Voice stream interpreter *)

Definition is_vol (a : Attribute) : bool :=
  str_eqb (attr_name a) "vol" || str_eqb (attr_name a) "vel".

Definition is_grace (a : Attribute) : bool := str_eqb (attr_name a) "grace".

Definition set_kind (k : EventType) (e : NoteEvent) : NoteEvent :=
  mkEvent k (pitches e) (duration e) (tickStart e) (tickEnd e)
    (velocity e) (instrumentId e) (voiceId e) (modifiers e).

Definition set_velocity (v : num) (e : NoteEvent) : NoteEvent :=
  mkEvent (kind e) (pitches e) (duration e) (tickStart e) (tickEnd e)
    v (instrumentId e) (voiceId e) (modifiers e).

(** [event.duration = 0; event.tickEnd = event.tickStart]. *)
Definition make_grace (e : NoteEvent) : NoteEvent :=
  mkEvent (kind e) (pitches e) (Zero false) (tickStart e) (tickStart e)
    (velocity e) (instrumentId e) (voiceId e) (modifiers e).

(** [this.globalCursors[instId][voiceId]]; reading a voice of an
    instrument that has no cursor table raises a TypeError.  The table
    is a finite map: for a voice whose name a plain object inherits
    ([OBJECT_PROTOTYPE]) the source finds the inherited value, the model
    finds no entry. *)
Definition lookup_cursor (instId voice : string) : M (option VoiceCursor) :=
  fun st =>
    match globalCursors st !! instId with
    | Some tbl => Done (tbl !! voice, st)
    | None => Throw
    end.

Definition store_cursor (instId voice : string) (c : VoiceCursor) : M unit :=
  fun st =>
    match globalCursors st !! instId with
    | Some tbl =>
        Done (tt, set_globalCursors
                    (<[instId := <[voice := c]> tbl]> (globalCursors st)) st)
    | None => Throw
    end.

Definition push_event (e : NoteEvent) : M unit :=
  modify (fun st =>
    set_score (set_timeline (timeline (score st) ++ [e]) (score st)) st).

(** The pitch part of [parseEvent]. *)
Definition resolve_pitches (pitchStr : string) (inst : InstrumentDef)
    (cursor : VoiceCursor) (event : NoteEvent) : VoiceCursor * NoteEvent :=
  if str_eqb pitchStr "r" then (cursor, set_kind rest event)
  else if str_eqb pitchStr "s" then (cursor, set_kind rest event)
  else if startsWith pitchStr "[" then
    let inner :=
      drop_all (fun c => chr_eqb c "[" || chr_eqb c "]") pitchStr in
    fold_left (fun ce p => resolvePitch p inst (fst ce) (snd ce))
      (split_ws inner) (cursor, set_kind chord event)
  else resolvePitch pitchStr inst cursor event.

(** The velocity override at the end of [parseEvent]. *)
Definition vol_override (attributes : list Attribute) (e : NoteEvent)
  : NoteEvent :=
  match find is_vol attributes with
  | Some volAttr =>
      match attr_args volAttr with
      | ANum n :: _ => set_velocity (ndiv n (ofZ 127)) e
      | _ => e
      end
  | None => e
  end.

(** The parts of an event token: [core] is the text before the first
    splitting dot, the modifiers are read from the texts after it, and
    the core is cut at its colons into the pitch part and the duration
    part. *)
Definition token_core (token : string) : string :=
  nth_str 0 (split_attr token).

Definition token_modifiers (token : string) : list Attribute :=
  map parse_attr (tl (split_attr token)).

Definition pitch_part (token : string) : string :=
  nth_str 0 (split ":" (token_core token)).

Definition duration_part (token : string) : option string :=
  nth_error (split ":" (token_core token)) 1.

(** The event [parseEvent] builds from a token, with the cursor as the
    function leaves it and the advance of the voice position: the source
    reports the advance through the callback [onAdvance]; here it is a
    result ([None] when the callback is not called). *)
Definition build_event (token : string) (inst : InstrumentDef)
    (voice : string) (baseTick relativeTick : num) (cursor : VoiceCursor)
  : VoiceCursor * NoteEvent * option num :=
  let attributes := token_modifiers token in
  let pitchStr := pitch_part token in
  let durStr := duration_part token in
  let cursor :=
    if truthy_str durStr then
      set_duration (parseDurationVal (default EmptyString durStr)) cursor
    else cursor in
  let ticks := nmul (cur_duration cursor) TICKS_PER_QUARTER in
  let event :=
    mkEvent note [] (cur_duration cursor)
      (nadd baseTick relativeTick)
      (nadd (nadd baseTick relativeTick) ticks)
      (ofQ (4 # 5)) (inst_id inst) voice attributes in
  let isGrace := existsb is_grace attributes in
  let event := if isGrace then make_grace event else event in
  let '(cursor, event) := resolve_pitches pitchStr inst cursor event in
  let event := vol_override attributes event in
  (cursor, event, if isGrace then None else Some ticks).

(** [parseEvent]. *)
Definition parseEvent (token : string) (inst : InstrumentDef)
    (voice : string) (baseTick relativeTick : num) : M (option num) :=
  if existsb (str_eqb token) ["|"; "{"; "}"; "]"] then ret None
  else
    c <- lookup_cursor (inst_id inst) voice ;;
    match c with
    | None => throw
    | Some cursor =>
        let '(cursor, event, adv) :=
          build_event token inst voice baseTick relativeTick cursor in
        push_event event ;;
        store_cursor (inst_id inst) voice cursor ;;
        ret adv
    end.

Definition advance (currentTick : num) (a : option num) : num :=
  match a with
  | Some d => nadd currentTick d
  | None => currentTick
  end.

(** [body.replace(new RegExp('\\$' + p + '\\b', 'g'), a)], with the
    parameter name [p] read literally.  [skip] counts the characters of
    a match still to be dropped. *)
Fixpoint replace_param (s p a : string) (skip : nat) : string :=
  match skip, s with
  | S k, String _ r => replace_param r p a k
  | _, EmptyString => EmptyString
  | O, String c r =>
      let pat := String "$" p in
      let n := String.length pat in
      let last :=
        match String.get (Nat.pred n) pat with Some x => x | None => c end in
      let next := String.get n s in
      let boundary :=
        xorb (is_word_re last)
             (match next with Some x => is_word_re x | None => false end) in
      if startsWith s pat && boundary then
        a ++ replace_param r p a (Nat.pred n)
      else String c (replace_param r p a O)
  end.

Fixpoint join (sep : string) (l : list string) : string :=
  match l with
  | [] => EmptyString
  | [x] => x
  | x :: r => x ++ sep ++ join sep r
  end.

(** [def.params.forEach((p, i) => body = body.replace(..., args[i] || ''))]. *)
Fixpoint substitute (ps : list string) (i : nat) (args : list string)
    (body : string) : string :=
  match ps with
  | [] => body
  | p :: ps' =>
      substitute ps' (S i) args (replace_param body p (nth_str i args) O)
  end.

Fixpoint macro_events (ts : list string) (inst : InstrumentDef)
    (voice : string) (baseTick currentTick : num) : M num :=
  match ts with
  | [] => ret currentTick
  | t :: ts' =>
      a <- parseEvent t inst voice baseTick (Zero false) ;;
      macro_events ts' inst voice baseTick (advance currentTick a)
  end.

(** [handleMacro]; the callback adds to the caller's [currentTick], whose
    new value is the result.  [macros] is a finite map: for a macro name
    that a plain object inherits ([OBJECT_PROTOTYPE]) the source finds
    the inherited value and raises a TypeError at [def.params.forEach],
    the model finds no entry and returns. *)
Definition handleMacro (token : string) (inst : InstrumentDef)
    (voice : string) (baseTick currentTick : num) : M num :=
  let name := match token with String _ r => r | EmptyString => token end in
  let '(name, args) :=
    if includes name "(" then
      let parts := split "(" name in
      (nth_str 0 parts, split "," (drop_first ")" (nth_str 1 parts)))
    else (name, []) in
  st <- get_state ;;
  match macros st !! name with
  | None => ret currentTick
  | Some def =>
      let body := substitute (params def) 0 args (body def) in
      macro_events (tokenize body) inst voice baseTick currentTick
  end.

Definition parseVoiceStream (fuel : nat) (inst : InstrumentDef)
    (voice : string) (baseTick : num) (terminator : string) : M unit :=
  iterate fuel (fun currentTick : num =>
    p <- peek ;;
    b <- in_bounds ;;
    if negb (str_eqb p terminator) && negb (str_eqb p "}") && b then
      token <- consume ;;
      if str_eqb token "]" then ret (inl currentTick)
      else if startsWith token "$" then
        t <- handleMacro token inst voice baseTick currentTick ;;
        ret (inl t)
      else
        a <- parseEvent token inst voice baseTick currentTick ;;
        ret (inl (advance currentTick a))
    else ret (inr tt)) (Zero false).

(** The lazy creation of a voice cursor in [parseInstrumentLogic]. *)
Definition ensure_cursor (instId voice : string) : M unit :=
  c <- lookup_cursor instId voice ;;
  match c with
  | Some _ => ret tt
  | None => store_cursor instId voice (mkCursor (ofZ 4) (ofZ 1) (Zero false))
  end.

Definition find_instrument (instId : string) : M InstrumentDef :=
  fun st =>
    match find (fun i => str_eqb (inst_id i) instId)
               (instruments (score st)) with
    | Some i => Done (i, st)
    | None => Throw
    end.

Definition parseInstrumentLogic (fuel : nat) (instId : string)
    (measureStartTick : num) : M unit :=
  consume ;;
  skip_if ":" ;;
  inst <- find_instrument instId ;;
  b <- peek_is "{" ;;
  if b then
    consume ;;
    while fuel
      (p <- peek ;; ib <- in_bounds ;; ret (negb (str_eqb p "}") && ib))
      (vToken <- consume ;;
       let voice := drop_first ":" vToken in
       skip_if ":" ;;
       ensure_cursor instId voice ;;
       parseVoiceStream fuel inst voice measureStartTick "|" ;;
       skip_if "|") ;;
    consume ;;
    ret tt
  else
    let voice := "v1" in
    ensure_cursor instId voice ;;
    parseVoiceStream fuel inst voice measureStartTick "|" ;;
    skip_if "|".

(* ------------------------------------------------------------------ *)
(** ** Meta resolver *)

Definition is_dquote (c : ascii) : bool := chr_eqb c dquote.

(** The chain of [if (lowerKey === ...)] in [parseMetaBlock]. *)
Definition apply_meta (lowerKey cleanVal : string) (m : OmniMeta) : OmniMeta :=
  if str_eqb lowerKey "title" then set_title cleanVal m
  else if str_eqb lowerKey "composer" then set_composer cleanVal m
  else if str_eqb lowerKey "tempo" then set_tempo (parseInt10 cleanVal) m
  else if str_eqb lowerKey "key" then set_key cleanVal m
  else if str_eqb lowerKey "time" then
    let parts := split "/" cleanVal in
    let n := parseInt10_opt (nth_error parts 0) in
    let d := parseInt10_opt (nth_error parts 1) in
    if negb (isNaN n) && negb (isNaN d) then set_timeSignature (n, d) m
    else m
  else m.

Definition update_meta (f : OmniMeta -> OmniMeta) : M unit :=
  modify (fun st => set_score (set_meta (f (meta (score st))) (score st)) st).

(** [while (!val.endsWith(']')) val += this.consume()]. *)
Definition read_list (fuel : nat) (val : string) : M string :=
  iterate fuel (fun val : string =>
    if endsWith val "]" then ret (inr val)
    else t <- consume ;; ret (inl (val ++ t))) val.

Definition parseMetaBlock (fuel : nat) : M unit :=
  consume ;;
  b <- match_tok "{" ;;
  if negb b then ret tt
  else
    while fuel
      (p <- peek ;; ib <- in_bounds ;; ret (negb (str_eqb p "}") && ib))
      (k <- consume ;;
       let key := drop_first ":" k in
       skip_if ":" ;;
       val <- consume ;;
       val <- (if startsWith val "[" then read_list fuel val else ret val) ;;
       let cleanVal := drop_all is_dquote val in
       let lowerKey := toLowerCase key in
       update_meta (apply_meta lowerKey cleanVal) ;;
       skip_if ",") ;;
    consume ;;
    ret tt.

(* ------------------------------------------------------------------ *)
(** ** Macro and instrument table builders *)

Definition parseMacroDef (fuel : nat) : M unit :=
  consume ;;
  sig <- consume ;;
  let '(name, params) :=
    if includes sig "(" then
      let parts := split "(" sig in
      (nth_str 0 parts,
       map trim (split "," (drop_first ")" (nth_str 1 parts))))
    else (sig, []) in
  match_tok "=" ;;
  b <- match_tok "{" ;;
  if negb b then ret tt
  else
    bodyTokens <-
      iterate fuel (fun '((balance, bodyTokens) : Z * list string) =>
        ib <- in_bounds ;;
        if Z.ltb 0 balance && ib then
          t <- consume ;;
          let balance :=
            if str_eqb t "{" then balance + 1
            else if str_eqb t "}" then balance - 1
            else balance in
          ret (inl (balance,
                    if Z.ltb 0 balance then (bodyTokens ++ [t])%list
                    else bodyTokens))
        else ret (inr bodyTokens)) (1, []) ;;
    modify (fun st =>
      set_macros (<[name := mkMacro params (join " " bodyTokens)]> (macros st))
                 st).

Definition RESERVED : list string :=
  ["def"; "group"; "measure"; "meta"; "macro"; "}"; "{"].

Definition set_inst_style (v : string) (i : InstrumentDef) : InstrumentDef :=
  mkInst (inst_id i) (inst_label i) (inst_group i) v (inst_clef i)
    (inst_transpose i) (inst_tuning i) (inst_map i) (inst_patch i)
    (inst_vol i) (inst_pan i).
Definition set_inst_clef (v : string) (i : InstrumentDef) : InstrumentDef :=
  mkInst (inst_id i) (inst_label i) (inst_group i) (inst_style i) (Some v)
    (inst_transpose i) (inst_tuning i) (inst_map i) (inst_patch i)
    (inst_vol i) (inst_pan i).
Definition set_inst_transpose (v : num) (i : InstrumentDef) : InstrumentDef :=
  mkInst (inst_id i) (inst_label i) (inst_group i) (inst_style i) (inst_clef i)
    (Some v) (inst_tuning i) (inst_map i) (inst_patch i)
    (inst_vol i) (inst_pan i).
Definition set_inst_map (v : list (string * DrumMapValue)) (i : InstrumentDef)
  : InstrumentDef :=
  mkInst (inst_id i) (inst_label i) (inst_group i) (inst_style i) (inst_clef i)
    (inst_transpose i) (inst_tuning i) (Some v) (inst_patch i)
    (inst_vol i) (inst_pan i).
Definition set_inst_patch (v : string) (i : InstrumentDef) : InstrumentDef :=
  mkInst (inst_id i) (inst_label i) (inst_group i) (inst_style i) (inst_clef i)
    (inst_transpose i) (inst_tuning i) (inst_map i) (Some v)
    (inst_vol i) (inst_pan i).
Definition set_inst_vol (v : num) (i : InstrumentDef) : InstrumentDef :=
  mkInst (inst_id i) (inst_label i) (inst_group i) (inst_style i) (inst_clef i)
    (inst_transpose i) (inst_tuning i) (inst_map i) (inst_patch i)
    (Some v) (inst_pan i).
Definition set_inst_pan (v : num) (i : InstrumentDef) : InstrumentDef :=
  mkInst (inst_id i) (inst_label i) (inst_group i) (inst_style i) (inst_clef i)
    (inst_transpose i) (inst_tuning i) (inst_map i) (inst_patch i)
    (inst_vol i) (Some v).

(** The chain of [if (k === ...)] in [parseDef]. *)
Definition apply_attr (k v : string) (inst : InstrumentDef) : InstrumentDef :=
  if str_eqb k "style" then set_inst_style v inst
  else if str_eqb k "clef" then set_inst_clef v inst
  else if str_eqb k "transpose" then set_inst_transpose (parseInt10 v) inst
  else if str_eqb k "patch" then set_inst_patch v inst
  else if str_eqb k "vol" then set_inst_vol (parseFloat v) inst
  else if str_eqb k "pan" then set_inst_pan (parseFloat v) inst
  else if str_eqb k "map" && str_eqb v "gm_kit" then
    set_inst_map GM_DRUM_MAP inst
  else inst.

Definition parseDef (fuel : nat) : M unit :=
  consume ;;
  id <- consume ;;
  p <- peek ;;
  label <-
    (if startsWith p (String dquote EmptyString) then
       t <- consume ;; ret (drop_all is_dquote t)
     else ret id) ;;
  st <- get_state ;;
  let inst :=
    mkInst id label (currentGroup st) STANDARD None None None None None None
      None in
  inst <-
    iterate fuel (fun inst : InstrumentDef =>
      next <- peek ;;
      if existsb (str_eqb (toLowerCase next)) RESERVED
         || str_eqb next EmptyString
      then ret (inr inst)
      else
        attr <- consume ;;
        if negb (includes attr "=") then ret (inr inst)
        else
          let parts := split "=" attr in
          let k := toLowerCase (nth_str 0 parts) in
          let v := drop_all is_dquote (nth_str 1 parts) in
          ret (inl (apply_attr k v inst))) inst ;;
  modify (fun st =>
    set_globalCursors (<[id := ∅]> (globalCursors st))
      (set_score (set_instruments (instruments (score st) ++ [inst])
                                  (score st)) st)).

Definition parseGroup (fuel : nat) : M unit :=
  consume ;;
  consume ;;
  while fuel (p <- peek ;; ret (negb (str_eqb p "{"))) (consume ;; ret tt) ;;
  consume ;;
  modify (set_currentGroup (Some "Group")) ;;
  while fuel
    (p <- peek ;; ib <- in_bounds ;; ret (negb (str_eqb p "}") && ib))
    (p <- peek ;;
     if str_eqb (toLowerCase p) "def" then parseDef fuel
     else consume ;; ret tt) ;;
  consume ;;
  modify (set_currentGroup None).

(* ------------------------------------------------------------------ *)
(** ** Measure driver *)

Definition has_instrument (id : string) (st : Parser) : bool :=
  existsb (fun i => str_eqb (inst_id i) id) (instruments (score st)).

(** [numerator * (4 / denominator) * TICKS_PER_QUARTER]. *)
Definition ticksPerMeasure (ts : num * num) : num :=
  nmul (nmul (fst ts) (ndiv (ofZ 4) (snd ts))) TICKS_PER_QUARTER.

(** One replay of the token span that ends at [blockEnd]. *)
Definition replay_block (fuel : nat) (blockEnd : Z) (measureStartTick : num)
  : M unit :=
  while fuel
    (st <- get_state ;; ret (Z.ltb (Z.of_nat (tokenIndex st)) blockEnd))
    (t <- peek ;;
     if str_eqb (toLowerCase t) "meta" then parseMetaBlock fuel
     else
       let possibleId := drop_first ":" t in
       st <- get_state ;;
       if has_instrument possibleId st then
         parseInstrumentLogic fuel possibleId measureStartTick
       else consume ;; ret tt).

(** [for (let m = startM; m <= endM; m++)] of [parseMeasure].  The
    counter is an exact number: it is the counter of the source as long
    as it stays within the integers that binary64 holds exactly, below
    [2 ^ 53] in absolute value (from there on [m++] of the source no
    longer advances). *)
Definition replay_loop (fuel : nat) (blockStart : nat) (blockEnd : Z)
    (ticksPerMeasure : num) (startM endM : num) : M unit :=
  iterate fuel (fun m : num =>
    if nle m endM then
      let measureStartTick := nmul (nsub m (ofZ 1)) ticksPerMeasure in
      modify (set_tokenIndex blockStart) ;;
      replay_block fuel blockEnd measureStartTick ;;
      ret (inl (nadd m (ofZ 1)))
    else ret (inr tt)) startM.

(** [startM] and [endM] of [parseMeasure]. *)
Definition measure_range (range : string) : num * num :=
  if includes range "-" then
    let p := split "-" range in
    (parseInt_opt (nth_error p 0), parseInt_opt (nth_error p 1))
  else (parseInt range, parseInt range).

(** The scan for the brace that closes the block. *)
Definition scan_block (fuel : nat) : M unit :=
  iterate fuel (fun balance : Z =>
    ib <- in_bounds ;;
    if Z.ltb 0 balance && ib then
      t <- consume ;;
      let balance := if str_eqb t "{" then balance + 1 else balance in
      let balance := if str_eqb t "}" then balance - 1 else balance in
      ret (inl balance)
    else ret (inr tt)) 1.

Definition parseMeasure (fuel : nat) : M unit :=
  consume ;;
  range <- consume ;;
  let '(startM, endM) := measure_range range in
  b <- match_tok "{" ;;
  if negb b then ret tt
  else
    st <- get_state ;;
    let blockStart := tokenIndex st in
    scan_block fuel ;;
    st <- get_state ;;
    let blockEnd := Z.of_nat (tokenIndex st) - 1 in
    let tpm := ticksPerMeasure (timeSignature (meta (score st))) in
    replay_loop fuel blockStart blockEnd tpm startM endM ;;
    modify (set_tokenIndex (Z.to_nat (blockEnd + 1))).

(* ------------------------------------------------------------------ *)
(** ** Top level and timeline assembler *)

Definition parseBody (fuel : nat) : M unit :=
  while fuel
    (ib <- in_bounds ;; p <- peek ;; ret (ib && negb (str_eqb p "}")))
    (t <- peek ;;
     let l := toLowerCase t in
     if str_eqb l "meta" then parseMetaBlock fuel
     else if str_eqb l "macro" then parseMacroDef fuel
     else if str_eqb l "group" then parseGroup fuel
     else if str_eqb l "def" then parseDef fuel
     else if str_eqb l "measure" then parseMeasure fuel
     else consume ;; ret tt).

(** The comparator [(a, b) => a.tickStart - b.tickStart]. *)
Definition compare_events (a b : NoteEvent) : num :=
  nsub (tickStart a) (tickStart b).

(** [Array.prototype.sort]: a stable sort; [b] goes before [a] only when
    the comparator's result is positive (NaN counts as zero).  [insert_event x l]
    places [x], which came before the elements of [l].  This is the sort
    of the source when no [tickStart] is NaN; with a NaN the comparator
    is inconsistent and the order that [Array.prototype.sort] gives is
    left to the engine: the stable insertion below is then one order
    among the possible ones. *)
Fixpoint insert_event (x : NoteEvent) (l : list NoteEvent) : list NoteEvent :=
  match l with
  | [] => [x]
  | y :: r =>
      if ngt (compare_events x y) (Zero false) then y :: insert_event x r
      else x :: l
  end.

Fixpoint sort_events (l : list NoteEvent) : list NoteEvent :=
  match l with
  | [] => []
  | x :: r => insert_event x (sort_events r)
  end.

(** Step 4 of [parse]. *)
Definition finalize (s : CompiledScore) : CompiledScore :=
  let sorted := sort_events (timeline s) in
  let s := set_timeline sorted s in
  match last sorted with
  | Some e => set_durationTicks (tickEnd e) s
  | None => s
  end.

(** Step 3 of [parse]: the root block. *)
Definition parse_root (fuel : nat) : M unit :=
  p <- peek ;;
  if str_eqb p "omniscore" then
    consume ;;
    b <- match_tok "{" ;;
    when b (parseBody fuel ;; match_tok "}" ;; ret tt)
  else parseBody fuel.

(** Steps 1 to 3 of [parse]: the state when the root block is done. *)
Definition compile (fuel : nat) (source : string) : outcome (unit * Parser) :=
  let cleanCode := strip_comments source false in
  parse_root fuel (new_parser (tokenize cleanCode)).

(** [new OmniParser(source).parse()]. *)
Definition parse (fuel : nat) (source : string) : outcome CompiledScore :=
  match compile fuel source with
  | Done (_, st) => Done (finalize (score st))
  | Throw => Throw
  | OutOfFuel => OutOfFuel
  end.

(* ------------------------------------------------------------------ *)
(** * Specification

    The notions the properties are stated with, and the concrete inputs
    they are checked on. *)

(** ** Budgets and invariants *)

(** A computation that takes a loop budget is monotone when a larger
    budget never changes a result it has reached. *)
Definition mono {A} (m : nat -> M A) : Prop :=
  forall f f' st r, (f <= f')%nat -> m f st = Done r -> m f' st = Done r.

(** [m] keeps the property [I] of the parser state whenever it completes. *)
Definition preserves (I : Parser -> Prop) {A} (m : M A) : Prop :=
  forall st a st', I st -> m st = Done (a, st') -> I st'.

(** [m], run from a state with [P], completes only with a result and a
    state that have [Q]. *)
Definition triple {A} (P : Parser -> Prop) (m : M A)
    (Q : A -> Parser -> Prop) : Prop :=
  forall st a st', P st -> m st = Done (a, st') -> Q a st'.

(** Every event of the timeline has the property [Q]. *)
Definition all_events (Q : NoteEvent -> Prop) (st : Parser) : Prop :=
  Forall Q (timeline (score st)).

(** What the properties observe of an event. *)
Definition summary (e : NoteEvent)
  : EventType * list num * num * num * num * num :=
  (kind e, pitches e, duration e, tickStart e, tickEnd e, velocity e).

(** ** The finalized timeline *)

(** A number in the narrow sense: not NaN. *)
Definition is_number (x : num) : Prop := isNaN x = false.

(** The order of the timeline: [a.tickStart <= b.tickStart]. *)
Definition starts_le (a b : NoteEvent) : Prop :=
  nle (tickStart a) (tickStart b) = true.

(** An event whose [tickStart] is a number. *)
Definition timed (e : NoteEvent) : Prop := is_number (tickStart e).

(** The events whose [tickStart] equals [t]. *)
Definition starting_at (t : num) (l : list NoteEvent) : list NoteEvent :=
  filter (fun e => neqb (tickStart e) t = true) l.

(** The events of a run in production order: the timeline before step 4
    of [parse]. *)
Definition produced (fuel : nat) (source : string)
  : option (list NoteEvent) :=
  match compile fuel source with
  | Done (_, st) => Some (timeline (score st))
  | _ => None
  end.

(** Two blocks in decreasing order of their measure index, and the score
    they compile to. *)
Definition reversed_source : string :=
  "def a measure 2 { a: c } measure 1 { a: c }".

Definition reversed_score : CompiledScore :=
  Eval vm_compute in
    match parse 20 reversed_source with
    | Done sc => sc
    | _ => initial_score
    end.

(** ** Velocity *)

(** The first argument of a modifier, when it is a number. *)
Definition numeric_first (a : Attribute) : option num :=
  match attr_args a with
  | ANum n :: _ => Some n
  | _ => None
  end.

(** The velocity an event gets from its modifiers: the first modifier
    named [vol] or [vel] decides.  Its numeric first argument divided by
    127 is the velocity; without one, and without any such modifier, the
    velocity is 0.8. *)
Definition velocity_rule (mods : list Attribute) : num :=
  match find is_vol mods with
  | Some a =>
      match numeric_first a with
      | Some n => ndiv n (ofZ 127)
      | None => ofQ (4 # 5)
      end
  | None => ofQ (4 # 5)
  end.

Definition velocity_ok (e : NoteEvent) : Prop :=
  velocity e = velocity_rule (modifiers e).

(** A note with the modifier [vol(80)], the score it compiles to, and the
    event of that score. *)
Definition vol_source : string :=
  "def a measure 1 { a: " ++ quoted "c.vol(80)." ++ " }".

Definition vol_score : CompiledScore :=
  Eval vm_compute in
    match parse 20 vol_source with Done sc => sc | _ => initial_score end.

Definition vol_event : NoteEvent :=
  Eval vm_compute in
    match timeline vol_score with
    | e :: _ => e
    | [] => mkEvent note [] NaN NaN NaN NaN EmptyString EmptyString []
    end.

(** ** The time signature *)

(** A text with no double quote and no percent sign: between double
    quotes it is one token, and it holds no comment. *)
Definition plain (v : string) : bool :=
  negb (has_char dquote v) && negb (has_char "%" v).

(** The source text of a meta block whose only entry is [time], with the
    value [v] between double quotes. *)
Definition meta_time_source (v : string) : string :=
  "meta { time: " ++ quoted v ++ " }".

(** The time signature after a [time] entry of value [v]: both parts of
    [v] around the first slash must start with an integer; otherwise the
    default stays. *)
Definition time_rule (v : string) : num * num :=
  let parts := split "/" v in
  let n := parseInt10 (nth_str 0 parts) in
  let d := parseInt10_opt (nth_error parts 1) in
  if isNaN n || isNaN d then (ofZ 4, ofZ 4) else (n, d).

(** ** Measure replay *)

(** The integers [a], [a + 1], ..., [n] of them. *)
Fixpoint measures (a : Z) (n : nat) : list Z :=
  match n with
  | O => []
  | S n' => a :: measures (a + 1) n'
  end.

(** One replay of the block per measure index of [ms], in the order of
    the list; the replay for index [m] runs at the tick offset
    [(m - 1) * tpm], with one and the same [tpm] for all of them. *)
Fixpoint replays (fuel : nat) (blockStart : nat) (blockEnd : Z) (tpm : num)
    (ms : list Z) : M unit :=
  match ms with
  | [] => ret tt
  | m :: ms' =>
      modify (set_tokenIndex blockStart) ;;
      replay_block fuel blockEnd (nmul (ofZ (m - 1)) tpm) ;;
      replays fuel blockStart blockEnd tpm ms'
  end.

(** A measure block read as a list of replays: the three tokens of the
    header, the scan for the end of the block, then the replays for the
    measure indices [ms] with the measure length [tpm]. *)
Definition measure_spec (fuel : nat) (tpm : num) (ms : list Z) : M unit :=
  consume ;;
  consume ;;
  consume ;;
  st <- get_state ;;
  let blockStart := tokenIndex st in
  scan_block fuel ;;
  st <- get_state ;;
  let blockEnd := Z.of_nat (tokenIndex st) - 1 in
  replays fuel blockStart blockEnd tpm ms ;;
  modify (set_tokenIndex (Z.to_nat (blockEnd + 1))).

(** The parser state at the keyword [measure] of
    [def a measure 1-2 { a: c }]: the instrument [a] is defined and has
    an empty table of cursors. *)
Definition at_measure : Parser :=
  Eval vm_compute in
    match parseDef 5 (new_parser (tokenize "def a measure 1-2 { a: c }")) with
    | Done (_, st) => st
    | _ => new_parser []
    end.

(** ** The cursor of a new voice *)

(** The cursor [{ octave: 4, duration: 1.0, tick: 0 }]. *)
Definition fresh_cursor : VoiceCursor := mkCursor (ofZ 4) (ofZ 1) (ofZ 0).

(** The instrument that [def a] declares. *)
Definition inst_a : InstrumentDef :=
  mkInst "a" "a" None STANDARD None None None None None None None.

(** ** Instrument attributes *)

(** A token in which [parseDef] finds no attribute name: it holds no
    [=], or it is [=] itself, or it starts with a double quote. *)
Definition keyless (t : string) : bool :=
  negb (has_char "=" t) || str_eqb t "="
  || startsWith t (String dquote EmptyString).

(** The tokens that a mode of the lexer can still complete are keyless. *)
Definition lex_ok (mode : lex_mode) : Prop :=
  match mode with
  | LIdle => True
  | LQuote acc => startsWith acc (String dquote EmptyString) = true
  | LMacro acc | LWord acc => has_char "=" acc = false
  end.

(** An instrument as [parseDef] creates it, before any attribute. *)
Definition plain_instrument (i : InstrumentDef) : Prop :=
  i = mkInst (inst_id i) (inst_label i) (inst_group i) STANDARD None None
        None None None None None.

Definition plain_staves (st : Parser) : Prop :=
  Forall (fun t => keyless t = true) (tokens st) /\
  Forall plain_instrument (instruments (score st)).

(** ** Tokens *)

Fixpoint all_chars (p : ascii -> bool) (s : string) : bool :=
  match s with
  | EmptyString => true
  | String c r => p c && all_chars p r
  end.

(** A text with no double quote but its last character. *)
Fixpoint quoted_tail (s : string) : bool :=
  match s with
  | EmptyString => false
  | String c r => if chr_eqb c dquote then str_eqb r EmptyString
                  else quoted_tail r
  end.

(** The texts that an alternative of [REGEX_TOKEN] matches as a whole:
    one punctuation character, a text between two double quotes with no
    third one, a dollar sign and an identifier, or a run of the
    characters of the fourth alternative. *)
Definition is_lexeme (t : string) : bool :=
  match t with
  | EmptyString => false
  | String c r =>
      (is_punct c && str_eqb r EmptyString)
      || (chr_eqb c dquote && quoted_tail r)
      || (chr_eqb c "$" &&
          match r with
          | String d r' => is_ident_start d && all_chars is_ident_char r'
          | EmptyString => false
          end)
      || (is_generic c && all_chars is_generic r)
  end.

(** What a mode of the lexer has read, given the text [s] still to read,
    can be completed to a lexeme. *)
Definition lex_inv (mode : lex_mode) (s : string) : Prop :=
  match mode with
  | LIdle => True
  | LQuote acc =>
      exists v, acc = String dquote v /\ has_char dquote v = false
  | LMacro acc =>
      (acc = "$" /\
       exists d r, s = String d r /\ is_ident_start d = true)
      \/ is_lexeme acc = true /\ startsWith acc "$" = true
  | LWord acc => is_lexeme acc = true /\ all_chars is_generic acc = true
  end.

(** ** Macro calls *)

(** The parser state in the voice stream of
    [def a macro m = { c d } measure 1 { a: $m }], at the macro call. *)
Definition at_macro_call : Parser :=
  Eval vm_compute in
    match
      (parseDef 5 ;; parseMacroDef 5 ;; consume ;; consume ;; consume ;;
       consume ;; consume ;; ensure_cursor "a" "v1")
        (new_parser (tokenize "def a macro m = { c d } measure 1 { a: $m }"))
    with
    | Done (_, st) => st
    | _ => new_parser []
    end.

(** ** Measure blocks *)

(** The parser state at the keyword [measure] of
    [def a measure x { a: c }], whose measure number is not a number. *)
Definition at_unnumbered_measure : Parser :=
  set_tokenIndex 2 (new_parser (tokenize "def a measure x { a: c }")).

(** ** Meta entries *)

(** A word: a non-empty run of the characters of the fourth alternative
    of [REGEX_TOKEN]. *)
Definition is_word (s : string) : bool :=
  negb (str_eqb s EmptyString) && all_chars is_generic s.

(** The source text of a meta block with the one entry [key: "v"]. *)
Definition meta_source (key v : string) : string :=
  "meta { " ++ key ++ ": " ++ quoted v ++ " }".

(** ** Durations *)

(** Every dot of [s] is preceded by a colon and a digit, where [p2] and
    [p1] are the two characters before [s]: the dots at which
    [parseEvent] does not split a token. *)
Fixpoint dots_guarded (p2 p1 : option ascii) (s : string) : bool :=
  match s with
  | EmptyString => true
  | String c r =>
      (negb (chr_eqb c ".") ||
       match p2, p1 with
       | Some a, Some b => chr_eqb a ":" && is_digit b
       | _, _ => false
       end)
      && dots_guarded p1 (Some c) r
  end.

(** ** Reachable states *)

(** What holds in every state of a run besides a property [K] under
    study: the tokens are lexemes, and the instruments are plain. *)
Definition reachable (K : Parser -> Prop) (st : Parser) : Prop :=
  K st /\
  Forall (fun t => is_lexeme t = true) (tokens st) /\
  plain_staves st.

(** The same inside the voice streams of the instrument [inst]. *)
Definition streaming (K : Parser -> Prop) (inst : InstrumentDef)
    (st : Parser) : Prop :=
  reachable K st /\ In inst (instruments (score st)).

(** ** The events of a compiled score *)

(** The pitches an event has by its kind: a rest has none, a note has
    one, and a chord has the one pitch 60. *)
Definition pitches_by_kind (e : NoteEvent) : Prop :=
  match kind e with
  | rest => pitches e = []
  | note => length (pitches e) = 1%nat
  | chord => pitches e = [ofZ 60]
  end.

(** ** Termination *)

(** An outcome other than the exhaustion of the loop budget: a
    completion with a result and a state that have [Q], or a throw. *)
Definition good {A} (Q : A -> Parser -> Prop) (o : outcome (A * Parser))
  : Prop :=
  match o with
  | Done (a, st) => Q a st
  | Throw => True
  | OutOfFuel => False
  end.

(** Run on the tokens [T], the computation [m] ends, with the tokens
    [T], at a position [k] tokens further at least. *)
Definition moves (T : list string) (k : nat) {A} (m : M A) : Prop :=
  forall st,
    tokens st = T ->
    good (fun _ st' => tokens st' = T /\
                       (tokenIndex st + k <= tokenIndex st')%nat) (m st).

(** The value of the counter of measures: the integer of an integral
    number, 0 otherwise. *)
Definition ival (x : num) : Z :=
  match to_int x with Some z => z | None => 0 end.

(** The number of replays of a block with the range [(s, e)]. *)
Definition span (range : num * num) : nat :=
  if isNaN (fst range) || isNaN (snd range) then O
  else Z.to_nat (ival (snd range) - ival (fst range) + 1).

(** The largest number of replays that a token asks for when it is read
    as the range of a measure block. *)
Definition max_span (T : list string) : nat :=
  fold_right (fun t n => Nat.max (span (measure_range t)) n) O T.

(** The conditions on the tokens under which every loop of the parser
    ends: a brace follows the label of every [group], a closing bracket
    follows every opening bracket, and the measure numbers are within
    the integers that binary64 holds exactly. *)
Definition braced_groups (T : list string) : Prop :=
  forall i,
    toLowerCase (nth i T EmptyString) = "group" ->
    exists j, (i + 2 <= j)%nat /\ nth j T EmptyString = "{".

Definition closed_brackets (T : list string) : Prop :=
  forall i,
    nth i T EmptyString = "[" ->
    exists j, (i < j)%nat /\ nth j T EmptyString = "]".

Definition exact_measures (T : list string) : Prop :=
  forall i,
    toLowerCase (nth i T EmptyString) = "measure" ->
    let range := measure_range (nth (S i) T EmptyString) in
    Z.abs (ival (fst range)) < 2 ^ 53 /\ Z.abs (ival (snd range)) < 2 ^ 53.

(** [x] is the integer [a] as [parseInt] delivers it: the number [a], or
    the negative zero. *)
Definition intlike (x : num) (a : Z) : Prop :=
  x = ofZ a \/ (x = Zero true /\ a = 0).

(** A source text with a group, a list value and a range of measures,
    and its tokens. *)
Definition halting_source : string :=
  "group g { def a } meta { list: [ x ] } measure 1-2 { a: c }".

Definition halting_tokens : list string :=
  Eval vm_compute in tokenize (strip_comments halting_source false).

(** ** Groups *)

(** The two values the group of an instrument can have. *)
Definition group_value (g : option string) : Prop :=
  g = None \/ g = Some "Group".

(** ** Pitch names *)

(** The step letters, in either case. *)
Definition is_step (c : ascii) : bool := in_range 97 103 (lower_char c).

(** The accidentals that change the pitch, and none. *)
Definition SHIFTS : list string := [""; "#"; "b"; "x"; "bb"].

(** An octave number, or none: digits after an optional minus sign. *)
Definition octave_ok (o : string) : bool :=
  match o with
  | EmptyString => true
  | String c r =>
      let ds := if chr_eqb c "-" then r else o in
      negb (str_eqb ds EmptyString) && all_digits ds
  end.

(** ** Names inherited from [Object.prototype] *)

(** The property names that every plain object inherits from
    [Object.prototype].  The tables [macros] and [globalCursors] of the
    parser are plain objects: reading one of these names in a table
    finds the inherited value, where the finite map of the model finds
    no entry. *)
Definition OBJECT_PROTOTYPE : list string :=
  ["constructor"; "hasOwnProperty"; "isPrototypeOf"; "propertyIsEnumerable";
   "toLocaleString"; "toString"; "valueOf"; "__proto__";
   "__defineGetter__"; "__defineSetter__";
   "__lookupGetter__"; "__lookupSetter__"].

(** A token that holds none of these names: no name that the parser
    derives from it, a voice or a macro, is an inherited one. *)
Definition own_name (t : string) : bool :=
  negb (existsb (includes t) OBJECT_PROTOTYPE).

(** The tokens for which the tables of the source are the finite maps
    of the model. *)
Definition own_names (T : list string) : Prop :=
  Forall (fun t => own_name t = true) T.

(** ** The first event of a voice *)

(** [e] is an event of the voice [v] of the instrument [i]. *)
Definition of_voice (i v : string) (e : NoteEvent) : bool :=
  str_eqb (instrumentId e) i && str_eqb (voiceId e) v.

(** The events [l] hold no event of that voice. *)
Definition silent (i v : string) (l : list NoteEvent) : Prop :=
  Forall (fun x => of_voice i v x = false) l.

(** [e] is the event that [parseEvent] builds from a token on the cursor
    of a new voice, [{ octave: 4, duration: 1.0, tick: 0 }], for an
    instrument without attributes. *)
Definition from_fresh_cursor (e : NoteEvent) : Prop :=
  exists token inst b r,
    is_lexeme token = true /\ plain_instrument inst /\
    e = snd (fst (build_event token inst (voiceId e) b r fresh_cursor)).

(** A voice that has a cursor and no event yet has the cursor of a new
    voice. *)
Definition new_voices_fresh (st : Parser) : Prop :=
  forall i tbl v c,
    globalCursors st !! i = Some tbl -> tbl !! v = Some c ->
    silent i v (timeline (score st)) -> c = fresh_cursor.

(** The first event of every voice is built on the cursor of a new
    voice. *)
Definition first_events_fresh (l : list NoteEvent) : Prop :=
  forall pre e post,
    l = (pre ++ e :: post)%list ->
    silent (instrumentId e) (voiceId e) pre -> from_fresh_cursor e.

Definition voices_inv (st : Parser) : Prop :=
  new_voices_fresh st /\ first_events_fresh (timeline (score st)).

(** The invariant of a run, and the same inside the voice streams of the
    instrument [inst]. *)
Definition composing (st : Parser) : Prop :=
  reachable (fun _ => True) st /\ voices_inv st.

Definition voicing (inst : InstrumentDef) (st : Parser) : Prop :=
  streaming (fun _ => True) inst st /\ voices_inv st.

(** A source text with one event, the state at the end of its root
    block, and the event. *)
Definition first_event_source : string := "def a measure 1 { a: c }".

Definition first_event_state : Parser :=
  Eval vm_compute in
    match compile 20 first_event_source with
    | Done (_, st) => st
    | _ => new_parser []
    end.

Definition first_event : NoteEvent :=
  Eval vm_compute in
    match timeline (score first_event_state) with
    | e :: _ => e
    | [] => mkEvent note [] NaN NaN NaN NaN "" "" []
    end.

(* ------------------------------------------------------------------ *)
(** * Properties *)

(** ** The model on small inputs *)

Example ex_parseInt :
  parseInt10 " -12ab" = ofZ (-12) /\
  parseInt "0x1F" = ofZ 31 /\
  parseInt10 "0x1F" = Zero false /\
  parseInt10 "-0" = Zero true /\
  parseInt10 "x" = NaN.
Proof. vm_compute. repeat split. Qed.

Example ex_Number :
  Number "80" = ofZ 80 /\
  Number "" = Zero false /\
  Number "1e3" = ofZ 1000 /\
  Number ".5" = ofQ (1 # 2) /\
  Number "5." = ofZ 5 /\
  Number "5.e" = NaN /\
  Number "-Infinity" = Inf true /\
  Number "0b101" = ofZ 5 /\
  Number "1.5e-1" = ofQ (3 # 20) /\
  Number "." = NaN /\
  Number "80x" = NaN.
Proof. vm_compute. repeat split. Qed.

Example ex_parseFloat :
  parseFloat "3.5abc" = ofQ (7 # 2) /\
  parseFloat "." = NaN /\
  parseFloat "1e" = ofZ 1.
Proof. vm_compute. repeat split. Qed.

Example ex_arithmetic :
  nmul (ofZ 0) (Inf false) = NaN /\
  nmul (ofZ (-3)) (ofZ 0) = Zero true /\
  ndiv (ofZ 4) (ofZ 0) = Inf false /\
  ndiv (ofZ 4) (Zero true) = Inf true /\
  nsub (Inf false) (Inf false) = NaN /\
  nsub (ofZ 5) (ofZ 5) = ofZ 0.
Proof. vm_compute. repeat split. Qed.

Example ex_tokenize :
  tokenize
    ("pno: c4:4.stacc [c4 e4]:8 $Hat(80) " ++ quoted "a b" ++ " x=1 %") =
  ["pno"; ":"; "c4"; ":"; "4.stacc"; "["; "c4"; "e4"; "]"; ":"; "8";
   "$Hat"; "("; "80"; ")"; quoted "a b"; "x"; "="; "1"].
Proof. reflexivity. Qed.

Example ex_strip_comments :
  strip_comments ("a %% c" ++ String (ascii_of_N 10) "b % c") false =
  "a " ++ String (ascii_of_N 10) "b % c".
Proof. reflexivity. Qed.

Example ex_parsePitchToMidi :
  parsePitchToMidi "c4" (ofZ 4) = (ofZ 60, ofZ 4) /\
  parsePitchToMidi "e" (ofZ 5) = (ofZ 76, ofZ 5) /\
  parsePitchToMidi "Bb3" (ofZ 4) = (ofZ 58, ofZ 3) /\
  parsePitchToMidi "cbb" (ofZ 4) = (ofZ 58, ofZ 4) /\
  parsePitchToMidi "c##4" (ofZ 4) = (ofZ 61, ofZ 4) /\
  parsePitchToMidi "f#-1" (ofZ 4) = (ofZ 6, ofZ (-1)) /\
  parsePitchToMidi "h" (ofZ 5) = (ofZ 60, ofZ 4) /\
  parsePitchToMidi "c4x" (ofZ 5) = (ofZ 60, ofZ 4) /\
  parsePitchToMidi "" (ofZ 5) = (ofZ 60, ofZ 4).
Proof. vm_compute. repeat split. Qed.

Example ex_split_attr :
  split_attr "c4:4.vol.stacc" = ["c4:4.vol"; "stacc"] /\
  split_attr "c.vol.vol(80)." = ["c"; "vol"; "vol(80)"; ""] /\
  split_attr "4.stacc" = ["4"; "stacc"].
Proof. vm_compute. repeat split. Qed.

Example ex_parseDurationVal :
  parseDurationVal "4." = ofQ (3 # 2) /\
  parseDurationVal "8" = ofQ (1 # 2) /\
  parseDurationVal "4.." = ofQ (7 # 4) /\
  parseDurationVal "x" = NaN /\
  parseDurationVal "0" = Inf false.
Proof. vm_compute. repeat split. Qed.

Example ex_replace_param :
  replace_param "h:8.vol($vel) $velx $vel" "vel" "80" 0
  = "h:8.vol(80) $velx 80".
Proof. reflexivity. Qed.

(** ** The loop budget

    A run that completes within a budget completes with the same result
    within every larger one, so a result obtained with some fuel is the
    result of the program. *)

Lemma mono_const {A} (m : M A) : mono (fun _ => m).
Proof. intros f f' st r _ H. exact H. Qed.

Lemma mono_bind {A B} (m : nat -> M A) (k : nat -> A -> M B) :
  mono m -> (forall a, mono (fun f => k f a)) ->
  mono (fun f => bind (m f) (k f)).
Proof.
  intros Hm Hk f f' st r Hle. unfold bind.
  destruct (m f st) as [[a st1]| |] eqn:E; try discriminate.
  rewrite (Hm f f' st (a, st1) Hle E). apply (Hk a); exact Hle.
Qed.

Lemma iterate_mono_gen {S R} (step : nat -> S -> M (S + R)) :
  (forall s, mono (fun f => step f s)) ->
  forall n n' f f' s st r,
    (n <= n')%nat -> (f <= f')%nat ->
    iterate n (step f) s st = Done r -> iterate n' (step f') s st = Done r.
Proof.
  intros Hs n. induction n as [|n IH]; intros n' f f' s st r Hn Hf H.
  - discriminate.
  - destruct n' as [|n']; [lia|].
    cbn [iterate] in *. unfold bind in *.
    destruct (step f s st) as [[x st1]| |] eqn:E; try discriminate.
    rewrite (Hs s f f' st (x, st1) Hf E).
    destruct x as [s'|x]; [|exact H].
    apply (IH n' f f' s' st1 r); [lia|exact Hf|exact H].
Qed.

Lemma mono_iterate {S R} (step : nat -> S -> M (S + R)) (s : S) :
  (forall s, mono (fun f => step f s)) ->
  mono (fun f => iterate f (step f) s).
Proof.
  intros Hs f f' st r Hle H.
  exact (iterate_mono_gen step Hs f f' f f' s st r Hle Hle H).
Qed.

Lemma mono_while (cond : M bool) (body : nat -> M unit) :
  mono body -> mono (fun f => while f cond (body f)).
Proof.
  intros Hb. unfold while.
  apply (mono_iterate (fun f (_ : unit) =>
    bind cond (fun b => if b then bind (body f) (fun _ => ret (inl tt))
                        else ret (inr tt)))).
  intros _. apply (mono_bind (fun _ => cond)); [apply mono_const|].
  intros [|]; [|apply mono_const].
  apply (mono_bind body (fun _ _ => ret (inl tt))); [exact Hb|].
  intros _. apply mono_const.
Qed.

Lemma mono_when (b : bool) (m : nat -> M unit) :
  mono m -> mono (fun f => when b (m f)).
Proof. intros H. destruct b; cbn [when]; [exact H|apply mono_const]. Qed.

Create HintDb fuel discriminated.

Ltac mono_step :=
  first
    [ apply mono_const
    | solve [auto with fuel nocore]
    | apply mono_while
    | apply mono_when
    | apply mono_iterate; intros ?
    | apply mono_bind; [|intros ?]
    | match goal with
      | |- mono (fun f => if ?b then _ else _) => destruct b
      | |- mono (fun f => match ?x with _ => _ end) => destruct x
      end ].

Ltac mono_tac := repeat mono_step.

Lemma parseVoiceStream_mono inst voice baseTick terminator :
  mono (fun f => parseVoiceStream f inst voice baseTick terminator).
Proof. unfold parseVoiceStream. mono_tac. Qed.
#[local] Hint Resolve parseVoiceStream_mono : fuel.

Lemma parseInstrumentLogic_mono instId t :
  mono (fun f => parseInstrumentLogic f instId t).
Proof. unfold parseInstrumentLogic. mono_tac. Qed.
#[local] Hint Resolve parseInstrumentLogic_mono : fuel.

Lemma parseMetaBlock_mono : mono parseMetaBlock.
Proof. unfold parseMetaBlock, read_list. mono_tac. Qed.
#[local] Hint Resolve parseMetaBlock_mono : fuel.

Lemma parseMacroDef_mono : mono parseMacroDef.
Proof. unfold parseMacroDef. mono_tac. Qed.
#[local] Hint Resolve parseMacroDef_mono : fuel.

Lemma parseDef_mono : mono parseDef.
Proof. unfold parseDef. mono_tac. Qed.
#[local] Hint Resolve parseDef_mono : fuel.

Lemma parseGroup_mono : mono parseGroup.
Proof. unfold parseGroup. mono_tac. Qed.
#[local] Hint Resolve parseGroup_mono : fuel.

Lemma replay_block_mono blockEnd t : mono (fun f => replay_block f blockEnd t).
Proof. unfold replay_block. mono_tac. Qed.
#[local] Hint Resolve replay_block_mono : fuel.

Lemma replay_loop_mono bs be tpm a b :
  mono (fun f => replay_loop f bs be tpm a b).
Proof. unfold replay_loop. mono_tac. Qed.
#[local] Hint Resolve replay_loop_mono : fuel.

Lemma parseMeasure_mono : mono parseMeasure.
Proof. unfold parseMeasure, scan_block. mono_tac. Qed.
#[local] Hint Resolve parseMeasure_mono : fuel.

Lemma parseBody_mono : mono parseBody.
Proof. unfold parseBody. mono_tac. Qed.
#[local] Hint Resolve parseBody_mono : fuel.

Lemma parse_root_mono : mono parse_root.
Proof. unfold parse_root. mono_tac. Qed.

Lemma compile_mono source f f' r :
  (f <= f')%nat -> compile f source = Done r -> compile f' source = Done r.
Proof. unfold compile. intros Hle. apply parse_root_mono. exact Hle. Qed.

(** More fuel never changes the score [parse] returns. *)
Lemma parse_mono source f f' sc :
  (f <= f')%nat -> parse f source = Done sc -> parse f' source = Done sc.
Proof.
  unfold parse. intros Hle H.
  destruct (compile f source) as [[u st]| |] eqn:E; try discriminate.
  rewrite (compile_mono source f f' (u, st) Hle E). exact H.
Qed.

(* ------------------------------------------------------------------ *)
(** ** C1: termination of [parse] *)

(** The loop [while (this.peek() !== '{') this.consume()] of [parseGroup]
    has no test on the token index: when no opening brace is left, it
    runs past the end of the tokens for ever. *)
Ltac msimpl :=
  cbv beta iota delta
    [bind ret peek consume in_bounds get_state modify when skip_if peek_is
     match_tok throw].

Lemma swallow_never_returns (n : nat) (st : Parser) :
  (forall i, (tokenIndex st <= i)%nat ->
             nth i (tokens st) EmptyString <> "{") ->
  while n (p <- peek ;; ret (negb (str_eqb p "{"))) (consume ;; ret tt) st
  = OutOfFuel.
Proof.
  revert st. induction n as [|n IH]; intros st H; [reflexivity|].
  unfold while in *. cbn [iterate]. msimpl.
  assert (E : str_eqb (nth (tokenIndex st) (tokens st) EmptyString) "{"
              = false).
  { apply String.eqb_neq. apply H. lia. }
  rewrite E. cbn [negb]. msimpl.
  apply IH. intros i Hi. apply H. simpl in Hi. lia.
Qed.

Lemma parseGroup_never_returns (fuel : nat) (st : Parser) :
  (forall i, (2 + tokenIndex st <= i)%nat ->
             nth i (tokens st) EmptyString <> "{") ->
  parseGroup fuel st = OutOfFuel.
Proof.
  intros H. unfold parseGroup.
  cbv beta iota delta [bind consume].
  rewrite swallow_never_returns; [reflexivity|].
  intros i Hi. apply H. simpl in Hi. lia.
Qed.

(** A [group] keyword that no opening brace follows: [parseBody] hands
    over to [parseGroup] and never gets the control back. *)
Lemma parseBody_group_never_returns (fuel : nat) (st : Parser) :
  (tokenIndex st < length (tokens st))%nat ->
  toLowerCase (nth (tokenIndex st) (tokens st) EmptyString) = "group" ->
  (forall i, (2 + tokenIndex st <= i)%nat ->
             nth i (tokens st) EmptyString <> "{") ->
  parseBody fuel st = OutOfFuel.
Proof.
  intros Hlt Hg H. destruct fuel as [|n]; [reflexivity|].
  unfold parseBody, while. cbn [iterate]. msimpl.
  apply Nat.ltb_lt in Hlt. rewrite Hlt.
  assert (E : str_eqb (nth (tokenIndex st) (tokens st) EmptyString) "}"
              = false).
  { apply String.eqb_neq. intros E. rewrite E in Hg. discriminate. }
  rewrite E. cbn [negb andb]. rewrite Hg.
  change (str_eqb "group" "meta") with false.
  change (str_eqb "group" "macro") with false.
  change (str_eqb "group" "group") with true. cbv iota.
  rewrite parseGroup_never_returns; [reflexivity|exact H].
Qed.

(** C1, at the input [group g]: whatever the budget, the run of [parse]
    is still inside [parseGroup] when the budget is spent; the call never
    returns a score. *)
Theorem C1_group_without_brace_never_returns :
  forall fuel, parse fuel "group g" = OutOfFuel.
Proof.
  intros fuel. unfold parse, compile.
  change (tokenize (strip_comments "group g" false)) with ["group"; "g"].
  cbv beta iota delta [parse_root bind peek].
  change (str_eqb (nth (tokenIndex (new_parser ["group"; "g"]))
                       (tokens (new_parser ["group"; "g"])) EmptyString)
                  "omniscore") with false.
  cbv iota.
  rewrite parseBody_group_never_returns; [reflexivity| | |].
  - simpl. lia.
  - reflexivity.
  - intros i Hi. cbn [tokenIndex tokens new_parser] in *.
    do 2 (destruct i as [|i]; [lia|]). destruct i; discriminate.
Qed.

(* ------------------------------------------------------------------ *)
(** ** Runs on concrete inputs *)

Lemma parse_enough (source : string) (n : nat) (sc : CompiledScore) :
  parse n source = Done sc -> forall k, parse (n + k) source = Done sc.
Proof. intros H k. apply (parse_mono source n); [lia|exact H]. Qed.

Ltac run_parse :=
  intros k; eexists; split;
  [ apply parse_enough; vm_compute; reflexivity | vm_compute; repeat split ].

(** C2, at the input of the claim: the lexer cuts [c4:4] into the three
    tokens [c4], [:] and [4], and each of them becomes an event.  The
    stream yields five events, not three; the colon and the digit are
    unresolved pitches (MIDI 60), and no duration is ever read. *)
Theorem C2_sticky_duration_stream_yields_five_events :
  forall k, exists sc,
    parse (20 + k) "def pno measure 1 { pno: c4:4 d e }" = Done sc /\
    map summary (timeline sc) =
      [(note, [ofZ 60], ofZ 1, ofZ 0, ofZ 1920, ofQ (4 # 5));
       (note, [ofZ 60], ofZ 1, ofZ 1920, ofZ 3840, ofQ (4 # 5));
       (note, [ofZ 60], ofZ 1, ofZ 3840, ofZ 5760, ofQ (4 # 5));
       (note, [ofZ 62], ofZ 1, ofZ 5760, ofZ 7680, ofQ (4 # 5));
       (note, [ofZ 64], ofZ 1, ofZ 7680, ofZ 9600, ofQ (4 # 5))].
Proof. run_parse. Qed.

(** C3, at the input of the claim: the lexer cuts the signature
    [HatPattern(vel)] at the parenthesis, [parseMacroDef] finds no [=]
    and no brace after the name and defines nothing; the body's closing
    brace then ends [parseBody].  No event is produced, and the measure
    block is never reached. *)
Theorem C3_macro_call_yields_no_event :
  forall k, exists sc,
    parse (20 + k)
      "def drm macro HatPattern(vel) = { h:8.vol($vel) h h h } measure 1 { drm: $HatPattern(80) }"
      = Done sc /\
    timeline sc = [] /\ map inst_id (instruments sc) = ["drm"].
Proof. run_parse. Qed.

(** C4, at the input of the claim: the lexer cuts the chord into seven
    tokens.  The bracket alone becomes a chord event with the single
    nominal pitch 60, the three notes become three separate note events,
    and the colon and the digit two more. *)
Theorem C4_chord_token_yields_six_events :
  forall k, exists sc,
    parse (20 + k) "def pno measure 1 { pno: [c4 e4 g4]:4 }" = Done sc /\
    map summary (timeline sc) =
      [(chord, [ofZ 60], ofZ 1, ofZ 0, ofZ 1920, ofQ (4 # 5));
       (note, [ofZ 60], ofZ 1, ofZ 1920, ofZ 3840, ofQ (4 # 5));
       (note, [ofZ 64], ofZ 1, ofZ 3840, ofZ 5760, ofQ (4 # 5));
       (note, [ofZ 67], ofZ 1, ofZ 5760, ofZ 7680, ofQ (4 # 5));
       (note, [ofZ 60], ofZ 1, ofZ 7680, ofZ 9600, ofQ (4 # 5));
       (note, [ofZ 60], ofZ 1, ofZ 9600, ofZ 11520, ofQ (4 # 5))].
Proof. run_parse. Qed.

(** C6, at a score whose first event outlasts the later ones: the
    quarter note of the first stream ends at tick 1920, the grace note
    of the second stream starts and ends at tick 0 and is sorted last.
    [durationTicks] is the grace note's end, 0, not the maximum 1920. *)
Theorem C6_durationTicks_is_not_the_maximum :
  forall k, exists sc,
    parse (20 + k) "def a measure 1 { a: c | a: d.grace }" = Done sc /\
    (map (fun e => (tickStart e, tickEnd e)) (timeline sc) =
       [(ofZ 0, ofZ 1920); (ofZ 0, ofZ 0)] /\
     durationTicks sc = ofZ 0).
Proof. run_parse. Qed.

(** What [parseEvent] does with a duration that reaches it.  A token
    between double quotes is the only kind the lexer leaves whole: here
    the duration [8] is read, kept by the cursor and reused by the two
    notes that follow, which start 960 ticks apart. *)
Lemma sticky_duration_of_a_quoted_token :
  forall k, exists sc,
    parse (20 + k) ("def a measure 1 { a: " ++ quoted "c:8" ++ " d e }")
      = Done sc /\
    map (fun e => (duration e, tickStart e)) (timeline sc) =
      [(ofQ (1 # 2), ofZ 0); (ofQ (1 # 2), ofZ 960); (ofQ (1 # 2), ofZ 1920)].
Proof. run_parse. Qed.

(** A macro that is defined (no parameter list) and called: every event
    of the expansion starts at the start of the measure, because
    [handleMacro] passes the relative tick 0 for each of them; only the
    stream position after the call has advanced. *)
Lemma macro_events_start_together :
  forall k, exists sc,
    parse (20 + k) "def drm macro Hat = { h h h h } measure 1 { drm: $Hat k }"
      = Done sc /\
    map tickStart (timeline sc) = [ofZ 0; ofZ 0; ofZ 0; ofZ 0; ofZ 7680].
Proof. run_parse. Qed.

(** Omissions that do degrade to a partial parse: no root wrapper, and
    no closing brace at the end. *)
Lemma missing_wrapper_and_brace :
  forall k, exists sc,
    parse (20 + k) "def a measure 1 { a: c" = Done sc /\
    map summary (timeline sc) =
      [(note, [ofZ 60], ofZ 1, ofZ 0, ofZ 1920, ofQ (4 # 5))].
Proof. run_parse. Qed.

(* ------------------------------------------------------------------ *)
(** ** The order on numbers *)

Lemma Qle_bool_false (x y : Q) : Qle_bool x y = false <-> (y < x)%Q.
Proof.
  split; intros H.
  - destruct (Qlt_le_dec y x) as [L|L]; [exact L|].
    apply Qle_bool_iff in L. congruence.
  - destruct (Qle_bool x y) eqn:E; [|reflexivity].
    apply Qle_bool_iff in E. lra.
Qed.

Ltac qbool :=
  repeat match goal with
  | H : Qle_bool _ _ = true |- _ => apply Qle_bool_iff in H
  | H : Qle_bool _ _ = false |- _ => apply Qle_bool_false in H
  | H : Qeq_bool _ _ = true |- _ => apply Qeq_bool_iff in H
  | H : Qeq_bool _ _ = false |- _ => apply Qeq_bool_neq in H
  | |- Qle_bool _ _ = true => apply Qle_bool_iff
  | |- Qle_bool _ _ = false => apply Qle_bool_false
  end.

(** On numbers other than NaN the comparator's sign is the order:
    [a - b > 0] exactly when [b < a]. *)
Lemma nsub_pos (a b : num) :
  is_number a -> is_number b ->
  ngt (nsub a b) (Zero false) = nlt b a.
Proof.
  unfold is_number, ngt, nsub.
  destruct a as [|sa|sa|p], b as [|sb|sb|q]; try discriminate; intros _ _;
    try (destruct sa, sb; reflexivity); try (destruct sa; reflexivity);
    try (destruct sb; reflexivity).
  - (* zero and finite *)
    cbn. destruct (Qle_bool (Qred (- q)) 0) eqn:E1,
                  (Qle_bool 0 q) eqn:E2; try reflexivity; exfalso; qbool;
      rewrite Qred_correct in E1; lra.
  - (* finite and finite *)
    cbn. unfold ofQ.
    destruct (Qeq_bool (p + Qred (- q)) 0) eqn:E0; cbn.
    + destruct (Qle_bool p q) eqn:E2; cbn; [reflexivity|].
      exfalso. qbool. rewrite Qred_correct in E0. lra.
    + destruct (Qle_bool (Qred (p + Qred (- q))) 0) eqn:E1,
               (Qle_bool p q) eqn:E2; try reflexivity; exfalso; qbool;
        rewrite !Qred_correct in E1; lra.
Qed.

Lemma nle_number (a b : num) : nle a b = true -> is_number a /\ is_number b.
Proof.
  unfold nle, is_number. destruct a, b; cbn; intros H;
    try discriminate; split; reflexivity.
Qed.

Lemma nle_of_not_lt (a b : num) :
  is_number a -> is_number b -> nlt b a = false -> nle a b = true.
Proof.
  unfold nle, is_number. intros -> -> ->. reflexivity.
Qed.

Lemma nlt_nle (a b : num) : nlt a b = true -> nle a b = true.
Proof.
  unfold nle.
  destruct a as [|sa|sa|p], b as [|sb|sb|q]; cbn;
    try discriminate; try reflexivity;
    try (destruct sa; try destruct sb; cbn; congruence);
    try (destruct sb; cbn; congruence).
  all: rewrite negb_involutive; intros H; apply negb_true_iff in H;
    qbool; lra.
Qed.

Lemma nle_trans (a b c : num) :
  nle a b = true -> nle b c = true -> nle a c = true.
Proof.
  unfold nle.
  destruct a as [|sa|sa|p], b as [|sb|sb|q], c as [|sc|sc|r]; cbn;
    try discriminate; try reflexivity;
    try (destruct sa; try destruct sb; try destruct sc; cbn; congruence);
    try (destruct sb; try destruct sc; cbn; congruence);
    try (destruct sc; cbn; congruence).
  all: rewrite ?negb_involutive; intros H1 H2; qbool; lra.
Qed.

(** [x === y] makes [x] and [y] indistinguishable for [<]. *)
Lemma neqb_nlt_false (a b t : num) :
  neqb a t = true -> neqb b t = true -> nlt b a = false.
Proof.
  unfold neqb. intros Ha Hb.
  apply andb_true_iff in Ha as [Ha1 Ha2]. apply andb_true_iff in Hb as [Hb1 Hb2].
  pose proof (nle_trans _ _ _ Ha1 Hb2) as H.
  unfold nle in H. apply andb_true_iff in H as [_ H].
  apply negb_true_iff in H. exact H.
Qed.

(* ------------------------------------------------------------------ *)
(** ** C7: the finalized timeline *)

Lemma insert_event_perm (x : NoteEvent) (l : list NoteEvent) :
  Permutation (x :: l) (insert_event x l).
Proof.
  induction l as [|y r IH]; cbn [insert_event]; [reflexivity|].
  destruct (ngt (compare_events x y) (Zero false)); [|reflexivity].
  rewrite perm_swap. apply perm_skip. exact IH.
Qed.

Lemma sort_events_perm (l : list NoteEvent) : Permutation l (sort_events l).
Proof.
  induction l as [|x r IH]; cbn [sort_events]; [reflexivity|].
  rewrite <- insert_event_perm. apply perm_skip. exact IH.
Qed.

Lemma insert_event_sorted (x : NoteEvent) (l : list NoteEvent) :
  timed x -> Forall timed l ->
  StronglySorted starts_le l -> StronglySorted starts_le (insert_event x l).
Proof.
  intros Hx Hl Hs. induction Hs as [|y r Hr IH Hy]; cbn [insert_event].
  - constructor; constructor.
  - apply Forall_cons_iff in Hl as [Hty Htr].
    unfold compare_events. rewrite (nsub_pos _ _ Hx Hty).
    destruct (nlt (tickStart y) (tickStart x)) eqn:E.
    + constructor; [apply IH; exact Htr|].
      rewrite <- insert_event_perm. constructor; [|exact Hy].
      apply nlt_nle. exact E.
    + assert (Hxy : starts_le x y) by (apply nle_of_not_lt; assumption).
      constructor; [constructor; assumption|].
      constructor; [exact Hxy|].
      eapply Forall_impl; [exact Hy|].
      intros z Hz. unfold starts_le in *. eapply nle_trans; eassumption.
Qed.

Lemma sort_events_sorted (l : list NoteEvent) :
  Forall timed l -> StronglySorted starts_le (sort_events l).
Proof.
  induction l as [|x r IH]; cbn [sort_events]; intros H; [constructor|].
  apply Forall_cons_iff in H as [Hx Hr].
  apply insert_event_sorted; [exact Hx| |apply IH; exact Hr].
  rewrite <- sort_events_perm. exact Hr.
Qed.

Lemma insert_event_stable (t : num) (x : NoteEvent) (l : list NoteEvent) :
  starting_at t (insert_event x l) = starting_at t (x :: l).
Proof.
  unfold starting_at. induction l as [|y r IH]; [reflexivity|].
  cbn [insert_event]. unfold compare_events.
  destruct (ngt (nsub (tickStart x) (tickStart y)) (Zero false)) eqn:E;
    [|reflexivity].
  rewrite filter_cons, IH, !filter_cons.
  destruct (decide (neqb (tickStart y) t = true)) as [Hy|Hy];
    destruct (decide (neqb (tickStart x) t = true)) as [Hx|Hx];
    try reflexivity.
  exfalso.
  assert (Nx : is_number (tickStart x)).
  { unfold neqb in Hx. apply andb_true_iff in Hx as [Hx _].
    apply nle_number in Hx. tauto. }
  assert (Ny : is_number (tickStart y)).
  { unfold neqb in Hy. apply andb_true_iff in Hy as [Hy _].
    apply nle_number in Hy. tauto. }
  rewrite (nsub_pos _ _ Nx Ny) in E.
  rewrite (neqb_nlt_false _ _ t Hx Hy) in E. discriminate.
Qed.

Lemma sort_events_stable (t : num) (l : list NoteEvent) :
  starting_at t (sort_events l) = starting_at t l.
Proof.
  induction l as [|x r IH]; [reflexivity|].
  cbn [sort_events]. rewrite insert_event_stable.
  unfold starting_at in *. rewrite !filter_cons, IH. reflexivity.
Qed.

Lemma timeline_finalize (s : CompiledScore) :
  timeline (finalize s) = sort_events (timeline s).
Proof.
  unfold finalize. destruct (last (sort_events (timeline s))); reflexivity.
Qed.



(** A list of two or more events in non-decreasing order of [tickStart]
    holds no event whose [tickStart] is NaN. *)
Lemma sorted_timed (l : list NoteEvent) :
  Sorted starts_le l -> (2 <= length l)%nat -> Forall timed l.
Proof.
  induction 1 as [|x r Hs IH Hd]; cbn [length]; intros Hlen; [lia|].
  destruct Hd as [|y r' Hxy]; [cbn in Hlen; lia|].
  apply nle_number in Hxy as [Hx Hy].
  constructor; [exact Hx|].
  destruct r' as [|z r'']; [repeat constructor; exact Hy|].
  apply IH. cbn. lia.
Qed.


(* ------------------------------------------------------------------ *)
(** ** Invariants of the timeline *)

Section Preserves.
Variable I : Parser -> Prop.

Lemma preserves_ret {A} (a : A) : preserves I (ret a).
Proof. intros st a' st' H E. injection E as _ <-. exact H. Qed.

Lemma preserves_throw {A} : preserves I (@throw A).
Proof. intros st a st' _ E. discriminate E. Qed.

Lemma preserves_bind {A B} (m : M A) (k : A -> M B) :
  preserves I m -> (forall a, preserves I (k a)) -> preserves I (bind m k).
Proof.
  intros Hm Hk st b st' H E. unfold bind in E.
  destruct (m st) as [[a st1]| |] eqn:E1; try discriminate.
  exact (Hk a st1 b st' (Hm st a st1 H E1) E).
Qed.

Lemma preserves_iterate {S R} (step : S -> M (S + R)) :
  (forall s, preserves I (step s)) ->
  forall n s, preserves I (iterate n step s).
Proof.
  intros Hs n. induction n as [|n IH]; intros s.
  - intros st a st' _ E. discriminate E.
  - cbn [iterate]. apply preserves_bind; [apply Hs|].
    intros [s'|r]; [apply IH|apply preserves_ret].
Qed.

Lemma preserves_while (n : nat) (cond : M bool) (body : M unit) :
  preserves I cond -> preserves I body -> preserves I (while n cond body).
Proof.
  intros Hc Hb. unfold while. apply preserves_iterate. intros _.
  apply preserves_bind; [exact Hc|]. intros [|]; [|apply preserves_ret].
  apply preserves_bind; [exact Hb|]. intros _. apply preserves_ret.
Qed.

Lemma preserves_when (b : bool) (m : M unit) :
  preserves I m -> preserves I (when b m).
Proof. intros H. destruct b; [exact H|apply preserves_ret]. Qed.

Lemma preserves_modify (f : Parser -> Parser) :
  (forall st, I st -> I (f st)) -> preserves I (modify f).
Proof. intros Hf st a st' H E. injection E as _ <-. exact (Hf st H). Qed.

Lemma preserves_read {A} (g : Parser -> A) :
  preserves I (fun st => Done (g st, st)).
Proof. intros st a st' H E. injection E as _ <-. exact H. Qed.
End Preserves.

Create HintDb timeline discriminated.

Section Declarations.
(** [parseDef] keeps a property that does not depend on the position in
    the tokens, on the cursors or on the instruments. *)
Variable I : Parser -> Prop.
Hypothesis I_tokenIndex : forall i st, I st -> I (set_tokenIndex i st).
Hypothesis I_globalCursors : forall c st, I st -> I (set_globalCursors c st).
Hypothesis I_instruments :
  forall l st, I st -> I (set_score (set_instruments l (score st)) st).

Lemma consume_keeps : preserves I consume.
Proof.
  intros st a st' H E. injection E as _ <-. apply I_tokenIndex. exact H.
Qed.

Lemma parseDef_keeps fuel : preserves I (parseDef fuel).
Proof.
  unfold parseDef, get_state, peek.
  repeat first
    [ apply preserves_ret
    | apply consume_keeps
    | apply (preserves_read I)
    | apply preserves_modify; intros ? ?;
      apply I_globalCursors; apply I_instruments; assumption
    | apply preserves_iterate; intros ?
    | apply preserves_bind; [|intros ?]
    | match goal with
      | |- preserves _ (if ?b then _ else _) => destruct b
      end ].
Qed.
End Declarations.

Section Invariant.
(** A property [I] of the parser state that [parseDef] keeps, that
    appending an event built by [parseEvent] keeps, and that no field
    other than the timeline and the instruments can break: it holds when
    the root block is done. *)
Variable I : Parser -> Prop.
Hypothesis I_tokenIndex : forall i st, I st -> I (set_tokenIndex i st).
Hypothesis I_macros : forall m st, I st -> I (set_macros m st).
Hypothesis I_currentGroup : forall g st, I st -> I (set_currentGroup g st).
Hypothesis I_globalCursors : forall c st, I st -> I (set_globalCursors c st).
Hypothesis I_meta :
  forall m st, I st -> I (set_score (set_meta m (score st)) st).
Hypothesis I_parseDef : forall fuel, preserves I (parseDef fuel).
Hypothesis I_event :
  forall token inst voice baseTick relativeTick cursor st,
    I st ->
    I (set_score
         (set_timeline
            (timeline (score st) ++
             [snd (fst (build_event token inst voice baseTick relativeTick
                          cursor))])
            (score st)) st).

Lemma inv_consume : preserves I consume.
Proof. exact (consume_keeps I I_tokenIndex). Qed.

Lemma inv_lookup_cursor i v : preserves I (lookup_cursor i v).
Proof.
  intros st a st' H E. unfold lookup_cursor in E.
  destruct (globalCursors st !! i); [|discriminate].
  injection E as _ <-. exact H.
Qed.

Lemma inv_store_cursor i v c : preserves I (store_cursor i v c).
Proof.
  intros st a st' H E. unfold store_cursor in E.
  destruct (globalCursors st !! i); [|discriminate].
  injection E as _ <-. apply I_globalCursors. exact H.
Qed.

Lemma inv_find_instrument i : preserves I (find_instrument i).
Proof.
  intros st a st' H E. unfold find_instrument in E.
  destruct (find _ _); [|discriminate]. injection E as _ <-. exact H.
Qed.

Ltac pres_step :=
  first
    [ apply preserves_ret
    | apply preserves_throw
    | apply inv_consume
    | apply inv_lookup_cursor
    | apply inv_store_cursor
    | apply inv_find_instrument
    | apply I_parseDef
    | apply (preserves_read I)
    | solve [auto with timeline nocore]
    | apply preserves_while
    | apply preserves_when
    | apply preserves_iterate; intros ?
    | apply preserves_bind; [|intros ?]
    | apply preserves_modify; intros ? ?;
      first [ apply I_tokenIndex | apply I_macros | apply I_currentGroup
            | apply I_meta ];
      assumption
    | match goal with
      | |- preserves _ (if ?b then _ else _) => destruct b
      | |- preserves _ (match ?x with _ => _ end) => destruct x eqn:?
      end ].

Ltac pres_tac := repeat pres_step.

Lemma inv_parseEvent token inst voice b r :
  preserves I (parseEvent token inst voice b r).
Proof.
  unfold parseEvent. pres_tac.
  apply preserves_modify. intros st H.
  match goal with
  | E : build_event _ _ _ _ _ ?c = _ |- _ =>
      pose proof (I_event token inst voice b r c st H) as HI;
      rewrite E in HI; exact HI
  end.
Qed.
#[local] Hint Resolve inv_parseEvent : timeline.

Lemma inv_macro_events ts inst voice b c :
  preserves I (macro_events ts inst voice b c).
Proof.
  revert c. induction ts as [|t ts IH]; intros c; cbn [macro_events];
    pres_tac.
Qed.
#[local] Hint Resolve inv_macro_events : timeline.

Lemma inv_handleMacro token inst voice b c :
  preserves I (handleMacro token inst voice b c).
Proof. unfold handleMacro, get_state. pres_tac. Qed.
#[local] Hint Resolve inv_handleMacro : timeline.

Lemma inv_parseVoiceStream fuel inst voice b t :
  preserves I (parseVoiceStream fuel inst voice b t).
Proof. unfold parseVoiceStream, peek, in_bounds. pres_tac. Qed.
#[local] Hint Resolve inv_parseVoiceStream : timeline.

Lemma inv_parseInstrumentLogic fuel i t :
  preserves I (parseInstrumentLogic fuel i t).
Proof.
  unfold parseInstrumentLogic, ensure_cursor, skip_if, peek_is, peek,
    in_bounds.
  pres_tac.
Qed.
#[local] Hint Resolve inv_parseInstrumentLogic : timeline.

Lemma inv_parseMetaBlock fuel : preserves I (parseMetaBlock fuel).
Proof.
  unfold parseMetaBlock, read_list, update_meta, match_tok, skip_if,
    peek_is, peek, in_bounds.
  pres_tac.
Qed.
#[local] Hint Resolve inv_parseMetaBlock : timeline.

Lemma inv_parseMacroDef fuel : preserves I (parseMacroDef fuel).
Proof. unfold parseMacroDef, match_tok, peek, in_bounds. pres_tac. Qed.
#[local] Hint Resolve inv_parseMacroDef : timeline.

Lemma inv_parseGroup fuel : preserves I (parseGroup fuel).
Proof. unfold parseGroup, peek, in_bounds. pres_tac. Qed.
#[local] Hint Resolve inv_parseGroup : timeline.

Lemma inv_replay_block fuel be t : preserves I (replay_block fuel be t).
Proof. unfold replay_block, get_state, peek. pres_tac. Qed.
#[local] Hint Resolve inv_replay_block : timeline.

Lemma inv_parseMeasure fuel : preserves I (parseMeasure fuel).
Proof.
  unfold parseMeasure, replay_loop, scan_block, match_tok, get_state, peek,
    in_bounds.
  pres_tac.
Qed.
#[local] Hint Resolve inv_parseMeasure : timeline.

Lemma inv_parseBody fuel : preserves I (parseBody fuel).
Proof. unfold parseBody, peek, in_bounds. pres_tac. Qed.
#[local] Hint Resolve inv_parseBody : timeline.

Lemma inv_parse_root fuel : preserves I (parse_root fuel).
Proof. unfold parse_root, match_tok, peek. pres_tac. Qed.

Lemma inv_compile fuel source u st :
  I (new_parser (tokenize (strip_comments source false))) ->
  compile fuel source = Done (u, st) -> I st.
Proof. unfold compile. intros H0 E. exact (inv_parse_root fuel _ _ _ H0 E). Qed.
End Invariant.

(** Every event of a compiled score has a property that every event
    built by [parseEvent] has. *)
Lemma events_invariant (Q : NoteEvent -> Prop) :
  (forall token inst voice baseTick relativeTick cursor,
     Q (snd (fst (build_event token inst voice baseTick relativeTick
                    cursor)))) ->
  forall fuel source sc,
    parse fuel source = Done sc -> Forall Q (timeline sc).
Proof.
  intros HQ fuel source sc. unfold parse. intros E.
  destruct (compile fuel source) as [[u st]| |] eqn:C; try discriminate.
  injection E as <-. rewrite timeline_finalize, <- sort_events_perm.
  refine (inv_compile (all_events Q) _ _ _ _ _ _ _ fuel source u st _ C);
    unfold all_events; try (intros; assumption).
  - intros f. apply parseDef_keeps; intros; assumption.
  - intros token inst voice b r c st' H. cbn.
    apply Forall_app. split; [exact H|].
    constructor; [apply HQ|constructor].
  - constructor.
Qed.

(** Before step 4 of [parse] the field [durationTicks] still has the
    value 0 of the constructor. *)
Lemma durationTicks_before_finalize fuel source u st :
  compile fuel source = Done (u, st) -> durationTicks (score st) = ofZ 0.
Proof.
  intros C.
  refine (inv_compile (fun st => durationTicks (score st) = ofZ 0)
            _ _ _ _ _ _ _ fuel source u st _ C);
    try (intros; assumption);
    [intros f; apply parseDef_keeps; intros; assumption|reflexivity].
Qed.

(** What step 4 of [parse] makes of [durationTicks] in every compiled
    score: the end of the last event of the timeline, whichever event
    ends last; 0 for an empty timeline. *)
Lemma durationTicks_of_score fuel source sc :
  parse fuel source = Done sc ->
  durationTicks sc
  = match last (timeline sc) with
    | Some e => tickEnd e
    | None => ofZ 0
    end.
Proof.
  unfold parse. intros E.
  destruct (compile fuel source) as [[u st]| |] eqn:C; try discriminate.
  injection E as <-.
  pose proof (durationTicks_before_finalize fuel source u st C) as D.
  rewrite timeline_finalize. unfold finalize.
  destruct (last (sort_events (timeline (score st)))); [reflexivity|exact D].
Qed.

(* ------------------------------------------------------------------ *)
(** ** C10: velocity *)

Lemma resolvePitch_keeps p inst c e :
  velocity (snd (resolvePitch p inst c e)) = velocity e /\
  modifiers (snd (resolvePitch p inst c e)) = modifiers e.
Proof.
  unfold resolvePitch.
  repeat match goal with
  | |- context [if ?b then _ else _] => destruct b
  | |- context [match ?x with _ => _ end] => destruct x
  end; cbn; split; reflexivity.
Qed.

Lemma resolve_pitches_keeps p inst c e :
  velocity (snd (resolve_pitches p inst c e)) = velocity e /\
  modifiers (snd (resolve_pitches p inst c e)) = modifiers e.
Proof.
  unfold resolve_pitches.
  destruct (str_eqb p "r"); [split; reflexivity|].
  destruct (str_eqb p "s"); [split; reflexivity|].
  destruct (startsWith p "["); [|apply resolvePitch_keeps].
  generalize (split_ws (drop_all (fun c0 => chr_eqb c0 "[" || chr_eqb c0 "]") p)).
  intros l.
  assert (G : forall ce : VoiceCursor * NoteEvent,
             velocity (snd (fold_left
               (fun ce p0 => resolvePitch p0 inst (fst ce) (snd ce)) l ce))
             = velocity (snd ce) /\
             modifiers (snd (fold_left
               (fun ce p0 => resolvePitch p0 inst (fst ce) (snd ce)) l ce))
             = modifiers (snd ce)).
  { induction l as [|x l IH]; intros ce; cbn [fold_left]; [split; reflexivity|].
    destruct (IH (resolvePitch x inst (fst ce) (snd ce))) as [-> ->].
    apply resolvePitch_keeps. }
  apply (G (c, set_kind chord e)).
Qed.

Lemma vol_override_velocity attrs e :
  velocity e = ofQ (4 # 5) -> modifiers e = attrs ->
  velocity_ok (vol_override attrs e).
Proof.
  intros Hv Hm. unfold velocity_ok, vol_override, velocity_rule, numeric_first.
  destruct (find is_vol attrs) as [a|] eqn:F.
  - destruct (attr_args a) as [|[s|n] r] eqn:A; cbn; rewrite Hm, F, ?A;
      try exact Hv; reflexivity.
  - rewrite Hm, F. exact Hv.
Qed.

Lemma build_event_velocity token inst voice b r cursor :
  velocity_ok (snd (fst (build_event token inst voice b r cursor))).
Proof.
  unfold build_event.
  match goal with
  | |- context [resolve_pitches ?p ?i ?c ?e] =>
      pose proof (resolve_pitches_keeps p i c e) as [Hv Hm];
      destruct (resolve_pitches p i c e) as [c' e'] eqn:R
  end.
  cbn [fst snd] in *. apply vol_override_velocity.
  - rewrite Hv. destruct (existsb is_grace _); reflexivity.
  - rewrite Hm. destruct (existsb is_grace _); reflexivity.
Qed.

(** C10, amended: in every compiled score the velocity of an event is
    decided by the first [vol] or [vel] modifier of its modifier list.
    When that modifier has a numeric first argument, the velocity is the
    argument divided by 127, not clamped; otherwise, and when the list
    has no such modifier, it is 0.8.  In particular an event none of
    whose [vol] or [vel] modifiers has a numeric first argument has
    velocity 0.8. *)
Theorem C10_velocity_from_first_vol_modifier :
  forall fuel source sc e,
    parse fuel source = Done sc ->
    In e (timeline sc) ->
    velocity e = velocity_rule (modifiers e) /\
    ((forall a, In a (modifiers e) -> is_vol a = true ->
                numeric_first a = None) ->
     velocity e = ofQ (4 # 5)).
Proof.
  intros fuel source sc e Hp He.
  pose proof (events_invariant velocity_ok build_event_velocity
                fuel source sc Hp) as Hall.
  rewrite Forall_forall in Hall.
  assert (Hok : velocity_ok e) by (apply Hall, list_elem_of_In; exact He).
  split; [exact Hok|].
  intros Hnone. rewrite Hok. unfold velocity_rule.
  destruct (find is_vol (modifiers e)) as [a|] eqn:F; [|reflexivity].
  apply find_some in F as [Ha Hv]. rewrite (Hnone a Ha Hv). reflexivity.
Qed.

Lemma C10_witness :
  parse 20 vol_source = Done vol_score /\
  In vol_event (timeline vol_score) /\
  velocity vol_event = ofQ (80 # 127) /\
  velocity vol_event = velocity_rule (modifiers vol_event) /\
  ((forall a, In a (modifiers vol_event) -> is_vol a = true ->
              numeric_first a = None) ->
   velocity vol_event = ofQ (4 # 5)).
Proof.
  split; [vm_compute; reflexivity|].
  split; [left; reflexivity|].
  split; [reflexivity|].
  apply (C10_velocity_from_first_vol_modifier 20 vol_source vol_score).
  - vm_compute. reflexivity.
  - left. reflexivity.
Defined.

(** C10 as stated fails.  The event token carries two [vol] modifiers,
    the first without argument and the second with the numeric argument
    80: a [vol] modifier with a numeric first argument is present, and
    the velocity is 0.8, not 80/127. *)
Lemma C10_counterexample :
  exists sc e a,
    parse 20 ("def a measure 1 { a: " ++ quoted "c.vol.vol(80)." ++ " }")
      = Done sc /\
    timeline sc = [e] /\
    In a (modifiers e) /\ is_vol a = true /\
    numeric_first a = Some (ofZ 80) /\
    velocity e = ofQ (4 # 5) /\
    velocity e <> ndiv (ofZ 80) (ofZ 127).
Proof.
  eexists. eexists. exists (mkAttribute "vol" [ANum (ofZ 80)]).
  split; [vm_compute; reflexivity|].
  split; [reflexivity|].
  split; [right; left; reflexivity|].
  split; [reflexivity|]. split; [reflexivity|]. split; [reflexivity|].
  vm_compute. discriminate.
Qed.

(* ------------------------------------------------------------------ *)
(** ** C8: the time signature *)

Lemma append_cons (c : ascii) (a b : string) :
  String c a ++ b = String c (a ++ b).
Proof. reflexivity. Qed.

Lemma append_nil (b : string) : EmptyString ++ b = b.
Proof. reflexivity. Qed.

Lemma append_snoc (a : string) (c : ascii) (r : string) :
  snoc a c ++ r = a ++ String c r.
Proof.
  unfold snoc. induction a as [|x a IH]; [reflexivity|].
  rewrite !append_cons. f_equal. exact IH.
Qed.

Lemma quoted_app (v rest : string) :
  quoted v ++ rest = String dquote (v ++ String dquote rest).
Proof.
  unfold quoted. rewrite append_cons. f_equal.
  induction v as [|x v IH]; [reflexivity|].
  rewrite !append_cons. f_equal. exact IH.
Qed.

Lemma strip_comments_plain (v rest : string) :
  has_char "%" v = false ->
  strip_comments (v ++ rest) false = v ++ strip_comments rest false.
Proof.
  induction v as [|c v IH]; cbn [has_char]; intros H; [reflexivity|].
  apply orb_false_iff in H as [Hc Hv].
  rewrite !append_cons. cbn [strip_comments]. unfold chr_eqb in *.
  rewrite Ascii.eqb_sym, Hc. cbn [andb]. rewrite (IH Hv). reflexivity.
Qed.

Lemma has_char_quote (v rest : string) :
  has_char dquote (v ++ String dquote rest) = true.
Proof.
  induction v as [|c v IH]; [reflexivity|].
  rewrite append_cons. cbn [has_char]. rewrite IH. apply orb_true_r.
Qed.

Lemma lex_quote (v acc rest : string) :
  has_char dquote v = false ->
  lex (v ++ String dquote rest) (LQuote acc)
  = (acc ++ v ++ String dquote EmptyString) :: lex rest LIdle.
Proof.
  revert acc. induction v as [|c v IH]; intros acc H.
  - reflexivity.
  - cbn [has_char] in H. apply orb_false_iff in H as [Hc Hv].
    rewrite !append_cons. cbn [lex lex_step]. unfold chr_eqb in *.
    rewrite Ascii.eqb_sym, Hc. cbn [fst snd app].
    rewrite (IH _ Hv). rewrite append_snoc. reflexivity.
Qed.

Lemma tokenize_meta_time (v : string) :
  plain v = true ->
  tokenize (strip_comments (meta_time_source v) false)
  = ["meta"; "{"; "time"; ":"; quoted v; "}"].
Proof.
  unfold plain, meta_time_source. intros H.
  apply andb_true_iff in H as [Hq Hp].
  apply negb_true_iff in Hq. apply negb_true_iff in Hp.
  rewrite quoted_app.
  simpl. rewrite (strip_comments_plain v _ Hp).
  change (strip_comments (String dquote " }") false)
    with (String dquote " }").
  unfold tokenize. simpl. unfold lex_start.
  change (is_punct dquote) with false.
  change (chr_eqb dquote dquote) with true. cbv iota.
  rewrite has_char_quote. cbn [fst snd app].
  rewrite (lex_quote v _ _ Hq). reflexivity.
Qed.

Lemma drop_all_quoted (v : string) :
  has_char dquote v = false -> drop_all is_dquote (quoted v) = v.
Proof.
  intros H. unfold quoted. cbn [drop_all].
  change (is_dquote dquote) with true. cbv iota.
  induction v as [|c v IH]; [reflexivity|].
  cbn [has_char] in H. apply orb_false_iff in H as [Hc Hv].
  rewrite append_cons. cbn [drop_all]. unfold is_dquote, chr_eqb in *.
  rewrite Ascii.eqb_sym, Hc. f_equal. exact (IH Hv).
Qed.

Lemma split_aux_cons (c : ascii) (s cur : string) :
  exists x r, split_aux c s cur = x :: r.
Proof.
  revert cur. induction s as [|d s IH]; intros cur; cbn [split_aux].
  - eauto.
  - destruct (chr_eqb c d); [eauto|apply IH].
Qed.

Lemma apply_meta_time (v : string) :
  timeSignature (apply_meta "time" v initial_meta) = time_rule v.
Proof.
  unfold apply_meta, time_rule.
  change (str_eqb "time" "title") with false.
  change (str_eqb "time" "composer") with false.
  change (str_eqb "time" "tempo") with false.
  change (str_eqb "time" "key") with false.
  change (str_eqb "time" "time") with true. cbv iota.
  unfold split. destruct (split_aux_cons "/" v EmptyString) as (x & r & ->).
  cbn [nth_error nth_str nth parseInt10_opt].
  destruct (isNaN (parseInt10 x)); [reflexivity|].
  match goal with |- context [isNaN ?e] => destruct (isNaN e) end;
    reflexivity.
Qed.

Lemma meta_finalize (s : CompiledScore) : meta (finalize s) = meta s.
Proof.
  unfold finalize. destruct (last (sort_events (timeline s))); reflexivity.
Qed.

Lemma run_meta_time (v : string) :
  parse_root 10 (new_parser ["meta"; "{"; "time"; ":"; quoted v; "}"])
  = Done (tt,
          mkParser ["meta"; "{"; "time"; ":"; quoted v; "}"] 6
            (set_meta (apply_meta "time" (drop_all is_dquote (quoted v))
                         initial_meta) initial_score)
            ∅ None ∅).
Proof. lazy -[apply_meta drop_all is_dquote initial_meta append]. reflexivity. Qed.

(** C8, amended: the source [meta { time: "v" }] compiles, and its time
    signature is decided by the two parts of [v] around the first slash:
    when both start with an integer the signature is that pair, also
    when the second is zero; when one of them does not, the default
    [4,4] stays. *)
Theorem C8_time_value_sets_or_keeps_signature :
  forall v k,
    plain v = true ->
    exists sc,
      parse (10 + k) (meta_time_source v) = Done sc /\
      timeSignature (meta sc) = time_rule v.
Proof.
  intros v k H.
  assert (Hq : has_char dquote v = false).
  { unfold plain in H. apply andb_true_iff in H as [Hq _].
    apply negb_true_iff in Hq. exact Hq. }
  eexists. split.
  - apply parse_enough. unfold parse, compile.
    rewrite (tokenize_meta_time v H), run_meta_time. reflexivity.
  - rewrite meta_finalize. cbn [score meta set_meta].
    rewrite (drop_all_quoted v Hq). apply apply_meta_time.
Qed.

Lemma C8_witness :
  plain "3/4" = true /\
  exists sc,
    parse (10 + 0) (meta_time_source "3/4") = Done sc /\
    timeSignature (meta sc) = (ofZ 3, ofZ 4).
Proof.
  split; [reflexivity|].
  apply (C8_time_value_sets_or_keeps_signature "3/4" 0). reflexivity.
Defined.

(** The rule at the values of the claim. *)
Lemma time_rule_examples :
  time_rule "3/4" = (ofZ 3, ofZ 4) /\
  time_rule "four/four" = (ofZ 4, ofZ 4) /\
  time_rule "3" = (ofZ 4, ofZ 4) /\
  time_rule "3/" = (ofZ 4, ofZ 4) /\
  time_rule "6/8" = (ofZ 6, ofZ 8) /\
  time_rule "4/0" = (ofZ 4, Zero false).
Proof. vm_compute. repeat split. Qed.

(** C8 as stated fails at the value [4/0]: both parts are integers, the
    guard [!isNaN(n) && !isNaN(d)] lets the pair through, and the time
    signature becomes [4,0]; the default does not stay. *)
Lemma C8_counterexample :
  exists sc,
    parse 10 (meta_time_source "4/0") = Done sc /\
    timeSignature (meta sc) = (ofZ 4, ofZ 0) /\
    timeSignature (meta sc) <> (ofZ 4, ofZ 4).
Proof.
  eexists. split; [vm_compute; reflexivity|].
  split; [reflexivity|]. vm_compute. discriminate.
Qed.

(* ------------------------------------------------------------------ *)
(** ** C5: measure replay *)

Lemma ofQ_proper (p q : Q) : (p == q)%Q -> ofQ p = ofQ q.
Proof.
  intros H. unfold ofQ.
  destruct (Qeq_bool p 0) eqn:Ep, (Qeq_bool q 0) eqn:Eq; qbool.
  - reflexivity.
  - exfalso. apply Eq. rewrite <- H. exact Ep.
  - exfalso. apply Ep. rewrite H. exact Eq.
  - f_equal. apply Qred_complete. exact H.
Qed.

Lemma ofZ_cases (a : Z) :
  (a = 0 /\ ofZ a = Zero false) \/
  (a <> 0 /\ ofZ a = Fin (Qred (inject_Z a))).
Proof.
  unfold ofZ, ofQ. destruct (Qeq_bool (inject_Z a) 0) eqn:E; qbool.
  - left. split; [|reflexivity].
    unfold Qeq in E. cbn in E. lia.
  - right. split; [|reflexivity]. intros ->. apply E. reflexivity.
Qed.

Lemma nadd_ofZ (a b : Z) : nadd (ofZ a) (ofZ b) = ofZ (a + b).
Proof.
  destruct (ofZ_cases a) as [[-> Ha]|[Na Ha]],
           (ofZ_cases b) as [[-> Hb]|[Nb Hb]]; rewrite ?Ha, ?Hb;
    cbn [nadd andb].
  - reflexivity.
  - rewrite Z.add_0_l. symmetry. exact Hb.
  - rewrite Z.add_0_r. symmetry. exact Ha.
  - apply ofQ_proper. rewrite !Qred_correct, inject_Z_plus. reflexivity.
Qed.

Lemma nsub_ofZ (a b : Z) : nsub (ofZ a) (ofZ b) = ofZ (a - b).
Proof.
  unfold nsub.
  destruct (ofZ_cases a) as [[-> Ha]|[Na Ha]],
           (ofZ_cases b) as [[-> Hb]|[Nb Hb]]; rewrite ?Ha, ?Hb;
    cbn [nadd nneg andb negb].
  - reflexivity.
  - destruct (ofZ_cases (0 - b)) as [[E _]|[_ ->]]; [lia|].
    f_equal. apply Qred_complete. rewrite Qred_correct.
    change (0 - b) with (- b). rewrite inject_Z_opp. reflexivity.
  - rewrite Z.sub_0_r. symmetry. exact Ha.
  - replace (a - b) with (a + - b) by lia.
    apply ofQ_proper.
    rewrite !Qred_correct, inject_Z_plus, inject_Z_opp. reflexivity.
Qed.

Lemma Qle_bool_leb (a b : Z) (p q : Q) :
  (p == inject_Z a)%Q -> (q == inject_Z b)%Q -> Qle_bool p q = Z.leb a b.
Proof.
  intros Hp Hq. destruct (Z.leb a b) eqn:E; qbool; rewrite Hp, Hq.
  - apply Z.leb_le in E. rewrite <- Zle_Qle. exact E.
  - apply Z.leb_gt in E. rewrite <- Zlt_Qlt. exact E.
Qed.

Lemma nle_ofZ (a b : Z) : nle (ofZ a) (ofZ b) = Z.leb a b.
Proof.
  unfold nle.
  destruct (ofZ_cases a) as [[-> Ha]|[Na Ha]],
           (ofZ_cases b) as [[-> Hb]|[Nb Hb]]; rewrite ?Ha, ?Hb;
    cbn [isNaN negb andb nlt qval]; rewrite ?negb_involutive;
    try reflexivity; apply Qle_bool_leb;
    rewrite ?Qred_correct; reflexivity.
Qed.

Lemma replay_loop_replays (fuel : nat) (bs : nat) (be : Z) (tpm : num)
    (e : Z) (n : nat) :
  forall (k : nat) (a : Z) (st : Parser),
    e = a + Z.of_nat n - 1 -> (n < k)%nat ->
    iterate k (fun m : num =>
      if nle m (ofZ e) then
        let measureStartTick := nmul (nsub m (ofZ 1)) tpm in
        modify (set_tokenIndex bs) ;;
        replay_block fuel be measureStartTick ;;
        ret (inl (nadd m (ofZ 1)))
      else ret (inr tt)) (ofZ a) st
    = replays fuel bs be tpm (measures a n) st.
Proof.
  set (step := fun m : num =>
      if nle m (ofZ e) then
        let measureStartTick := nmul (nsub m (ofZ 1)) tpm in
        modify (set_tokenIndex bs) ;;
        replay_block fuel be measureStartTick ;;
        ret (inl (nadd m (ofZ 1)))
      else @ret (num + unit) (inr tt)).
  assert (Hstep : forall a,
    step (ofZ a) =
    if Z.leb a e then
      modify (set_tokenIndex bs) ;;
      replay_block fuel be (nmul (ofZ (a - 1)) tpm) ;;
      ret (inl (ofZ (a + 1)))
    else ret (inr tt)).
  { intros a. unfold step. rewrite nle_ofZ, nsub_ofZ, nadd_ofZ. reflexivity. }
  induction n as [|n IH]; intros k a st He Hk;
    (destruct k as [|k]; [lia|]); cbn [iterate measures replays];
    rewrite Hstep.
  - replace (Z.leb a e) with false by (symmetry; apply Z.leb_gt; lia).
    reflexivity.
  - replace (Z.leb a e) with true by (symmetry; apply Z.leb_le; lia).
    unfold bind, modify, ret.
    destruct (replay_block fuel be (nmul (ofZ (a - 1)) tpm)
                (set_tokenIndex bs st)) as [[u st1]| |]; try reflexivity.
    apply IH; lia.
Qed.

Lemma scan_block_score (fuel : nat) (sc : CompiledScore) :
  preserves (fun st => score st = sc) (scan_block fuel).
Proof.
  unfold scan_block. apply preserves_iterate. intros balance.
  apply preserves_bind; [apply preserves_read|]. intros ib.
  destruct (Z.ltb 0 balance && ib); [|apply preserves_ret].
  apply preserves_bind; [|intros t; apply preserves_ret].
  intros st a st' H E. injection E as _ <-. exact H.
Qed.

Lemma tokenIndex_set (i : nat) (st : Parser) :
  tokenIndex (set_tokenIndex i st) = i.
Proof. reflexivity. Qed.

Lemma tokens_set (i : nat) (st : Parser) :
  tokens (set_tokenIndex i st) = tokens st.
Proof. reflexivity. Qed.

Lemma set_tokenIndex_twice (i j : nat) (st : Parser) :
  set_tokenIndex i (set_tokenIndex j st) = set_tokenIndex i st.
Proof. reflexivity. Qed.

(** C5, amended: a block [measure a-b] whose measure numbers are within
    the integers that binary64 holds exactly is replayed once per
    integer of the range, in increasing order, the replay for [m] at the
    offset [(m - 1) * ticksPerMeasure]; the measure length is derived
    once, from the time signature in scope when the block is entered,
    and all replays of the block use it. *)
Theorem C5_replays_use_the_signature_at_block_entry :
  forall fuel st a n,
    measure_range (nth (S (tokenIndex st)) (tokens st) EmptyString)
      = (ofZ a, ofZ (a + Z.of_nat n - 1)) ->
    Z.abs a < 2 ^ 53 -> Z.abs (a + Z.of_nat n - 1) < 2 ^ 53 ->
    nth (S (S (tokenIndex st))) (tokens st) EmptyString = "{" ->
    (n < fuel)%nat ->
    parseMeasure fuel st
    = measure_spec fuel (ticksPerMeasure (timeSignature (meta (score st))))
        (measures a n) st.
Proof.
  intros fuel st a n Hr _ _ Hb Hn. unfold parseMeasure, measure_spec.
  cbv beta iota delta [bind consume match_tok peek ret get_state].
  rewrite !tokenIndex_set, !tokens_set, !set_tokenIndex_twice, Hr.
  cbv beta iota. rewrite !tokenIndex_set, !tokens_set, Hb.
  change (str_eqb "{" "{") with true. cbv beta iota.
  rewrite !tokenIndex_set, !set_tokenIndex_twice. cbn [negb].
  destruct (scan_block fuel _) as [[u st1]| |] eqn:E; try reflexivity.
  assert (Hs : score st1 = score st).
  { refine (scan_block_score fuel (score st) _ _ _ _ E). reflexivity. }
  rewrite Hs. unfold replay_loop.
  rewrite (replay_loop_replays fuel _ _ _ (a + Z.of_nat n - 1) n fuel a st1
             eq_refl Hn).
  reflexivity.
Qed.

Lemma C5_witness :
  measure_range (nth (S (tokenIndex at_measure)) (tokens at_measure) EmptyString)
    = (ofZ 1, ofZ (1 + Z.of_nat 2 - 1)) /\
  Z.abs 1 < 2 ^ 53 /\ Z.abs (1 + Z.of_nat 2 - 1) < 2 ^ 53 /\
  nth (S (S (tokenIndex at_measure))) (tokens at_measure) EmptyString = "{" /\
  (2 < 20)%nat /\
  parseMeasure 20 at_measure
  = measure_spec 20 (ticksPerMeasure (ofZ 4, ofZ 4)) [1; 2] at_measure.
Proof.
  split; [vm_compute; reflexivity|].
  split; [reflexivity|]. split; [reflexivity|].
  split; [reflexivity|].
  split; [lia|].
  apply (C5_replays_use_the_signature_at_block_entry 20 at_measure 1 2).
  - vm_compute. reflexivity.
  - reflexivity.
  - reflexivity.
  - reflexivity.
  - lia.
Defined.

(** C5 as stated fails.  The block of measures 1 and 2 starts with a
    [meta] that sets the time signature 3/4.  The first replay applies
    it, so 3/4 is in scope during the second replay, whose offset by the
    claim is [(2 - 1) * 3 * (4/4) * 1920 = 5760]; the event of the second
    replay starts at 7680, one 4/4 measure: the length derived at block
    entry. *)
Lemma C5_counterexample :
  exists sc,
    parse 20
      ("def a measure 1-2 { meta { time: " ++ quoted "3/4" ++ " } a: c }")
      = Done sc /\
    timeSignature (meta sc) = (ofZ 3, ofZ 4) /\
    map tickStart (timeline sc) = [ofZ 0; ofZ 7680] /\
    nmul (nsub (ofZ 2) (ofZ 1)) (ticksPerMeasure (ofZ 3, ofZ 4)) = ofZ 5760 /\
    nmul (nsub (ofZ 2) (ofZ 1)) (ticksPerMeasure (ofZ 4, ofZ 4)) = ofZ 7680.
Proof.
  eexists. split; [vm_compute; reflexivity|]. vm_compute. repeat split.
Qed.

(* ------------------------------------------------------------------ *)
(** ** C9: the cursor of a new voice *)

Lemma resolvePitch_timing p inst c e :
  duration (snd (resolvePitch p inst c e)) = duration e /\
  tickStart (snd (resolvePitch p inst c e)) = tickStart e /\
  tickEnd (snd (resolvePitch p inst c e)) = tickEnd e.
Proof.
  unfold resolvePitch.
  repeat match goal with
  | |- context [if ?b then _ else _] => destruct b
  | |- context [match ?x with _ => _ end] => destruct x
  end; cbn; repeat split; reflexivity.
Qed.

Lemma resolve_pitches_timing p inst c e :
  duration (snd (resolve_pitches p inst c e)) = duration e /\
  tickStart (snd (resolve_pitches p inst c e)) = tickStart e /\
  tickEnd (snd (resolve_pitches p inst c e)) = tickEnd e.
Proof.
  unfold resolve_pitches.
  destruct (str_eqb p "r"); [repeat split; reflexivity|].
  destruct (str_eqb p "s"); [repeat split; reflexivity|].
  destruct (startsWith p "["); [|apply resolvePitch_timing].
  generalize (split_ws (drop_all (fun c0 => chr_eqb c0 "[" || chr_eqb c0 "]") p)).
  intros l.
  assert (G : forall ce : VoiceCursor * NoteEvent,
    let out := snd (fold_left
        (fun ce p0 => resolvePitch p0 inst (fst ce) (snd ce)) l ce) in
    duration out = duration (snd ce) /\
    tickStart out = tickStart (snd ce) /\
    tickEnd out = tickEnd (snd ce)).
  { induction l as [|x l IH]; intros ce; cbn [fold_left];
      [repeat split; reflexivity|].
    destruct (IH (resolvePitch x inst (fst ce) (snd ce))) as (-> & -> & ->).
    apply resolvePitch_timing. }
  apply (G (c, set_kind chord e)).
Qed.

Lemma vol_override_keeps attrs e :
  pitches (vol_override attrs e) = pitches e /\
  duration (vol_override attrs e) = duration e /\
  tickStart (vol_override attrs e) = tickStart e /\
  tickEnd (vol_override attrs e) = tickEnd e.
Proof.
  unfold vol_override. destruct (find is_vol attrs) as [a|];
    [|repeat split; reflexivity].
  destruct (attr_args a) as [|[s|n] r]; repeat split; reflexivity.
Qed.

(** A first event without duration part and without [grace]. *)
Lemma build_event_fresh_duration token inst voice b r :
  truthy_str (duration_part token) = false ->
  existsb is_grace (token_modifiers token) = false ->
  let out := build_event token inst voice b r fresh_cursor in
  duration (snd (fst out)) = ofZ 1 /\
  tickStart (snd (fst out)) = nadd b r /\
  tickEnd (snd (fst out)) = nadd (nadd b r) (ofZ 1920) /\
  snd out = Some (ofZ 1920).
Proof.
  intros Hd Hg. unfold build_event. rewrite Hd, Hg.
  match goal with
  | |- context [resolve_pitches ?p ?i ?c ?e] =>
      pose proof (resolve_pitches_timing p i c e) as (H1 & H2 & H3);
      destruct (resolve_pitches p i c e) as [c' e'] eqn:R
  end.
  cbn [fst snd] in *.
  destruct (vol_override_keeps (token_modifiers token) e')
    as (_ & -> & -> & ->).
  rewrite H1, H2, H3. repeat split; reflexivity.
Qed.

Lemma match_pitch_plain p m :
  match_pitch p = Some m ->
  str_eqb p "r" = false /\ str_eqb p "s" = false /\ startsWith p "[" = false.
Proof.
  unfold match_pitch. destruct p as [|c p']; [discriminate|].
  destruct (in_range 97 103 (lower_char c)) eqn:E; [|discriminate].
  intros _.
  assert (N : forall d : ascii,
             in_range 97 103 (lower_char d) = false -> Ascii.eqb c d = false).
  { intros d Hd. apply Ascii.eqb_neq. intros ->. congruence. }
  unfold str_eqb, startsWith. cbn [String.eqb String.prefix].
  rewrite (N "r"%char eq_refl), (N "s"%char eq_refl).
  repeat split. destruct (ascii_dec "[" c) as [<-|_]; [discriminate E|].
  reflexivity.
Qed.

(** A first event on a standard staff whose pitch names no octave. *)
Lemma build_event_fresh_octave token inst voice b r step acc :
  inst_style inst = STANDARD ->
  match_pitch (pitch_part token) = Some (step, acc, None) ->
  let out := build_event token inst voice b r fresh_cursor in
  pitches (snd (fst out))
  = [ofZ ((4 + 1) * 12
          + semitone_of (toLowerCase step) (default EmptyString acc))] /\
  cur_octave (fst (fst out)) = ofZ 4.
Proof.
  intros Hs Hm. unfold build_event.
  destruct (match_pitch_plain _ _ Hm) as (Hr & Hs' & Hb).
  unfold resolve_pitches. rewrite Hr, Hs', Hb.
  unfold resolvePitch. rewrite Hs.
  change (str_eqb STANDARD TAB) with false.
  change (str_eqb STANDARD GRID) with false. cbv iota.
  unfold parsePitchToMidi. rewrite Hm.
  cbn [fst snd].
  match goal with
  | |- context [vol_override ?a ?e] =>
      destruct (vol_override_keeps a e) as (-> & _)
  end.
  destruct (truthy_str (duration_part token)),
           (existsb is_grace (token_modifiers token));
    cbn [pitches push_pitch make_grace cur_octave set_octave set_duration
         fresh_cursor app];
    change (nmul (nadd (ofZ 4) (ofZ 1)) (ofZ 12)) with (ofZ ((4 + 1) * 12));
    rewrite nadd_ofZ; destruct acc; split; reflexivity.
Qed.

(** One step of [parseInstrumentLogic]: a voice without cursor gets the
    cursor of octave 4 and duration 1, and the event parsed on it next
    is built from that cursor. *)
Lemma ensure_cursor_then_parseEvent :
  forall st inst voice tbl token b r,
    globalCursors st !! inst_id inst = Some tbl ->
    tbl !! voice = None ->
    existsb (str_eqb token) ["|"; "{"; "}"; "]"] = false ->
    exists st1 st2,
      ensure_cursor (inst_id inst) voice st = Done (tt, st1) /\
      lookup_cursor (inst_id inst) voice st1
        = Done (Some fresh_cursor, st1) /\
      let out := build_event token inst voice b r fresh_cursor in
      parseEvent token inst voice b r st1 = Done (snd out, st2) /\
      timeline (score st2) = (timeline (score st) ++ [snd (fst out)])%list /\
      (truthy_str (duration_part token) = false ->
       existsb is_grace (token_modifiers token) = false ->
       duration (snd (fst out)) = ofZ 1 /\
       tickEnd (snd (fst out))
         = nadd (tickStart (snd (fst out))) (ofZ 1920)) /\
      (inst_style inst = STANDARD ->
       forall step acc,
         match_pitch (pitch_part token) = Some (step, acc, None) ->
         pitches (snd (fst out))
         = [ofZ ((4 + 1) * 12
                 + semitone_of (toLowerCase step)
                     (default EmptyString acc))]).
Proof.
  intros st inst voice tbl token b r Ht Hv Hk.
  set (st1 := set_globalCursors
                (<[inst_id inst := <[voice := fresh_cursor]> tbl]>
                   (globalCursors st)) st).
  assert (L1 : lookup_cursor (inst_id inst) voice st1
               = Done (Some fresh_cursor, st1)).
  { unfold lookup_cursor, st1. cbn [globalCursors set_globalCursors].
    rewrite lookup_insert_eq, lookup_insert_eq. reflexivity. }
  destruct (build_event token inst voice b r fresh_cursor)
    as [[c' e] adv] eqn:B.
  exists st1.
  exists (set_globalCursors
            (<[inst_id inst := <[voice := c']>
                                 (<[voice := fresh_cursor]> tbl)]>
               (globalCursors st1))
            (set_score (set_timeline (timeline (score st1) ++ [e])
                          (score st1)) st1)).
  split; [|split; [exact L1|]].
  - unfold ensure_cursor, bind, lookup_cursor, store_cursor.
    rewrite Ht, Hv, Ht. reflexivity.
  - cbv zeta. split; [|split; [reflexivity|split]].
    + unfold parseEvent. rewrite Hk. unfold bind at 1. rewrite L1, B.
      unfold bind, push_event, modify, store_cursor, ret.
      cbn [globalCursors set_score set_globalCursors st1].
      rewrite lookup_insert_eq. reflexivity.
    + intros Hd Hg.
      pose proof (build_event_fresh_duration token inst voice b r Hd Hg)
        as (D1 & D2 & D3 & _).
      rewrite B in D1, D2, D3. cbn [fst snd] in *.
      rewrite D1, D2, D3. split; reflexivity.
    + intros Hs step acc Hm.
      pose proof (build_event_fresh_octave token inst voice b r step acc
                    Hs Hm) as (P1 & _).
      rewrite B in P1. exact P1.
Qed.



(* ------------------------------------------------------------------ *)
(** ** Instrument attributes *)

Lemma chr_eqb_eq (a b : ascii) : chr_eqb a b = true -> a = b.
Proof. unfold chr_eqb. apply Ascii.eqb_eq. Qed.

Lemma append_assoc (a b c : string) : (a ++ b) ++ c = a ++ (b ++ c).
Proof.
  induction a as [|x a IH]; [reflexivity|].
  rewrite !append_cons. f_equal. exact IH.
Qed.

Lemma rev_str_app (s acc : string) : rev_str s acc = rev_str s "" ++ acc.
Proof.
  revert acc. induction s as [|c s IH]; intros acc; [reflexivity|].
  cbn [rev_str]. rewrite (IH (String c acc)), (IH (String c "")).
  rewrite append_assoc. reflexivity.
Qed.

Lemma includes_has_char (t : string) : includes t "=" = has_char "=" t.
Proof.
  induction t as [|c t IH]; [reflexivity|].
  cbn [includes has_char String.prefix]. rewrite IH. f_equal.
  unfold chr_eqb. destruct (ascii_dec "=" c) as [<-|N].
  - destruct t; reflexivity.
  - symmetry. apply Ascii.eqb_neq. exact N.
Qed.

Lemma has_char_snoc (c : ascii) (acc : string) (d : ascii) :
  has_char c (snoc acc d) = has_char c acc || chr_eqb c d.
Proof.
  unfold snoc. induction acc as [|x acc IH].
  - cbn. apply orb_false_r.
  - rewrite append_cons. cbn [has_char]. rewrite IH. apply orb_assoc.
Qed.

Lemma startsWith_snoc (acc : string) (d : ascii) :
  startsWith acc (String dquote EmptyString) = true ->
  startsWith (snoc acc d) (String dquote EmptyString) = true.
Proof.
  destruct acc as [|x acc]; [discriminate|].
  unfold snoc. rewrite append_cons. unfold startsWith. cbn [String.prefix].
  destruct (ascii_dec dquote x); [|discriminate].
  intros _. destruct (acc ++ String d ""); reflexivity.
Qed.

Lemma keyless_single (c : ascii) : keyless (String c EmptyString) = true.
Proof.
  unfold keyless. cbn [has_char]. destruct (chr_eqb "=" c) eqn:E.
  - apply chr_eqb_eq in E as <-. reflexivity.
  - reflexivity.
Qed.

Lemma keyless_no_eq (t : string) : has_char "=" t = false -> keyless t = true.
Proof. intros H. unfold keyless. rewrite H. reflexivity. Qed.

Lemma keyless_quote (t : string) :
  startsWith t (String dquote EmptyString) = true -> keyless t = true.
Proof. intros H. unfold keyless. rewrite H. apply orb_true_r. Qed.

Lemma not_generic_eq (c : ascii) : is_generic c = true -> chr_eqb "=" c = false.
Proof.
  intros G. destruct (chr_eqb "=" c) eqn:E; [|reflexivity].
  apply chr_eqb_eq in E as <-. discriminate G.
Qed.

Lemma not_ident_eq (c : ascii) :
  is_ident_char c = true -> chr_eqb "=" c = false.
Proof.
  intros G. destruct (chr_eqb "=" c) eqn:E; [|reflexivity].
  apply chr_eqb_eq in E as <-. discriminate G.
Qed.

Lemma lex_start_keyless (c : ascii) (r : string) :
  Forall (fun t => keyless t = true) (fst (lex_start c r)) /\
  lex_ok (snd (lex_start c r)).
Proof.
  unfold lex_start.
  destruct (is_punct c).
  { split; [|exact Logic.I]. constructor; [apply keyless_single|constructor]. }
  destruct (chr_eqb c dquote) eqn:Q.
  { apply chr_eqb_eq in Q as ->.
    destruct (has_char dquote r); split;
      first [constructor | exact Logic.I | reflexivity]. }
  destruct (chr_eqb c "$") eqn:D.
  { apply chr_eqb_eq in D as ->.
    destruct r as [|d r]; [split; [constructor|exact Logic.I]|].
    destruct (is_ident_start d); split;
      first [constructor | exact Logic.I | reflexivity]. }
  destruct (is_generic c) eqn:G.
  { split; [constructor|]. cbn [snd lex_ok has_char].
    rewrite (not_generic_eq c G). reflexivity. }
  split; [constructor|exact Logic.I].
Qed.

Lemma lex_step_keyless (mode : lex_mode) (c : ascii) (r : string) :
  lex_ok mode ->
  Forall (fun t => keyless t = true) (fst (lex_step mode c r)) /\
  lex_ok (snd (lex_step mode c r)).
Proof.
  destruct mode as [|acc|acc|acc]; cbn [lex_step lex_ok]; intros H.
  - apply lex_start_keyless.
  - destruct (chr_eqb c dquote); cbn [fst snd lex_ok].
    + split; [|exact Logic.I].
      constructor; [|constructor].
      apply keyless_quote, startsWith_snoc, H.
    + split; [constructor|]. apply startsWith_snoc, H.
  - destruct (is_ident_char c) eqn:G; cbn [fst snd lex_ok].
    + split; [constructor|].
      rewrite has_char_snoc, H, (not_ident_eq c G). reflexivity.
    + destruct (lex_start_keyless c r) as [F O].
      split; [|exact O]. constructor; [apply keyless_no_eq, H|exact F].
  - destruct (is_generic c) eqn:G; cbn [fst snd lex_ok].
    + split; [constructor|].
      rewrite has_char_snoc, H, (not_generic_eq c G). reflexivity.
    + destruct (lex_start_keyless c r) as [F O].
      split; [|exact O]. constructor; [apply keyless_no_eq, H|exact F].
Qed.

(** Every token of the lexer is keyless: [=] is a token of its own, and
    only a quoted token can hold one inside. *)
Lemma lex_keyless (s : string) (mode : lex_mode) :
  lex_ok mode -> Forall (fun t => keyless t = true) (lex s mode).
Proof.
  revert mode. induction s as [|c r IH]; intros mode H.
  - destruct mode; cbn [lex lex_ok] in *;
      repeat constructor; apply keyless_no_eq, H.
  - cbn [lex]. destruct (lex_step_keyless mode c r H) as [F O].
    apply Forall_app. split; [exact F|apply IH, O].
Qed.

Lemma split_quote (c : ascii) (s cur : string) :
  (exists y, rev_str cur "" = String dquote y) ->
  exists y l, split_aux c s cur = String dquote y :: l.
Proof.
  revert cur. induction s as [|d s IH]; intros cur [y Hy]; cbn [split_aux].
  - rewrite Hy. eauto.
  - destruct (chr_eqb c d); [rewrite Hy; eauto|].
    apply IH. cbn [rev_str]. rewrite rev_str_app, Hy, append_cons. eauto.
Qed.

Lemma apply_attr_quote (y v : string) (inst : InstrumentDef) :
  apply_attr (toLowerCase (String dquote y)) v inst = inst.
Proof. reflexivity. Qed.

(** In a keyless token [parseDef] finds no attribute it knows. *)
Lemma keyless_attr (t v : string) (inst : InstrumentDef) :
  keyless t = true -> includes t "=" = true ->
  apply_attr (toLowerCase (nth_str 0 (split "=" t))) v inst = inst.
Proof.
  unfold keyless. rewrite includes_has_char. intros K H. rewrite H in K.
  cbn [negb orb] in K. apply orb_true_iff in K as [K|K].
  - apply String.eqb_eq in K as ->. reflexivity.
  - destruct t as [|x t]; [discriminate|].
    unfold startsWith in K. cbn [String.prefix] in K.
    destruct (ascii_dec dquote x) as [<-|]; [|discriminate].
    unfold split. change (split_aux "=" (String dquote t) "")
      with (split_aux "=" t (String dquote "")).
    destruct (split_quote "=" t (String dquote "")) as (y & l & ->);
      [exists EmptyString; reflexivity|].
    apply apply_attr_quote.
Qed.

Lemma triple_bind {A B} (P : Parser -> Prop) (m : M A)
    (Q : A -> Parser -> Prop) (k : A -> M B) (R : B -> Parser -> Prop) :
  triple P m Q -> (forall a, triple (Q a) (k a) R) -> triple P (bind m k) R.
Proof.
  intros Hm Hk st b st' H E. unfold bind in E.
  destruct (m st) as [[a st1]| |] eqn:E1; try discriminate.
  exact (Hk a st1 b st' (Hm st a st1 H E1) E).
Qed.

Lemma triple_ret {A} (P : Parser -> Prop) (a : A) (Q : A -> Parser -> Prop) :
  (forall st, P st -> Q a st) -> triple P (ret a) Q.
Proof. intros H st a' st' HP E. injection E as <- <-. exact (H st HP). Qed.

Lemma triple_iterate {S R} (Inv : S -> Parser -> Prop)
    (Q : R -> Parser -> Prop) (step : S -> M (S + R)) :
  (forall s,
     triple (Inv s) (step s)
       (fun r st => match r with inl s' => Inv s' st | inr x => Q x st end)) ->
  forall n s, triple (Inv s) (iterate n step s) Q.
Proof.
  intros Hs n. induction n as [|n IH]; intros s.
  - intros st a st' _ E. discriminate E.
  - cbn [iterate]. eapply triple_bind; [apply Hs|].
    intros [s'|r]; [apply IH|]. apply triple_ret. intros st H. exact H.
Qed.

Lemma triple_keeps {A} (I : Parser -> Prop) (J : Prop) (m : M A) :
  preserves I m -> triple (fun st => J /\ I st) m (fun _ st => J /\ I st).
Proof.
  intros H st a st' [HJ HI] E. split; [exact HJ|exact (H st a st' HI E)].
Qed.

Lemma plain_tokenIndex (i : nat) (st : Parser) :
  plain_staves st -> plain_staves (set_tokenIndex i st).
Proof. intros H. exact H. Qed.

Lemma consume_keyless (J : Prop) :
  triple (fun st => J /\ plain_staves st) consume
    (fun t st => keyless t = true /\ J /\ plain_staves st).
Proof.
  intros st a st' [HJ H] E. injection E as <- <-.
  split; [|split; [exact HJ|exact H]]. destruct H as [T _].
  destruct (nth_in_or_default (tokenIndex st) (tokens st) EmptyString)
    as [Hin| ->]; [|reflexivity].
  exact (proj1 (Stdlib.Lists.List.Forall_forall _ _) T _ Hin).
Qed.

(** [parseDef] adds a plain instrument: the loop over the attributes
    never meets a token with a name before [=]. *)
Lemma parseDef_plain (fuel : nat) : preserves plain_staves (parseDef fuel).
Proof.
  assert (K : forall A (m : M A),
             preserves plain_staves m ->
             triple plain_staves m (fun _ => plain_staves)).
  { intros A m H. exact H. }
  change (triple plain_staves (parseDef fuel) (fun _ => plain_staves)).
  unfold parseDef.
  eapply triple_bind;
    [apply K, (consume_keeps _ plain_tokenIndex)|intros ?].
  eapply triple_bind;
    [apply K, (consume_keeps _ plain_tokenIndex)|intros id].
  eapply triple_bind; [apply K, (preserves_read plain_staves)|intros p].
  eapply triple_bind with (Q := fun _ => plain_staves).
  { apply K. destruct (startsWith p _); [|apply preserves_ret].
    apply preserves_bind; [apply (consume_keeps _ plain_tokenIndex)|].
    intros t. apply preserves_ret. }
  intros label.
  eapply triple_bind; [apply K, (preserves_read plain_staves)|intros st0].
  eapply triple_bind with
    (Q := fun inst st => plain_instrument inst /\ plain_staves st).
  - intros st1 r st1' H E.
    refine (triple_iterate
              (fun inst st => plain_instrument inst /\ plain_staves st)
              (fun inst st => plain_instrument inst /\ plain_staves st)
              _ _ fuel _ st1 r st1' _ E).
    + intros inst.
      eapply triple_bind;
        [apply triple_keeps, (preserves_read plain_staves)|intros next].
      destruct (_ || _); [apply triple_ret; intros ? HH; exact HH|].
      eapply triple_bind; [apply consume_keyless|intros attr].
      destruct (includes attr "=") eqn:Inc; cbn [negb];
        apply triple_ret; intros st2 (Hk & Hi & Hs).
      * rewrite (keyless_attr attr _ inst Hk Inc). split; assumption.
      * split; assumption.
    + split; [reflexivity|exact H].
  - intros inst st u st' [Hi [Ht Hl]] E. injection E as E1 E2. subst st'.
    split; [exact Ht|]. cbn.
    apply Forall_app. split; [exact Hl|].
    constructor; [exact Hi|constructor].
Qed.

Lemma instruments_finalize (s : CompiledScore) :
  instruments (finalize s) = instruments s.
Proof.
  unfold finalize. destruct (last (sort_events (timeline s))); reflexivity.
Qed.

(** No attribute of a [def] line ever reaches its instrument: in every
    compiled score every instrument has the standard staff style and no
    clef, transposition, tuning, map, patch, volume or pan.  With it the
    tablature and grid dialects of [resolvePitch] are out of reach of
    [parse]. *)
Theorem instruments_are_plain (fuel : nat) (source : string)
    (sc : CompiledScore) :
  parse fuel source = Done sc -> Forall plain_instrument (instruments sc).
Proof.
  unfold parse. intros E.
  destruct (compile fuel source) as [[u st]| |] eqn:C; try discriminate.
  injection E as <-. rewrite instruments_finalize.
  refine (proj2 (inv_compile plain_staves _ _ _ _ _ _ _ fuel source u st _ C));
    try (intros ? ? H; exact H).
  - exact parseDef_plain.
  - intros token inst voice b r c st' H. exact H.
  - split; [|constructor]. apply lex_keyless. exact Logic.I.
Qed.

(** The attributes of a [def] line as the sample score has it are lost,
    and the kick of the drum map is resolved as a pitch of the standard
    staff. *)
Example ex_def_attributes :
  exists sc,
    parse 20 "def drm style=grid map=gm_kit measure 1 { drm: k }" = Done sc /\
    instruments sc
    = [mkInst "drm" "drm" None STANDARD None None None None None None None] /\
    map pitches (timeline sc) = [[ofZ 60]].
Proof. eexists. split; [vm_compute; reflexivity|]. split; reflexivity. Qed.

(* ------------------------------------------------------------------ *)
(** ** The tokens of the lexer *)

Lemma all_chars_snoc (p : ascii -> bool) (s : string) (c : ascii) :
  all_chars p (snoc s c) = all_chars p s && p c.
Proof.
  unfold snoc. induction s as [|x s IH].
  - rewrite append_nil. cbn. destruct (p c); reflexivity.
  - rewrite append_cons. cbn [all_chars]. rewrite IH. apply andb_assoc.
Qed.

Lemma quoted_tail_snoc (v : string) :
  has_char dquote v = false -> quoted_tail (snoc v dquote) = true.
Proof.
  unfold snoc. induction v as [|x v IH]; intros H.
  - reflexivity.
  - cbn [has_char] in H. apply orb_false_iff in H as [Hx Hv].
    rewrite append_cons. cbn [quoted_tail].
    unfold chr_eqb in *. rewrite Ascii.eqb_sym, Hx. exact (IH Hv).
Qed.

Lemma ident_start_char (c : ascii) :
  is_ident_start c = true -> is_ident_char c = true.
Proof.
  unfold is_ident_start, is_ident_char, is_word_re. intros H.
  apply orb_true_iff in H as [H|H]; rewrite H; cbn;
    rewrite ?orb_true_r; reflexivity.
Qed.

Lemma lexeme_dollar (r : string) :
  is_lexeme (String "$" r)
  = match r with
    | String d r' => is_ident_start d && all_chars is_ident_char r'
    | EmptyString => false
    end.
Proof.
  cbn [is_lexeme]. change (is_punct "$") with false.
  change (chr_eqb "$" dquote) with false.
  change (chr_eqb "$" "$") with true.
  change (is_generic "$") with false. cbn [andb orb]. apply orb_false_r.
Qed.

Lemma lexeme_macro_snoc (acc : string) (c : ascii) :
  is_lexeme acc = true -> startsWith acc "$" = true ->
  is_ident_char c = true ->
  is_lexeme (snoc acc c) = true /\ startsWith (snoc acc c) "$" = true.
Proof.
  destruct acc as [|x acc]; [discriminate|].
  unfold startsWith. cbn [String.prefix].
  destruct (ascii_dec "$" x) as [<-|]; [|discriminate].
  intros L _ C. unfold snoc. rewrite append_cons.
  split; [|cbn; destruct (acc ++ _); reflexivity].
  rewrite lexeme_dollar in L |- *.
  destruct acc as [|d acc]; [discriminate|].
  rewrite append_cons.
  apply andb_true_iff in L as [D A]. rewrite D. cbn [andb].
  change (acc ++ String c "") with (snoc acc c).
  rewrite all_chars_snoc, A, C. reflexivity.
Qed.

Lemma generic_first (c : ascii) :
  is_generic c = true ->
  is_punct c = false /\ chr_eqb c dquote = false /\ chr_eqb c "$" = false.
Proof.
  intros G. repeat split.
  - destruct (is_punct c) eqn:P; [|reflexivity].
    destruct c as [[] [] [] [] [] [] [] []]; try discriminate P;
      discriminate G.
  - destruct (chr_eqb c dquote) eqn:E; [|reflexivity].
    apply chr_eqb_eq in E as ->. discriminate G.
  - destruct (chr_eqb c "$") eqn:E; [|reflexivity].
    apply chr_eqb_eq in E as ->. discriminate G.
Qed.

Lemma lexeme_word (c : ascii) (r : string) :
  is_generic c = true -> all_chars is_generic r = true ->
  is_lexeme (String c r) = true.
Proof.
  intros G A. cbn [is_lexeme]. rewrite G, A. cbn. apply orb_true_r.
Qed.

Lemma lexeme_word_snoc (acc : string) (c : ascii) :
  is_lexeme acc = true -> all_chars is_generic acc = true ->
  is_generic c = true ->
  is_lexeme (snoc acc c) = true /\ all_chars is_generic (snoc acc c) = true.
Proof.
  intros L A G.
  assert (A' : all_chars is_generic (snoc acc c) = true).
  { rewrite all_chars_snoc, A, G. reflexivity. }
  split; [|exact A'].
  destruct acc as [|x acc]; [discriminate|].
  unfold snoc in *. rewrite append_cons in *. cbn [all_chars] in A'.
  apply andb_true_iff in A' as [Gx A']. apply lexeme_word; assumption.
Qed.

Lemma lex_start_lexemes (c : ascii) (r : string) :
  Forall (fun t => is_lexeme t = true) (fst (lex_start c r)) /\
  lex_inv (snd (lex_start c r)) r.
Proof.
  unfold lex_start.
  destruct (is_punct c) eqn:P.
  { split; [|exact Logic.I]. constructor; [|constructor].
    cbn [is_lexeme]. rewrite P. reflexivity. }
  destruct (chr_eqb c dquote) eqn:Q.
  { apply chr_eqb_eq in Q as ->.
    destruct (has_char dquote r); (split; [constructor|]);
      [|exact Logic.I].
    exists EmptyString. split; reflexivity. }
  destruct (chr_eqb c "$") eqn:D.
  { apply chr_eqb_eq in D as ->.
    destruct r as [|d r]; [split; [constructor|exact Logic.I]|].
    destruct (is_ident_start d) eqn:S; (split; [constructor|]);
      [|exact Logic.I].
    left. split; [reflexivity|]. exists d, r. split; [reflexivity|exact S]. }
  destruct (is_generic c) eqn:G.
  { split; [constructor|]. cbn [snd lex_inv].
    split; [apply lexeme_word; [exact G|reflexivity]|].
    cbn. rewrite G. reflexivity. }
  split; [constructor|exact Logic.I].
Qed.

Lemma lex_step_lexemes (mode : lex_mode) (c : ascii) (r : string) :
  lex_inv mode (String c r) ->
  Forall (fun t => is_lexeme t = true) (fst (lex_step mode c r)) /\
  lex_inv (snd (lex_step mode c r)) r.
Proof.
  destruct mode as [|acc|acc|acc]; cbn [lex_step lex_inv]; intros H.
  - apply lex_start_lexemes.
  - destruct H as (v & -> & Hv).
    destruct (chr_eqb c dquote) eqn:Q; cbn [fst snd lex_inv].
    + apply chr_eqb_eq in Q as ->. split; [|exact Logic.I].
      constructor; [|constructor].
      unfold snoc. rewrite append_cons. cbn [is_lexeme].
      change (chr_eqb dquote dquote) with true.
      change (is_punct dquote) with false. cbn [andb orb].
      pose proof (quoted_tail_snoc v Hv) as T. unfold snoc in T.
      rewrite T. reflexivity.
    + split; [constructor|]. exists (snoc v c).
      split; [reflexivity|].
      rewrite has_char_snoc, Hv. unfold chr_eqb in *.
      rewrite Ascii.eqb_sym. exact Q.
  - destruct H as [[-> (d & r' & E & S)]|[L P]].
    + injection E as <- <-. rewrite (ident_start_char c S).
      cbn [fst snd lex_inv]. split; [constructor|]. right.
      split; [|reflexivity]. unfold snoc. rewrite append_cons, append_nil.
      rewrite lexeme_dollar, S. reflexivity.
    + destruct (is_ident_char c) eqn:G; cbn [fst snd lex_inv].
      * split; [constructor|]. right. apply lexeme_macro_snoc; assumption.
      * destruct (lex_start_lexemes c r) as [F O].
        split; [|exact O]. constructor; [exact L|exact F].
  - destruct H as [L A].
    destruct (is_generic c) eqn:G; cbn [fst snd lex_inv].
    + split; [constructor|]. apply lexeme_word_snoc; assumption.
    + destruct (lex_start_lexemes c r) as [F O].
      split; [|exact O]. constructor; [exact L|exact F].
Qed.

Lemma lex_lexemes (s : string) (mode : lex_mode) :
  lex_inv mode s -> Forall (fun t => is_lexeme t = true) (lex s mode).
Proof.
  revert mode. induction s as [|c r IH]; intros mode H.
  - destruct mode as [|acc|acc|acc]; cbn [lex lex_inv] in *;
      try constructor; try constructor.
    + destruct H as [[_ (d & r & E & _)]|[L _]]; [discriminate E|exact L].
    + exact (proj1 H).
  - cbn [lex]. destruct (lex_step_lexemes mode c r H) as [F O].
    apply Forall_app. split; [exact F|apply IH, O].
Qed.

(** Every token is a lexeme: a whole match of one of the four
    alternatives of [REGEX_TOKEN].  In particular no token is empty, so
    [peek] answers the empty string at the end of the tokens only. *)
Theorem tokens_are_lexemes (text : string) :
  Forall (fun t => is_lexeme t = true) (tokenize text).
Proof. apply lex_lexemes. exact Logic.I. Qed.

Lemma lex_word_run (w acc : string) (c : ascii) (rest : string) :
  all_chars is_generic w = true -> is_generic c = false ->
  lex (w ++ String c rest) (LWord acc)
  = ((acc ++ w)%string :: fst (lex_start c rest)
     ++ lex rest (snd (lex_start c rest)))%list.
Proof.
  revert acc. induction w as [|x w IH]; intros acc A G.
  - rewrite append_nil. cbn [lex lex_step]. rewrite G. cbn [fst snd app].
    f_equal. induction acc as [|y acc IHa]; [reflexivity|].
    rewrite append_cons. f_equal. exact IHa.
  - cbn [all_chars] in A. apply andb_true_iff in A as [Gx A].
    rewrite append_cons. cbn [lex lex_step]. rewrite Gx. cbn [fst snd app].
    rewrite (IH _ A G), append_snoc. reflexivity.
Qed.

Lemma lex_word_end (w acc : string) :
  all_chars is_generic w = true -> lex w (LWord acc) = [acc ++ w].
Proof.
  revert acc. induction w as [|x w IH]; intros acc A.
  - cbn [lex]. f_equal. induction acc as [|y acc IHa]; [reflexivity|].
    rewrite append_cons. f_equal. exact IHa.
  - cbn [all_chars] in A. apply andb_true_iff in A as [Gx A].
    cbn [lex lex_step]. rewrite Gx. cbn [fst snd app].
    rewrite (IH _ A), append_snoc. reflexivity.
Qed.

Lemma lex_macro_run (w acc : string) (c : ascii) (rest : string) :
  all_chars is_ident_char w = true -> is_ident_char c = false ->
  lex (w ++ String c rest) (LMacro acc)
  = ((acc ++ w)%string :: fst (lex_start c rest)
     ++ lex rest (snd (lex_start c rest)))%list.
Proof.
  revert acc. induction w as [|x w IH]; intros acc A G.
  - rewrite append_nil. cbn [lex lex_step]. rewrite G. cbn [fst snd app].
    f_equal. induction acc as [|y acc IHa]; [reflexivity|].
    rewrite append_cons. f_equal. exact IHa.
  - cbn [all_chars] in A. apply andb_true_iff in A as [Gx A].
    rewrite append_cons. cbn [lex lex_step]. rewrite Gx. cbn [fst snd app].
    rewrite (IH _ A G), append_snoc. reflexivity.
Qed.

Lemma lex_macro_end (w acc : string) :
  all_chars is_ident_char w = true -> lex w (LMacro acc) = [acc ++ w].
Proof.
  revert acc. induction w as [|x w IH]; intros acc A.
  - cbn [lex]. f_equal. induction acc as [|y acc IHa]; [reflexivity|].
    rewrite append_cons. f_equal. exact IHa.
  - cbn [all_chars] in A. apply andb_true_iff in A as [Gx A].
    cbn [lex lex_step]. rewrite Gx. cbn [fst snd app].
    rewrite (IH _ A), append_snoc. reflexivity.
Qed.

Lemma quoted_tail_split (r : string) :
  quoted_tail r = true ->
  exists v, r = v ++ String dquote "" /\ has_char dquote v = false.
Proof.
  induction r as [|c r IH]; [discriminate|]. cbn [quoted_tail].
  destruct (chr_eqb c dquote) eqn:Q.
  - intros E. apply String.eqb_eq in E as ->. apply chr_eqb_eq in Q as ->.
    exists EmptyString. split; reflexivity.
  - intros T. destruct (IH T) as (v & -> & Hv). exists (String c v).
    split; [reflexivity|]. cbn [has_char]. rewrite Hv.
    unfold chr_eqb in *. rewrite Ascii.eqb_sym, Q. reflexivity.
Qed.

Lemma lex_cons (c : ascii) (r : string) (mode : lex_mode) :
  lex (String c r) mode
  = (fst (lex_step mode c r) ++ lex r (snd (lex_step mode c r)))%list.
Proof. reflexivity. Qed.

(** A lexeme in front of a space, or at the end of the text, is lexed
    as itself. *)
Lemma lex_lexeme (t : string) :
  is_lexeme t = true ->
  lex t LIdle = [t] /\
  forall rest, lex (t ++ String " " rest) LIdle = t :: lex rest LIdle.
Proof.
  destruct t as [|c r]; [discriminate|]. cbn [is_lexeme]. intros L.
  destruct (is_punct c) eqn:P.
  { assert (r = EmptyString) as ->.
    { destruct r; [reflexivity|].
      destruct (chr_eqb c dquote) eqn:Q;
        [apply chr_eqb_eq in Q as ->; discriminate P|].
      destruct (chr_eqb c "$") eqn:D;
        [apply chr_eqb_eq in D as ->; discriminate P|].
      destruct (is_generic c) eqn:G;
        [destruct (generic_first c G) as [P' _]; congruence|].
      discriminate L. }
    split; [|intros rest; rewrite append_cons, append_nil];
      cbn [lex lex_step]; unfold lex_start; rewrite P; reflexivity. }
  cbn [andb orb] in L.
  destruct (chr_eqb c dquote) eqn:Q.
  { apply chr_eqb_eq in Q as ->. cbn [andb orb] in L.
    assert (T : quoted_tail r = true).
    { destruct (quoted_tail r); [reflexivity|exact L]. }
    destruct (quoted_tail_split r T) as (v & -> & Hv).
    split.
    - cbn [lex lex_step]. unfold lex_start.
      change (is_punct dquote) with false.
      change (chr_eqb dquote dquote) with true. cbv iota.
      rewrite has_char_quote. cbn [fst snd app].
      rewrite (lex_quote v _ EmptyString Hv). reflexivity.
    - intros rest. rewrite append_cons, append_assoc, append_cons, append_nil.
      cbn [lex lex_step]. unfold lex_start.
      change (is_punct dquote) with false.
      change (chr_eqb dquote dquote) with true. cbv iota.
      rewrite has_char_quote. cbn [fst snd app].
      rewrite (lex_quote v _ _ Hv). cbn [lex lex_step]. reflexivity. }
  cbn [andb orb] in L.
  destruct (chr_eqb c "$") eqn:D.
  { apply chr_eqb_eq in D as ->. cbn [andb] in L.
    destruct r as [|d r]; [discriminate L|].
    change (is_generic "$") with false in L. cbn [andb] in L.
    rewrite orb_false_r in L. apply andb_true_iff in L as [S A].
    assert (A' : all_chars is_ident_char (String d r) = true).
    { cbn [all_chars]. rewrite (ident_start_char d S), A. reflexivity. }
    split.
    - rewrite lex_cons. cbn [lex_step]. unfold lex_start.
      change (is_punct "$") with false.
      change (chr_eqb "$" dquote) with false.
      change (chr_eqb "$" "$") with true. cbv iota. rewrite S.
      cbn [fst snd app]. rewrite (lex_macro_end _ _ A'). reflexivity.
    - intros rest. rewrite append_cons, lex_cons. cbn [lex_step].
      unfold lex_start. rewrite append_cons.
      change (is_punct "$") with false.
      change (chr_eqb "$" dquote) with false.
      change (chr_eqb "$" "$") with true. cbv iota. rewrite S.
      cbn [fst snd app]. rewrite <- append_cons.
      rewrite (lex_macro_run _ _ " " rest A'); reflexivity. }
  cbn [andb orb] in L. apply andb_true_iff in L as [G A].
  split.
  - rewrite lex_cons. cbn [lex_step]. unfold lex_start. rewrite P, Q, D, G.
    cbn [fst snd app]. rewrite (lex_word_end _ _ A). reflexivity.
  - intros rest. rewrite append_cons, lex_cons. cbn [lex_step].
    unfold lex_start. rewrite P, Q, D, G.
    cbn [fst snd app].
    rewrite (lex_word_run _ _ " " rest A); reflexivity.
Qed.

(** The text [join " " ts] of lexemes lexes back to [ts]: what
    [parseMacroDef] stores as the body of a macro is read back by
    [handleMacro] token for token. *)
Theorem tokenize_join (ts : list string) :
  Forall (fun t => is_lexeme t = true) ts -> tokenize (join " " ts) = ts.
Proof.
  unfold tokenize. induction ts as [|t ts IH]; intros H; [reflexivity|].
  apply Forall_cons_iff in H as [Ht Hts].
  destruct (lex_lexeme t Ht) as [E1 E2].
  destruct ts as [|t' ts]; [exact E1|].
  change (join " " (t :: t' :: ts)) with (t ++ " " ++ join " " (t' :: ts)).
  rewrite append_cons, append_nil, E2, (IH Hts). reflexivity.
Qed.

Lemma tokenize_join_witness :
  Forall (fun t => is_lexeme t = true) ["h"; "$x"; quoted "a b"; "{"] /\
  tokenize (join " " ["h"; "$x"; quoted "a b"; "{"])
  = ["h"; "$x"; quoted "a b"; "{"].
Proof.
  assert (H : Forall (fun t => is_lexeme t = true)
                ["h"; "$x"; quoted "a b"; "{"]).
  { repeat constructor. }
  split; [exact H|]. exact (tokenize_join _ H).
Defined.

(* ------------------------------------------------------------------ *)
(** ** Comments *)

Lemma prefix_marker (c : ascii) (s : string) :
  String.prefix "%%" (String c s) = chr_eqb c "%" && startsWith s "%".
Proof.
  unfold startsWith, chr_eqb. cbn [String.prefix].
  destruct (ascii_dec "%" c) as [<-|N].
  - reflexivity.
  - symmetry. apply andb_false_intro1. apply Ascii.eqb_neq. congruence.
Qed.

Lemma strip_in_comment_head (s : string) :
  startsWith (strip_comments s true) "%" = false.
Proof.
  induction s as [|c s IH]; [reflexivity|]. cbn [strip_comments].
  destruct (is_line_term c) eqn:T; [|exact IH].
  unfold startsWith. cbn [String.prefix].
  destruct (ascii_dec "%" c) as [<-|]; [discriminate T|reflexivity].
Qed.

Lemma strip_head (s : string) :
  startsWith s "%" = false ->
  startsWith (strip_comments s false) "%" = false.
Proof.
  destruct s as [|c s]; [reflexivity|]. unfold startsWith.
  cbn [String.prefix strip_comments].
  destruct (ascii_dec "%" c) as [<-|N]; [destruct s; discriminate|].
  intros _. replace (chr_eqb c "%") with false.
  - cbn [andb String.prefix]. destruct (ascii_dec "%" c); [contradiction|].
    reflexivity.
  - symmetry. apply Ascii.eqb_neq. congruence.
Qed.

Lemma strip_comments_no_marker (s : string) (in_comment : bool) :
  includes (strip_comments s in_comment) "%%" = false.
Proof.
  revert in_comment. induction s as [|c s IH]; intros b; [destruct b; reflexivity|].
  cbn [strip_comments]. destruct b.
  - destruct (is_line_term c) eqn:T; [|apply IH].
    cbn [includes]. rewrite IH, prefix_marker.
    replace (chr_eqb c "%") with false; [reflexivity|].
    destruct (chr_eqb c "%") eqn:E; [|reflexivity].
    apply chr_eqb_eq in E as ->. discriminate T.
  - destruct (chr_eqb c "%" && startsWith s "%") eqn:E; [apply IH|].
    cbn [includes]. rewrite IH, prefix_marker, orb_false_r.
    apply andb_false_iff in E as [E|E]; [rewrite E; reflexivity|].
    rewrite (strip_head s E). apply andb_false_r.
Qed.

Lemma strip_comments_unmarked (s : string) :
  includes s "%%" = false -> strip_comments s false = s.
Proof.
  induction s as [|c s IH]; [reflexivity|]. cbn [includes strip_comments].
  rewrite prefix_marker. intros H. apply orb_false_iff in H as [H1 H2].
  rewrite H1, (IH H2). reflexivity.
Qed.

(** Step 1 of [parse] leaves no comment marker, and it leaves a text as
    it is exactly when the text holds no comment marker: the step is
    idempotent. *)
Theorem strip_comments_fixpoint (source : string) :
  includes (strip_comments source false) "%%" = false /\
  (strip_comments source false = source <-> includes source "%%" = false).
Proof.
  split; [apply strip_comments_no_marker|]. split.
  - intros E. rewrite <- E. apply strip_comments_no_marker.
  - apply strip_comments_unmarked.
Qed.

(* ------------------------------------------------------------------ *)
(** ** The events of a compiled score *)

Lemma resolvePitch_event p inst c e :
  exists ps,
    snd (resolvePitch p inst c e)
    = mkEvent (kind e) (pitches e ++ ps) (duration e) (tickStart e)
        (tickEnd e) (velocity e) (instrumentId e) (voiceId e) (modifiers e).
Proof.
  assert (N : e = mkEvent (kind e) (pitches e ++ []) (duration e)
                    (tickStart e) (tickEnd e) (velocity e) (instrumentId e)
                    (voiceId e) (modifiers e)).
  { rewrite app_nil_r. destruct e; reflexivity. }
  unfold resolvePitch.
  repeat match goal with
  | |- context [if ?b then _ else _] => destruct b
  | |- context [match ?x with _ => _ end] => destruct x
  end; cbn [snd push_pitch];
    first [ exists []; exact N | eexists; reflexivity ].
Qed.

Lemma resolve_pitches_event p inst c e :
  exists k ps,
    snd (resolve_pitches p inst c e)
    = mkEvent k (pitches e ++ ps) (duration e) (tickStart e)
        (tickEnd e) (velocity e) (instrumentId e) (voiceId e) (modifiers e).
Proof.
  assert (N : forall k, set_kind k e
                = mkEvent k (pitches e ++ []) (duration e)
                    (tickStart e) (tickEnd e) (velocity e) (instrumentId e)
                    (voiceId e) (modifiers e)).
  { intros k. rewrite app_nil_r. reflexivity. }
  unfold resolve_pitches.
  destruct (str_eqb p "r"); [exists rest, []; apply N|].
  destruct (str_eqb p "s"); [exists rest, []; apply N|].
  destruct (startsWith p "[").
  - generalize (split_ws
      (drop_all (fun c0 => chr_eqb c0 "[" || chr_eqb c0 "]") p)).
    intros l. exists chord.
    assert (G : forall (ce : VoiceCursor * NoteEvent),
               exists ps,
                 snd (fold_left
                        (fun ce p0 => resolvePitch p0 inst (fst ce) (snd ce))
                        l ce)
                 = mkEvent (kind (snd ce)) (pitches (snd ce) ++ ps)
                     (duration (snd ce)) (tickStart (snd ce))
                     (tickEnd (snd ce)) (velocity (snd ce))
                     (instrumentId (snd ce)) (voiceId (snd ce))
                     (modifiers (snd ce))).
    { induction l as [|x l IH]; intros ce; cbn [fold_left].
      - exists []. rewrite app_nil_r. destruct (snd ce); reflexivity.
      - destruct (IH (resolvePitch x inst (fst ce) (snd ce))) as [ps ->].
        destruct (resolvePitch_event x inst (fst ce) (snd ce)) as [qs ->].
        cbn. exists (qs ++ ps)%list. rewrite app_assoc. reflexivity. }
    destruct (G (c, set_kind chord e)) as [ps ->]. exists ps. reflexivity.
  - destruct (resolvePitch_event p inst c e) as [ps ->]. eauto.
Qed.

(** The fields of the event that [parseEvent] builds from a token. *)
Lemma build_event_fields token inst voice b r c :
  let e := snd (fst (build_event token inst voice b r c)) in
  instrumentId e = inst_id inst /\ voiceId e = voice /\
  modifiers e = token_modifiers token /\ tickStart e = nadd b r /\
  (if existsb is_grace (token_modifiers token)
   then duration e = Zero false /\ tickEnd e = nadd b r
   else tickEnd e = nadd (nadd b r) (nmul (duration e) TICKS_PER_QUARTER)).
Proof.
  unfold build_event.
  set (c1 := if truthy_str (duration_part token) then _ else c).
  set (e0 := mkEvent note [] _ _ _ _ _ _ _).
  set (e1 := if existsb is_grace (token_modifiers token) then _ else e0).
  destruct (resolve_pitches (pitch_part token) inst c1 e1) as [c2 e2] eqn:R.
  destruct (resolve_pitches_event (pitch_part token) inst c1 e1)
    as (k & ps & E).
  rewrite R in E. cbn [snd] in E. cbn [fst snd].
  assert (V : forall e,
             instrumentId (vol_override (token_modifiers token) e)
             = instrumentId e /\
             voiceId (vol_override (token_modifiers token) e) = voiceId e /\
             modifiers (vol_override (token_modifiers token) e)
             = modifiers e).
  { intros e. unfold vol_override.
    destruct (find is_vol _) as [a|]; [|repeat split].
    destruct (attr_args a) as [|[|] ?]; repeat split. }
  destruct (V e2) as (-> & -> & ->).
  destruct (vol_override_keeps (token_modifiers token) e2)
    as (_ & -> & -> & ->).
  subst e2. cbn [instrumentId voiceId modifiers tickStart tickEnd duration].
  subst e1. destruct (existsb is_grace (token_modifiers token));
    subst e0; cbn; repeat split.
Qed.

(** The span of every event of every compiled score: a grace event has
    duration 0 and ends where it starts; any other event ends
    [duration * 1920] ticks after its start. *)
Theorem event_span (fuel : nat) (source : string) (sc : CompiledScore)
    (e : NoteEvent) :
  parse fuel source = Done sc -> In e (timeline sc) ->
  if existsb is_grace (modifiers e)
  then duration e = Zero false /\ tickEnd e = tickStart e
  else tickEnd e = nadd (tickStart e) (nmul (duration e) TICKS_PER_QUARTER).
Proof.
  intros P Hin.
  refine (proj1 (Stdlib.Lists.List.Forall_forall
                   (fun e =>
                      if existsb is_grace (modifiers e)
                      then duration e = Zero false /\ tickEnd e = tickStart e
                      else tickEnd e
                           = nadd (tickStart e)
                               (nmul (duration e) TICKS_PER_QUARTER)) _)
            (events_invariant _ _ fuel source sc P) e Hin).
  intros token inst voice b r c.
  destruct (build_event_fields token inst voice b r c)
    as (_ & _ & -> & -> & H).
  destruct (existsb is_grace (token_modifiers token)); exact H.
Qed.

Lemma event_span_witness :
  exists sc e,
    parse 20 "def a measure 2 { a: c d.grace }" = Done sc /\
    In e (timeline sc) /\
    if existsb is_grace (modifiers e)
    then duration e = Zero false /\ tickEnd e = tickStart e
    else tickEnd e = nadd (tickStart e) (nmul (duration e) TICKS_PER_QUARTER).
Proof.
  eexists. eexists.
  split; [vm_compute; reflexivity|].
  split; [left; reflexivity|].
  eapply (event_span 20 "def a measure 2 { a: c d.grace }");
    [vm_compute; reflexivity|left; reflexivity].
Defined.

(* ------------------------------------------------------------------ *)
(** ** Macro expansion *)

(** What one call of [parseEvent] does to the parser state. *)
Lemma parseEvent_spec token inst voice b r st a st' :
  parseEvent token inst voice b r st = Done (a, st') ->
  (a = None /\ st' = st) \/
  exists tbl c,
    globalCursors st !! inst_id inst = Some tbl /\ tbl !! voice = Some c /\
    a = snd (build_event token inst voice b r c) /\
    st' = set_globalCursors
            (<[inst_id inst :=
                 <[voice := fst (fst (build_event token inst voice b r c))]>
                   tbl]> (globalCursors st))
            (set_score
               (set_timeline
                  (timeline (score st) ++
                   [snd (fst (build_event token inst voice b r c))])
                  (score st)) st).
Proof.
  unfold parseEvent.
  destruct (existsb _ _).
  { intros E. injection E as <- <-. left. split; reflexivity. }
  unfold bind, lookup_cursor.
  destruct (globalCursors st !! inst_id inst) as [tbl|] eqn:G;
    [|discriminate].
  destruct (tbl !! voice) as [c|] eqn:V; [|discriminate].
  destruct (build_event token inst voice b r c) as [[c' e] adv] eqn:B.
  unfold push_event, modify, store_cursor, ret. cbn [globalCursors set_score].
  rewrite G. intros E. injection E as <- <-.
  right. exists tbl, c. rewrite B.
  repeat split; first [assumption|reflexivity].
Qed.

Lemma macro_events_timeline ts inst voice base :
  forall tick st tick' st',
    macro_events ts inst voice base tick st = Done (tick', st') ->
    exists new,
      timeline (score st') = (timeline (score st) ++ new)%list /\
      Forall (fun e => tickStart e = nadd base (Zero false)) new.
Proof.
  induction ts as [|t ts IH]; intros tick st tick' st'; cbn [macro_events].
  - intros E. injection E as _ <-. exists []. rewrite app_nil_r.
    split; [reflexivity|constructor].
  - unfold bind.
    destruct (parseEvent t inst voice base (Zero false) st)
      as [[a st1]| |] eqn:P; try discriminate.
    intros E. destruct (IH _ _ _ _ E) as (new & T & F).
    destruct (parseEvent_spec _ _ _ _ _ _ _ _ P)
      as [[_ ->]|(tbl & c & _ & _ & _ & ->)].
    + exists new. split; assumption.
    + cbn in T. rewrite <- app_assoc in T. eexists. split; [exact T|].
      constructor; [|exact F].
      destruct (build_event_fields t inst voice base (Zero false) c)
        as (_ & _ & _ & S & _). exact S.
Qed.

(** All the events of one macro call start together, at the tick at
    which the measure starts: [handleMacro] hands [parseEvent] the
    relative tick 0 for every token of the body. *)
Theorem macro_call_events_start_together token inst voice base tick st
    tick' st' :
  handleMacro token inst voice base tick st = Done (tick', st') ->
  exists new,
    timeline (score st') = (timeline (score st) ++ new)%list /\
    Forall (fun e => tickStart e = nadd base (Zero false)) new.
Proof.
  unfold handleMacro.
  match goal with
  | |- context [if ?b then ?x else ?y] => destruct (if b then x else y)
      as [name args]
  end.
  unfold bind, get_state.
  destruct (macros st !! name) as [def|].
  - apply macro_events_timeline.
  - intros E. injection E as _ <-. exists []. rewrite app_nil_r.
    split; [reflexivity|constructor].
Qed.

Lemma macro_call_witness :
  exists tick' st',
    handleMacro "$m" inst_a "v1" (ofZ 7680) (ofZ 1920) at_macro_call
    = Done (tick', st') /\
    exists new,
      timeline (score st') = (timeline (score at_macro_call) ++ new)%list /\
      Forall (fun e => tickStart e = nadd (ofZ 7680) (Zero false)) new.
Proof.
  eexists. eexists. split; [vm_compute; reflexivity|].
  eapply (macro_call_events_start_together "$m" inst_a "v1" (ofZ 7680)
           (ofZ 1920) at_macro_call).
  vm_compute. reflexivity.
Defined.

Example ex_macro_call :
  nth (tokenIndex at_macro_call) (tokens at_macro_call) "" = "$m" /\
  match handleMacro "$m" inst_a "v1" (ofZ 7680) (ofZ 1920) at_macro_call with
  | Done (tick, st) =>
      tick = ofZ 5760 /\
      map tickStart (timeline (score st)) = [ofZ 7680; ofZ 7680]
  | _ => False
  end.
Proof. vm_compute. repeat split. Qed.

(* ------------------------------------------------------------------ *)
(** ** Measure blocks *)

Lemma scan_block_position (fuel : nat) (st0 : Parser) :
  preserves (fun st => exists k, st = set_tokenIndex k st0) (scan_block fuel).
Proof.
  unfold scan_block. apply preserves_iterate. intros balance.
  apply preserves_bind; [apply preserves_read|]. intros ib.
  destruct (Z.ltb 0 balance && ib); [|apply preserves_ret].
  apply preserves_bind; [|intros t; apply preserves_ret].
  intros st a st' [k ->] E. injection E as _ <-. eexists. reflexivity.
Qed.

(** A measure block whose range does not hold [start <= end], because a
    number of the range does not parse or because the range is
    reversed, is never replayed: [parseMeasure] moves the position in
    the tokens and changes nothing else. *)
Theorem measure_without_replay (fuel : nat) (st : Parser) (u : unit)
    (st' : Parser) :
  (let range :=
     measure_range (nth (S (tokenIndex st)) (tokens st) EmptyString) in
   nle (fst range) (snd range) = false) ->
  parseMeasure fuel st = Done (u, st') ->
  exists k, st' = set_tokenIndex k st.
Proof.
  cbv zeta. intros Hr. unfold parseMeasure.
  cbv beta iota delta [bind consume match_tok peek ret get_state].
  rewrite !tokenIndex_set, !tokens_set, !set_tokenIndex_twice.
  destruct (measure_range _) as [s e]. cbn [fst snd] in Hr.
  cbv beta iota. rewrite !tokenIndex_set, !tokens_set.
  destruct (str_eqb _ "{"); cbv beta iota; cbn [negb].
  - rewrite !tokenIndex_set, !set_tokenIndex_twice.
    destruct (scan_block fuel _) as [[u1 st1]| |] eqn:E; try discriminate.
    destruct (scan_block_position fuel st _ _ _ (ex_intro _ _ eq_refl) E)
      as [k ->].
    unfold replay_loop. destruct fuel as [|n]; [discriminate|].
    cbn [iterate]. rewrite Hr. unfold bind, ret, modify.
    intros H. injection H as _ <-. eexists. reflexivity.
  - intros H. injection H as _ <-. eexists. reflexivity.
Qed.

Lemma measure_without_replay_witness :
  measure_range "x" = (NaN, NaN) /\
  exists k, set_tokenIndex 9 at_unnumbered_measure
            = set_tokenIndex k at_unnumbered_measure.
Proof.
  split; [reflexivity|].
  apply (measure_without_replay 5 at_unnumbered_measure tt
           (set_tokenIndex 9 at_unnumbered_measure));
    vm_compute; reflexivity.
Defined.

(* ------------------------------------------------------------------ *)
(** ** Meta entries *)

Lemma generic_no_char (c : ascii) (s : string) :
  is_generic c = false -> all_chars is_generic s = true ->
  has_char c s = false.
Proof.
  intros C. induction s as [|x s IH]; [reflexivity|]. cbn [all_chars has_char].
  intros A. apply andb_true_iff in A as [Gx A]. rewrite (IH A), orb_false_r.
  destruct (chr_eqb c x) eqn:E; [|reflexivity].
  apply chr_eqb_eq in E as ->. congruence.
Qed.

Lemma drop_first_absent (c : ascii) (s : string) :
  has_char c s = false -> drop_first c s = s.
Proof.
  induction s as [|x s IH]; [reflexivity|]. cbn [has_char drop_first].
  intros H. apply orb_false_iff in H as [-> H]. rewrite (IH H). reflexivity.
Qed.

Lemma lex_word (w : string) (c : ascii) (rest : string) :
  is_word w = true -> is_generic c = false ->
  lex (w ++ String c rest) LIdle
  = (w :: fst (lex_start c rest) ++ lex rest (snd (lex_start c rest)))%list.
Proof.
  unfold is_word. intros W C. apply andb_true_iff in W as [N A].
  destruct w as [|x w]; [discriminate N|].
  cbn [all_chars] in A. apply andb_true_iff in A as [Gx A].
  rewrite append_cons, lex_cons. cbn [lex_step]. unfold lex_start at 1 2.
  destruct (generic_first x Gx) as (-> & -> & ->). rewrite Gx.
  cbn [fst snd app]. rewrite (lex_word_run w _ c rest A C).
  rewrite append_cons, append_nil. reflexivity.
Qed.

Lemma lexeme_quoted (v : string) :
  has_char dquote v = false -> is_lexeme (quoted v) = true.
Proof.
  intros H. unfold quoted. cbn [is_lexeme].
  change (is_punct dquote) with false.
  change (chr_eqb dquote dquote) with true. cbn [andb orb].
  pose proof (quoted_tail_snoc v H) as T. unfold snoc in T. rewrite T.
  reflexivity.
Qed.

Lemma tokenize_meta_entry (key v : string) :
  is_word key = true -> plain v = true ->
  tokenize (strip_comments (meta_source key v) false)
  = ["meta"; "{"; key; ":"; quoted v; "}"].
Proof.
  unfold plain, meta_source. intros W H.
  assert (A : all_chars is_generic key = true).
  { unfold is_word in W. apply andb_true_iff in W as [_ A]. exact A. }
  apply andb_true_iff in H as [Hq Hp].
  apply negb_true_iff in Hq. apply negb_true_iff in Hp.
  change ("meta { " ++ key ++ ": " ++ quoted v ++ " }")
    with ("meta { " ++ (key ++ (": " ++ (quoted v ++ " }")))).
  rewrite (strip_comments_plain "meta { " _ eq_refl).
  rewrite (strip_comments_plain key _ (generic_no_char "%" key eq_refl A)).
  rewrite (strip_comments_plain ": " _ eq_refl).
  rewrite quoted_app.
  change (String dquote (v ++ String dquote " }"))
    with (String dquote "" ++ (v ++ String dquote " }")).
  rewrite (strip_comments_plain (String dquote "") _ eq_refl).
  rewrite (strip_comments_plain v _ Hp).
  change (strip_comments (String dquote " }") false)
    with (String dquote " }").
  change (String dquote "" ++ v ++ String dquote " }")
    with (String dquote (v ++ String dquote " }")).
  rewrite <- quoted_app.
  unfold tokenize.
  change ("meta { " ++ key ++ ": " ++ quoted v ++ " }")
    with ("meta" ++ String " " ("{" ++ String " "
            (key ++ String ":" (String " " (quoted v ++ String " " "}"))))).
  rewrite (proj2 (lex_lexeme "meta" eq_refl)).
  rewrite (proj2 (lex_lexeme "{" eq_refl)).
  rewrite (lex_word key ":" _ W eq_refl).
  change (lex_start ":" (String " " (quoted v ++ String " " "}")))
    with ([":"], LIdle). cbn [fst snd app].
  rewrite lex_cons.
  change (lex_step LIdle " " (quoted v ++ String " " "}"))
    with (@nil string, LIdle). cbn [fst snd app].
  rewrite (proj2 (lex_lexeme (quoted v) (lexeme_quoted v Hq))).
  reflexivity.
Qed.

Ltac run_entry :=
  lazy -[apply_meta drop_all is_dquote initial_meta append drop_first];
  reflexivity.

Lemma run_meta_entry (key v : string) :
  is_word key = true ->
  parse_root 10 (new_parser ["meta"; "{"; key; ":"; quoted v; "}"])
  = Done (tt,
          mkParser ["meta"; "{"; key; ":"; quoted v; "}"] 6
            (set_meta (apply_meta (toLowerCase key)
                         (drop_all is_dquote (quoted v)) initial_meta)
               initial_score)
            ∅ None ∅).
Proof.
  unfold is_word. intros W. apply andb_true_iff in W as [N A].
  rewrite <- (drop_first_absent ":" key (generic_no_char ":" key eq_refl A))
    at 3.
  destruct key as [|c key]; [discriminate N|].
  cbn [all_chars] in A. apply andb_true_iff in A as [Gc _]. clear N.
  assert (R : forall c', Ascii.eqb c' "}" = false ->
            parse_root 10
              (new_parser ["meta"; "{"; String c' key; ":"; quoted v; "}"])
            = Done (tt,
                 mkParser ["meta"; "{"; String c' key; ":"; quoted v; "}"] 6
                   (set_meta
                      (apply_meta
                         (toLowerCase (drop_first ":" (String c' key)))
                         (drop_all is_dquote (quoted v)) initial_meta)
                      initial_score)
                   ∅ None ∅)).
  { intros [b0 b1 b2 b3 b4 b5 b6 b7] E.
    destruct b0; [|run_entry]. destruct b1; [run_entry|].
    destruct b2; [|run_entry]. destruct b3; [|run_entry].
    destruct b4; [|run_entry]. destruct b5; [|run_entry].
    destruct b6; [|run_entry]. destruct b7; [run_entry|].
    discriminate E. }
  apply R. destruct (Ascii.eqb c "}") eqn:E; [|reflexivity].
  apply Ascii.eqb_eq in E as ->. discriminate Gc.
Qed.

(** A meta block with the one entry [key: "v"], for a word [key] and a
    text [v] without double quote and percent sign, compiles, and the
    meta data are what the chain of [if (lowerKey === ...)] makes of the
    key in lower case and of [v]. *)
Theorem meta_entry (key v : string) (k : nat) :
  is_word key = true -> plain v = true ->
  exists sc,
    parse (10 + k) (meta_source key v) = Done sc /\
    meta sc = apply_meta (toLowerCase key) v initial_meta.
Proof.
  intros W H.
  assert (Hq : has_char dquote v = false).
  { unfold plain in H. apply andb_true_iff in H as [Hq _].
    apply negb_true_iff in Hq. exact Hq. }
  eexists. split.
  - apply parse_enough. unfold parse, compile.
    rewrite (tokenize_meta_entry key v W H), (run_meta_entry key v W).
    reflexivity.
  - rewrite meta_finalize. cbn [score meta set_meta].
    rewrite (drop_all_quoted v Hq). reflexivity.
Qed.

Lemma meta_entry_witness :
  exists sc,
    parse (10 + 0) (meta_source "Tempo" "fast") = Done sc /\
    meta sc = apply_meta (toLowerCase "Tempo") "fast" initial_meta.
Proof. apply (meta_entry "Tempo" "fast" 0); reflexivity. Defined.

(** What the chain makes of the keys: the text fields take the text as
    it is, the tempo is whatever [parseInt] reads, NaN included, and a
    key the chain does not know (the style among them) changes nothing. *)
Lemma apply_meta_cases (v : string) (m : OmniMeta) :
  title (apply_meta "title" v m) = v /\
  composer (apply_meta "composer" v m) = v /\
  meta_key (apply_meta "key" v m) = v /\
  tempo (apply_meta "tempo" v m) = parseInt10 v /\
  tempo (apply_meta "tempo" "fast" m) = NaN /\
  apply_meta "style" v m = m.
Proof. repeat split. Qed.

(* ------------------------------------------------------------------ *)
(** ** Dotted durations *)

Lemma dots_guarded_app (a b : string) (p2 p1 : option ascii) :
  dots_guarded p2 p1 (a ++ b) = true -> dots_guarded p2 p1 a = true.
Proof.
  revert p2 p1. induction a as [|c a IH]; intros p2 p1; [reflexivity|].
  rewrite append_cons. cbn [dots_guarded]. intros H.
  apply andb_true_iff in H as [-> H]. exact (IH _ _ H).
Qed.

(** The core of a token holds guarded dots only. *)
Lemma split_attr_core (s cur : string) (p2 p1 : option ascii) :
  exists pre,
    nth_str 0 (split_attr_aux s cur p2 p1) = rev_str cur "" ++ pre /\
    dots_guarded p2 p1 pre = true.
Proof.
  revert cur p2 p1. induction s as [|c s IH]; intros cur p2 p1;
    cbn [split_attr_aux].
  - exists EmptyString. split; [|reflexivity]. cbn.
    induction (rev_str cur "") as [|x r IHr]; [reflexivity|].
    rewrite append_cons. f_equal. exact IHr.
  - destruct (chr_eqb c "." && negb _) eqn:E.
    + exists EmptyString. split; [|reflexivity]. cbn.
      induction (rev_str cur "") as [|x r IHr]; [reflexivity|].
      rewrite append_cons. f_equal. exact IHr.
    + destruct (IH (String c cur) p1 (Some c)) as (pre & E1 & E2).
      exists (String c pre). split.
      * rewrite E1. cbn [rev_str]. rewrite (rev_str_app cur (String c "")).
        rewrite append_assoc. reflexivity.
      * cbn [dots_guarded]. rewrite E2, andb_true_r.
        destruct (chr_eqb c "."); [|reflexivity]. cbn [andb negb orb] in *.
        apply negb_false_iff in E. exact E.
Qed.

Lemma count_char_app (c : ascii) (a b : string) :
  count_char c (a ++ b) = (count_char c a + count_char c b)%nat.
Proof.
  induction a as [|x a IH]; [reflexivity|].
  rewrite append_cons. cbn [count_char]. rewrite IH. lia.
Qed.

Lemma count_char_rev (c : ascii) (s acc : string) :
  count_char c (rev_str s acc) = (count_char c s + count_char c acc)%nat.
Proof.
  revert acc. induction s as [|x s IH]; intros acc; [reflexivity|].
  cbn [rev_str count_char]. rewrite IH. cbn [count_char]. lia.
Qed.

(** Away from a colon, the piece up to the next colon has no dot. *)
Lemma piece_no_dot (s cur : string) (p2 p1 : option ascii) :
  dots_guarded p2 p1 s = true ->
  p2 <> Some ":"%char -> p1 <> Some ":"%char ->
  count_char "." (nth_str 0 (split_aux ":" s cur)) = count_char "." cur.
Proof.
  revert cur p2 p1. induction s as [|c s IH]; intros cur p2 p1 G N2 N1;
    cbn [split_aux].
  - cbn. rewrite count_char_rev. cbn. lia.
  - cbn [dots_guarded] in G. apply andb_true_iff in G as [Gc G].
    destruct (chr_eqb ":" c) eqn:E.
    + cbn. rewrite count_char_rev. cbn. lia.
    + rewrite (IH _ _ _ G N1).
      * cbn [count_char]. destruct (chr_eqb "." c) eqn:D; [|reflexivity].
        apply chr_eqb_eq in D as <-. exfalso.
        change (chr_eqb "." ".") with true in Gc. cbn [negb orb] in Gc.
        destruct p2 as [a|]; [|discriminate]. destruct p1 as [b|];
          [|discriminate].
        apply andb_true_iff in Gc as [A _]. apply chr_eqb_eq in A as ->.
        apply N2. reflexivity.
      * intros H. injection H as ->. discriminate E.
Qed.

(** Right after a colon, the piece up to the next colon has one dot at
    most. *)
Lemma piece_one_dot (s : string) (p2 : option ascii) :
  dots_guarded p2 (Some ":"%char) s = true ->
  (count_char "." (nth_str 0 (split_aux ":" s "")) <= 1)%nat.
Proof.
  destruct s as [|c s]; [cbn; lia|]. cbn [dots_guarded split_aux].
  intros G. apply andb_true_iff in G as [Gc G].
  destruct (chr_eqb ":" c) eqn:E; [cbn; lia|].
  assert (Nc : chr_eqb "." c = false).
  { unfold chr_eqb in *. rewrite Ascii.eqb_sym.
    destruct (Ascii.eqb c "."); [|reflexivity]. cbn [negb orb] in Gc.
    destruct p2; [|discriminate]. rewrite andb_false_r in Gc.
    discriminate. }
  destruct s as [|d s].
  { cbn [split_aux nth_str nth rev_str count_char]. rewrite Nc. cbn. lia. }
  cbn [dots_guarded split_aux] in G |- *.
  apply andb_true_iff in G as [_ G].
  destruct (chr_eqb ":" d) eqn:E'.
  { cbn [nth_str nth rev_str count_char]. rewrite Nc. cbn. lia. }
  rewrite (piece_no_dot s _ _ _ G).
  - cbn [count_char]. rewrite Nc. destruct (chr_eqb "." d); cbn; lia.
  - intros H. injection H as ->. discriminate E.
  - intros H. injection H as ->. discriminate E'.
Qed.

Lemma split_second_piece (s cur : string) (p2 p1 : option ascii) (d : string) :
  dots_guarded p2 p1 s = true ->
  nth_error (split_aux ":" s cur) 1 = Some d ->
  (count_char "." d <= 1)%nat.
Proof.
  revert cur p2 p1. induction s as [|c s IH]; intros cur p2 p1 G;
    cbn [split_aux]; [discriminate|].
  cbn [dots_guarded] in G. apply andb_true_iff in G as [_ G].
  destruct (chr_eqb ":" c) eqn:E; [|apply (IH _ _ _ G)].
  apply chr_eqb_eq in E as <-. cbn [nth_error]. intros H.
  pose proof (piece_one_dot s p1 G) as P. unfold nth_str in P.
  destruct (split_aux ":" s "") as [|x l]; [discriminate|].
  injection H as <-. exact P.
Qed.

(** The duration text that [parseEvent] reads from a token has one dot
    at most: a second dot would not follow a colon and a digit, and
    there the token is cut.  So [parseDurationVal] never applies its
    factor 1.75 here. *)
Theorem duration_has_one_dot_at_most (token d : string) :
  duration_part token = Some d ->
  (count_char "." d <= 1)%nat /\
  parseDurationVal d
  = let base :=
      ndiv (ofZ 4) (parseInt10 (drop_all (chr_eqb ".") d)) in
    if Nat.eqb (count_char "." d) 1 then nmul base (ofQ (3 # 2)) else base.
Proof.
  unfold duration_part, token_core, split_attr. intros H.
  destruct (split_attr_core token "" None None) as (pre & E & G).
  cbn [rev_str] in E. rewrite append_nil in E. rewrite E in H.
  pose proof (split_second_piece pre "" None None d G H) as C.
  split; [exact C|]. unfold parseDurationVal. cbv zeta.
  replace (Nat.eqb (count_char "." d) 2) with false; [reflexivity|].
  symmetry. apply Nat.eqb_neq. lia.
Qed.

Lemma duration_has_one_dot_at_most_witness :
  duration_part "c:4..stacc" = Some "4." /\
  (count_char "." "4." <= 1)%nat /\
  parseDurationVal "4." = ofQ (3 # 2).
Proof.
  split; [reflexivity|].
  destruct (duration_has_one_dot_at_most "c:4..stacc" "4." eq_refl) as [C E].
  split; [exact C|]. rewrite E. reflexivity.
Defined.

(** A dot after a duration of two digits splits the token. *)
Example ex_dotted_durations :
  split_attr "c:4." = ["c:4."] /\
  split_attr "c:16." = ["c:16"; ""] /\
  split_attr "c:8.." = ["c:8."; ""].
Proof. repeat split. Qed.

(* ------------------------------------------------------------------ *)
(** ** Instrument definitions *)

Lemma apply_attr_id (k v : string) (inst : InstrumentDef) :
  inst_id (apply_attr k v inst) = inst_id inst /\
  inst_group (apply_attr k v inst) = inst_group inst.
Proof.
  unfold apply_attr.
  repeat match goal with
  | |- context [if ?b then _ else _] => destruct b
  end; split; reflexivity.
Qed.

Lemma parseDef_spec (fuel : nat) (st : Parser) (u : unit) (st' : Parser) :
  parseDef fuel st = Done (u, st') ->
  exists inst,
    inst_id inst = nth (S (tokenIndex st)) (tokens st) EmptyString /\
    inst_group inst = currentGroup st /\
    exists k,
      st' = set_globalCursors (<[inst_id inst := ∅]> (globalCursors st))
              (set_score
                 (set_instruments (instruments (score st) ++ [inst])
                    (score st))
                 (set_tokenIndex k st)).
Proof.
  set (id := nth (S (tokenIndex st)) (tokens st) EmptyString).
  set (P := fun s : Parser => exists k, s = set_tokenIndex k st).
  assert (K : forall A (m : M A), preserves P m -> triple P m (fun _ => P)).
  { intros A m H. exact H. }
  assert (PI : forall i s, P s -> P (set_tokenIndex i s)).
  { intros i s [k ->]. exists i. reflexivity. }
  intros E.
  refine ((_ : triple (fun s => s = st) (parseDef fuel)
                 (fun (_ : unit) s => exists inst,
                    inst_id inst = id /\ inst_group inst = currentGroup st /\
                    exists k,
                      s = set_globalCursors
                            (<[inst_id inst := ∅]> (globalCursors st))
                            (set_score
                               (set_instruments
                                  (instruments (score st) ++ [inst])
                                  (score st))
                               (set_tokenIndex k st))))
            st u st' eq_refl E).
  clear E. unfold parseDef.
  eapply triple_bind with (Q := fun _ s => s = set_tokenIndex (S (tokenIndex st)) st).
  { intros s a s' -> E. injection E as _ <-. reflexivity. }
  intros _.
  eapply triple_bind with (Q := fun a s => a = id /\ P s).
  { intros s a s' -> E. injection E as <- <-. split; [reflexivity|].
    eexists. reflexivity. }
  intros id'.
  eapply triple_bind with (Q := fun _ s => id' = id /\ P s).
  { apply triple_keeps, preserves_read. }
  intros p.
  eapply triple_bind with (Q := fun _ s => id' = id /\ P s).
  { apply triple_keeps. destruct (startsWith p _); [|apply preserves_ret].
    apply preserves_bind; [apply (consume_keeps _ PI)|].
    intros t. apply preserves_ret. }
  intros label.
  eapply triple_bind with
    (Q := fun s0 s => id' = id /\ currentGroup s0 = currentGroup st /\ P s).
  { intros s a s' [-> [k ->]] E. injection E as <- <-.
    split; [reflexivity|]. split; [reflexivity|]. exists k. reflexivity. }
  intros s0.
  eapply triple_bind with
    (Q := fun inst s =>
            id' = id /\ inst_id inst = id /\
            inst_group inst = currentGroup st /\ P s).
  - intros s1 r s1' (-> & G & HP) E. split; [reflexivity|].
    refine (triple_iterate
              (fun inst s => inst_id inst = id /\
                             inst_group inst = currentGroup st /\ P s)
              (fun inst s => inst_id inst = id /\
                             inst_group inst = currentGroup st /\ P s)
              _ _ fuel _ s1 r s1' _ E).
    + intros inst.
      eapply triple_bind with
        (Q := fun _ s => inst_id inst = id /\
                         inst_group inst = currentGroup st /\ P s).
      { intros s a s' H E'. injection E' as _ <-. exact H. }
      intros next.
      destruct (_ || _); [apply triple_ret; intros ? HH; exact HH|].
      eapply triple_bind with
        (Q := fun _ s => inst_id inst = id /\
                         inst_group inst = currentGroup st /\ P s).
      { intros s a s' (H1 & H2 & H3) E'. injection E' as _ <-.
        split; [exact H1|]. split; [exact H2|]. apply PI, H3. }
      intros attr.
      destruct (negb _); apply triple_ret; intros s2 (H1 & H2 & H3).
      * repeat split; assumption.
      * destruct (apply_attr_id
                    (toLowerCase (nth_str 0 (split "=" attr)))
                    (drop_all is_dquote (nth_str 1 (split "=" attr))) inst)
          as [-> ->].
        repeat split; assumption.
    + cbn. split; [reflexivity|]. split; [exact G|exact HP].
  - intros inst s a s' (-> & Hi & Hg & [k ->]) E. injection E as _ <-.
    exists inst. split; [exact Hi|]. split; [exact Hg|].
    exists k. rewrite Hi. reflexivity.
Qed.

(** [parseDef] appends one instrument, whose id is the token after
    [def] and whose group is the current one, and gives that id an empty
    table of voice cursors: defining an id again forgets the sticky
    state of its voices.  Nothing else changes but the position in the
    tokens. *)
Theorem parseDef_appends (fuel : nat) (st : Parser) (u : unit)
    (st' : Parser) :
  parseDef fuel st = Done (u, st') ->
  exists inst,
    inst_id inst = nth (S (tokenIndex st)) (tokens st) EmptyString /\
    inst_group inst = currentGroup st /\
    exists k,
      st' = set_globalCursors (<[inst_id inst := ∅]> (globalCursors st))
              (set_score
                 (set_instruments (instruments (score st) ++ [inst])
                    (score st))
                 (set_tokenIndex k st)).
Proof. apply parseDef_spec. Qed.

Lemma parseDef_appends_witness :
  exists inst,
    inst_id inst = "a" /\ inst_group inst = None /\
    exists k,
      at_measure
      = set_globalCursors (<[inst_id inst := ∅]> ∅)
          (set_score (set_instruments ([] ++ [inst]) initial_score)
             (set_tokenIndex k
                (new_parser (tokenize "def a measure 1-2 { a: c }")))).
Proof.
  apply (parseDef_appends 5
           (new_parser (tokenize "def a measure 1-2 { a: c }")) tt
           at_measure).
  vm_compute. reflexivity.
Defined.

(* ------------------------------------------------------------------ *)
(** ** Witnesses of the invariants of a compiled score *)

Lemma instruments_are_plain_witness :
  exists sc,
    parse 20 "def drm style=grid map=gm_kit measure 1 { drm: k }" = Done sc /\
    Forall plain_instrument (instruments sc).
Proof.
  eexists. split; [vm_compute; reflexivity|].
  apply (instruments_are_plain 20
           "def drm style=grid map=gm_kit measure 1 { drm: k }").
  vm_compute. reflexivity.
Defined.

Lemma durationTicks_of_score_witness :
  exists sc,
    parse 20 "def a measure 1 { a: c | a: d.grace }" = Done sc /\
    durationTicks sc
    = match last (timeline sc) with
      | Some e => tickEnd e
      | None => ofZ 0
      end.
Proof.
  eexists. split; [vm_compute; reflexivity|].
  apply (durationTicks_of_score 20 "def a measure 1 { a: c | a: d.grace }").
  vm_compute. reflexivity.
Defined.

(* ------------------------------------------------------------------ *)
(** ** Invariants of the reachable states *)

Create HintDb driver discriminated.

Ltac keeps_step I :=
  first
    [ apply preserves_ret
    | apply preserves_throw
    | apply (preserves_read I)
    | solve [auto with driver nocore]
    | apply preserves_while
    | apply preserves_when
    | apply preserves_iterate; intros ?
    | apply preserves_bind; [|intros ?]
    | match goal with
      | |- preserves _ (if ?b then _ else _) => destruct b
      | |- preserves _ (match ?x with _ => _ end) => destruct x eqn:?
      end ].

Section Driver.
(** A property [I] of the parser state that the three leaves of the
    parser keep, [parseDef], [parseMetaBlock] and [parseInstrumentLogic],
    that does not depend on the position in the tokens or on the
    macros, and that the two values of the current group keep: it holds
    when the root block is done. *)
Variable I : Parser -> Prop.
Hypothesis I_tokenIndex : forall i st, I st -> I (set_tokenIndex i st).
Hypothesis I_macros : forall m st, I st -> I (set_macros m st).
Hypothesis I_currentGroup :
  forall g st,
    g = None \/ g = Some "Group" -> I st -> I (set_currentGroup g st).
Hypothesis I_parseDef : forall fuel, preserves I (parseDef fuel).
Hypothesis I_parseMetaBlock : forall fuel, preserves I (parseMetaBlock fuel).
Hypothesis I_parseInstrumentLogic :
  forall fuel i t, preserves I (parseInstrumentLogic fuel i t).

Lemma drv_consume : preserves I consume.
Proof. exact (consume_keeps I I_tokenIndex). Qed.

Lemma drv_modify_tokenIndex (f : Parser -> nat) :
  preserves I (modify (fun st => set_tokenIndex (f st) st)).
Proof. apply preserves_modify. intros st H. apply I_tokenIndex, H. Qed.

#[local] Hint Resolve drv_consume I_parseDef I_parseMetaBlock
  I_parseInstrumentLogic : driver.

Ltac drv_tac :=
  repeat first
    [ keeps_step I
    | apply preserves_modify; intros ? ?;
      first [ apply I_tokenIndex | apply I_macros ]; assumption
    | apply preserves_modify; intros ? ?; apply I_currentGroup;
      [ first [ left; reflexivity | right; reflexivity ] | assumption ] ].

Lemma drv_parseMacroDef fuel : preserves I (parseMacroDef fuel).
Proof. unfold parseMacroDef, match_tok, peek, in_bounds. drv_tac. Qed.

Lemma drv_parseGroup fuel : preserves I (parseGroup fuel).
Proof. unfold parseGroup, peek, in_bounds. drv_tac. Qed.

Lemma drv_replay_block fuel be t : preserves I (replay_block fuel be t).
Proof. unfold replay_block, get_state, peek. drv_tac. Qed.

#[local] Hint Resolve drv_parseMacroDef drv_parseGroup drv_replay_block
  : driver.

Lemma drv_parseMeasure fuel : preserves I (parseMeasure fuel).
Proof.
  unfold parseMeasure, replay_loop, scan_block, match_tok, get_state, peek,
    in_bounds.
  drv_tac.
Qed.

#[local] Hint Resolve drv_parseMeasure : driver.

Lemma drv_parseBody fuel : preserves I (parseBody fuel).
Proof. unfold parseBody, peek, in_bounds. drv_tac. Qed.

#[local] Hint Resolve drv_parseBody : driver.

Lemma drv_parse_root fuel : preserves I (parse_root fuel).
Proof. unfold parse_root, match_tok, peek. drv_tac. Qed.

Lemma drv_compile fuel source u st :
  I (new_parser (tokenize (strip_comments source false))) ->
  compile fuel source = Done (u, st) -> I st.
Proof. unfold compile. intros H0 E. exact (drv_parse_root fuel _ _ _ H0 E). Qed.
End Driver.

Section Reachable.
(** A property [K] of the parser state that may depend on the meta data,
    the instruments and the timeline.  It is to be kept by the update of
    a meta entry, by the definition of a plain instrument in the current
    group, and by the event of a lexeme in a voice of a defined, plain
    instrument. *)
Variable K : Parser -> Prop.
Hypothesis K_tokenIndex : forall i st, K st -> K (set_tokenIndex i st).
Hypothesis K_macros : forall m st, K st -> K (set_macros m st).
Hypothesis K_currentGroup :
  forall g st,
    g = None \/ g = Some "Group" -> K st -> K (set_currentGroup g st).
Hypothesis K_globalCursors : forall c st, K st -> K (set_globalCursors c st).
Hypothesis K_meta :
  forall k v st,
    K st ->
    K (set_score (set_meta (apply_meta k v (meta (score st))) (score st)) st).
Hypothesis K_def :
  forall inst st,
    K st -> plain_instrument inst -> inst_group inst = currentGroup st ->
    K (set_score
         (set_instruments (instruments (score st) ++ [inst]) (score st)) st).
Hypothesis K_event :
  forall token inst voice baseTick relativeTick cursor st,
    K st -> is_lexeme token = true ->
    In inst (instruments (score st)) -> plain_instrument inst ->
    K (set_score
         (set_timeline
            (timeline (score st) ++
             [snd (fst (build_event token inst voice baseTick relativeTick
                          cursor))])
            (score st)) st).

Let W : Parser -> Prop := reachable K.

Lemma W_tokenIndex i st : W st -> W (set_tokenIndex i st).
Proof.
  intros (H & L & P). split; [apply K_tokenIndex, H|]. split; assumption.
Qed.

Lemma W_macros m st : W st -> W (set_macros m st).
Proof.
  intros (H & L & P). split; [apply K_macros, H|]. split; assumption.
Qed.

Lemma W_currentGroup g st :
  g = None \/ g = Some "Group" -> W st -> W (set_currentGroup g st).
Proof.
  intros G (H & L & P). split; [apply K_currentGroup; assumption|].
  split; assumption.
Qed.

Lemma W_globalCursors c st : W st -> W (set_globalCursors c st).
Proof.
  intros (H & L & P). split; [apply K_globalCursors, H|]. split; assumption.
Qed.

Lemma W_meta k v st :
  W st ->
  W (set_score (set_meta (apply_meta k v (meta (score st))) (score st)) st).
Proof.
  intros (H & L & P). split; [apply K_meta, H|]. split; assumption.
Qed.

Lemma W_parseDef fuel : preserves W (parseDef fuel).
Proof.
  intros st a st' (H & L & P) E.
  pose proof (parseDef_plain fuel st a st' P E) as P'.
  destruct (parseDef_spec fuel st a st' E) as (inst & _ & G & k & ->).
  split; [|split; [exact L|exact P']].
  apply K_globalCursors. apply (K_def inst (set_tokenIndex k st)).
  - apply K_tokenIndex, H.
  - destruct P' as [_ F]. cbn in F. apply Forall_app in F as [_ F].
    apply Forall_cons_iff in F as [F _]. exact F.
  - exact G.
Qed.

Lemma W_consume : preserves W consume.
Proof. exact (consume_keeps W W_tokenIndex). Qed.

#[local] Hint Resolve W_consume : driver.

Lemma W_parseMetaBlock fuel : preserves W (parseMetaBlock fuel).
Proof.
  unfold parseMetaBlock, read_list, update_meta, match_tok, skip_if,
    peek_is, peek, in_bounds.
  repeat first
    [ keeps_step W
    | apply preserves_modify; intros ? ?; apply W_meta; assumption ].
Qed.

Section Stream.
Variable inst : InstrumentDef.
Let S : Parser -> Prop := streaming K inst.

Lemma S_tokenIndex i st : S st -> S (set_tokenIndex i st).
Proof. intros [H I]. split; [apply W_tokenIndex, H|exact I]. Qed.

Lemma S_globalCursors c st : S st -> S (set_globalCursors c st).
Proof. intros [H I]. split; [apply W_globalCursors, H|exact I]. Qed.

Lemma S_consume : preserves S consume.
Proof. exact (consume_keeps S S_tokenIndex). Qed.

Lemma S_inst_plain st : S st -> plain_instrument inst.
Proof.
  intros [(_ & _ & _ & F) I].
  exact (proj1 (Stdlib.Lists.List.Forall_forall _ _) F inst I).
Qed.

Lemma S_parseEvent token voice b r :
  is_lexeme token = true -> preserves S (parseEvent token inst voice b r).
Proof.
  intros T st a st' H E.
  destruct (parseEvent_spec _ _ _ _ _ _ _ _ E)
    as [[_ ->]|(tbl & c & _ & _ & _ & ->)]; [exact H|].
  apply S_globalCursors.
  pose proof (S_inst_plain st H) as PI.
  destruct H as [(H & L & P) I].
  split; [|exact I]. split; [|split; assumption].
  apply K_event; assumption.
Qed.

Lemma S_macro_events ts voice b :
  Forall (fun t => is_lexeme t = true) ts ->
  forall c, preserves S (macro_events ts inst voice b c).
Proof.
  induction 1 as [|t ts T F IH]; intros c; cbn [macro_events].
  - apply preserves_ret.
  - apply preserves_bind; [apply S_parseEvent, T|]. intros a. apply IH.
Qed.

Lemma S_handleMacro token voice b c :
  preserves S (handleMacro token inst voice b c).
Proof.
  unfold handleMacro.
  match goal with
  | |- context [if ?b then ?x else ?y] => destruct (if b then x else y)
      as [name args]
  end.
  apply preserves_bind; [apply (preserves_read S)|]. intros st.
  destruct (macros st !! name) as [def|]; [|apply preserves_ret].
  apply S_macro_events. apply lex_lexemes. exact Logic.I.
Qed.

Lemma S_parseVoiceStream fuel voice b t :
  preserves S (parseVoiceStream fuel inst voice b t).
Proof.
  unfold parseVoiceStream. apply preserves_iterate. intros tick.
  intros st a st' H E. unfold bind at 1 2 in E. unfold peek, in_bounds in E.
  destruct (negb _ && negb _ && Nat.ltb _ _) eqn:C.
  - apply andb_true_iff in C as [_ C]. apply Nat.ltb_lt in C.
    assert (T : is_lexeme (nth (tokenIndex st) (tokens st) "") = true).
    { destruct H as [(_ & L & _) _].
      exact (proj1 (Stdlib.Lists.List.Forall_forall _ _) L _
               (nth_In _ _ C)). }
    unfold bind at 1 in E. unfold consume in E.
    pose proof (S_tokenIndex (Datatypes.S (tokenIndex st)) st H) as H1.
    revert E. generalize (set_tokenIndex (Datatypes.S (tokenIndex st)) st) H1.
    revert T. generalize (nth (tokenIndex st) (tokens st) "").
    intros token T st1 HS1 E.
    refine ((_ : preserves S
              (if str_eqb token "]" then ret (inl tick)
               else if startsWith token "$" then
                 t0 <- handleMacro token inst voice b tick ;; ret (inl t0)
               else
                 a0 <- parseEvent token inst voice b tick ;;
                 ret (inl (advance tick a0)))) st1 a st' HS1 E).
    clear E.
    destruct (str_eqb token "]"); [apply preserves_ret|].
    destruct (startsWith token "$").
    + apply preserves_bind; [apply S_handleMacro|].
      intros ?. apply preserves_ret.
    + apply preserves_bind; [apply S_parseEvent, T|].
      intros ?. apply preserves_ret.
  - injection E as _ <-. exact H.
Qed.

Lemma S_ensure_cursor i v : preserves S (ensure_cursor i v).
Proof.
  unfold ensure_cursor.
  apply preserves_bind.
  - intros st a st' H E. unfold lookup_cursor in E.
    destruct (globalCursors st !! i); [|discriminate].
    injection E as _ <-. exact H.
  - intros [c|]; [apply preserves_ret|].
    intros st a st' H E. unfold store_cursor in E.
    destruct (globalCursors st !! i); [|discriminate].
    injection E as _ <-. apply S_globalCursors, H.
Qed.
End Stream.

Lemma W_parseInstrumentLogic fuel i t :
  preserves W (parseInstrumentLogic fuel i t).
Proof.
  unfold parseInstrumentLogic.
  apply preserves_bind; [apply W_consume|]. intros _.
  apply preserves_bind.
  { unfold skip_if, peek_is, peek.
    repeat first [keeps_step W]. }
  intros _.
  intros st a st' H E. unfold bind at 1 in E. unfold find_instrument in E.
  destruct (find _ _) as [inst|] eqn:F; [|discriminate].
  apply find_some in F as [F _].
  assert (HS : streaming K inst st) by (split; assumption).
  refine (proj1 ((_ : preserves (streaming K inst)
    (b <- peek_is "{" ;;
     if b then
       consume ;;
       while fuel
         (p <- peek ;; ib <- in_bounds ;; ret (negb (str_eqb p "}") && ib))
         (vToken <- consume ;;
          let voice := drop_first ":" vToken in
          skip_if ":" ;;
          ensure_cursor i voice ;;
          parseVoiceStream fuel inst voice t "|" ;;
          skip_if "|") ;;
       consume ;;
       ret tt
     else
       let voice := "v1" in
       ensure_cursor i voice ;;
       parseVoiceStream fuel inst voice t "|" ;;
       skip_if "|")) st a st' HS E)).
  clear E.
  pose proof (S_consume inst) as HC.
  pose proof (S_ensure_cursor inst) as HE.
  pose proof (S_parseVoiceStream inst) as HV.
  unfold skip_if, peek_is, peek, in_bounds. cbv zeta.
  repeat first
    [ apply HC | apply HE | apply HV | keeps_step (streaming K inst) ].
Qed.

Lemma reach_compile fuel source u st :
  K (new_parser (tokenize (strip_comments source false))) ->
  compile fuel source = Done (u, st) -> K st.
Proof.
  intros H0 E.
  refine (proj1 (drv_compile W W_tokenIndex W_macros W_currentGroup
                   W_parseDef W_parseMetaBlock W_parseInstrumentLogic
                   fuel source u st _ E)).
  split; [exact H0|]. split.
  - apply lex_lexemes. exact Logic.I.
  - split; [|constructor]. apply lex_keyless. exact Logic.I.
Qed.
End Reachable.

(** The lift of a property of the score at the end of the root block to
    the compiled score, for a property that the sort of the timeline
    keeps. *)
Lemma parse_compile fuel source sc :
  parse fuel source = Done sc ->
  exists u st,
    compile fuel source = Done (u, st) /\
    meta sc = meta (score st) /\
    instruments sc = instruments (score st) /\
    Permutation (timeline (score st)) (timeline sc).
Proof.
  unfold parse. intros E.
  destruct (compile fuel source) as [[u st]| |]; try discriminate.
  injection E as <-. exists u, st. split; [reflexivity|].
  rewrite meta_finalize, instruments_finalize, timeline_finalize.
  split; [reflexivity|]. split; [reflexivity|]. apply sort_events_perm.
Qed.

(** Every event of a compiled score belongs to a defined instrument. *)
Theorem events_of_defined_instruments (fuel : nat) (source : string)
    (sc : CompiledScore) (e : NoteEvent) :
  parse fuel source = Done sc -> In e (timeline sc) ->
  In (instrumentId e) (map inst_id (instruments sc)).
Proof.
  intros P Hin.
  destruct (parse_compile _ _ _ P) as (u & st & C & _ & -> & Perm).
  apply (Permutation_in _ (Permutation_sym Perm)) in Hin.
  revert e Hin. apply Stdlib.Lists.List.Forall_forall.
  refine (reach_compile
            (fun st => Forall (fun e => In (instrumentId e)
                                          (map inst_id (instruments (score st))))
                         (timeline (score st)))
            _ _ _ _ _ _ _ fuel source u st _ C);
    try (intros; assumption).
  - intros inst st0 H _ _. cbn. eapply Forall_impl; [exact H|].
    intros e He. cbn in He. rewrite map_app. apply in_or_app. left. exact He.
  - intros token inst voice b r c st0 H _ Hin _. cbn.
    apply Forall_app. split; [exact H|]. constructor; [|constructor].
    destruct (build_event_fields token inst voice b r c) as (-> & _).
    apply in_map. exact Hin.
  - constructor.
Qed.

Lemma events_of_defined_instruments_witness :
  exists sc e,
    parse 20 "def a def b measure 1 { b: c }" = Done sc /\
    In e (timeline sc) /\
    In (instrumentId e) (map inst_id (instruments sc)).
Proof.
  eexists. eexists. split; [vm_compute; reflexivity|].
  split; [left; reflexivity|].
  eapply (events_of_defined_instruments 20 "def a def b measure 1 { b: c }");
    [vm_compute; reflexivity|left; reflexivity].
Defined.

Lemma apply_meta_style (k v : string) (m : OmniMeta) :
  meta_style (apply_meta k v m) = meta_style m.
Proof.
  unfold apply_meta.
  repeat match goal with
  | |- context [if ?b then _ else _] => destruct b
  end; reflexivity.
Qed.

(** No source text changes the style of the meta data. *)
Theorem meta_style_is_standard (fuel : nat) (source : string)
    (sc : CompiledScore) :
  parse fuel source = Done sc -> meta_style (meta sc) = "standard".
Proof.
  intros P.
  destruct (parse_compile _ _ _ P) as (u & st & C & -> & _).
  refine (reach_compile
            (fun st => meta_style (meta (score st)) = "standard")
            _ _ _ _ _ _ _ fuel source u st _ C);
    try (intros; assumption); [|reflexivity].
  intros k v st0 H. cbn. rewrite apply_meta_style. exact H.
Qed.

Lemma meta_style_is_standard_witness :
  exists sc,
    parse 20 ("meta { style: " ++ quoted "jazz" ++ " }") = Done sc /\
    meta_style (meta sc) = "standard".
Proof.
  eexists. split; [vm_compute; reflexivity|].
  apply (meta_style_is_standard 20
           ("meta { style: " ++ quoted "jazz" ++ " }")).
  vm_compute. reflexivity.
Defined.

Lemma split_aux_prefix (c : ascii) (s cur : string) :
  exists pre rest,
    nth_str 0 (split_aux c s cur) = rev_str cur "" ++ pre /\ s = pre ++ rest.
Proof.
  revert cur. induction s as [|d s IH]; intros cur; cbn [split_aux].
  - exists EmptyString, EmptyString. split; [|reflexivity]. cbn.
    induction (rev_str cur "") as [|x r IHr]; [reflexivity|].
    rewrite append_cons. f_equal. exact IHr.
  - destruct (chr_eqb c d).
    + exists EmptyString, (String d s). split; [|reflexivity]. cbn.
      induction (rev_str cur "") as [|x r IHr]; [reflexivity|].
      rewrite append_cons. f_equal. exact IHr.
    + destruct (IH (String d cur)) as (pre & rest & E1 & ->).
      exists (String d pre), rest. split; [|reflexivity].
      rewrite E1. cbn [rev_str]. rewrite (rev_str_app cur (String d "")).
      rewrite append_assoc. reflexivity.
Qed.

Lemma split_attr_prefix (s cur : string) (p2 p1 : option ascii) :
  exists pre rest,
    nth_str 0 (split_attr_aux s cur p2 p1) = rev_str cur "" ++ pre /\
    s = pre ++ rest.
Proof.
  revert cur p2 p1. induction s as [|c s IH]; intros cur p2 p1;
    cbn [split_attr_aux].
  - exists EmptyString, EmptyString. split; [|reflexivity]. cbn.
    induction (rev_str cur "") as [|x r IHr]; [reflexivity|].
    rewrite append_cons. f_equal. exact IHr.
  - destruct (chr_eqb c "." && negb _).
    + exists EmptyString, (String c s). split; [|reflexivity]. cbn.
      induction (rev_str cur "") as [|x r IHr]; [reflexivity|].
      rewrite append_cons. f_equal. exact IHr.
    + destruct (IH (String c cur) p1 (Some c)) as (pre & rest & E1 & ->).
      exists (String c pre), rest. split; [|reflexivity].
      rewrite E1. cbn [rev_str]. rewrite (rev_str_app cur (String c "")).
      rewrite append_assoc. reflexivity.
Qed.

(** The pitch part of a token is a prefix of the token. *)
Lemma pitch_part_prefix (token : string) :
  exists rest, token = pitch_part token ++ rest.
Proof.
  unfold pitch_part, token_core, split_attr, split.
  destruct (split_attr_prefix token "" None None) as (core & r1 & -> & ->).
  cbn [rev_str]. rewrite append_nil.
  destruct (split_aux_prefix ":" core "") as (p & r2 & -> & ->).
  cbn [rev_str]. rewrite append_nil. exists (r2 ++ r1).
  rewrite append_assoc. reflexivity.
Qed.

Lemma lexeme_bracket (t : string) :
  is_lexeme t = true -> startsWith t "[" = true -> t = "[".
Proof.
  destruct t as [|c r]; [discriminate|]. unfold startsWith.
  cbn [String.prefix]. destruct (ascii_dec "[" c) as [<-|]; [|discriminate].
  intros L _. cbn in L. rewrite !orb_false_r in L.
  apply String.eqb_eq in L as ->. reflexivity.
Qed.

Lemma parsePitchToMidi_unmatched (p : string) (o : num) :
  match p with
  | String c _ => in_range 97 103 (lower_char c) = false
  | EmptyString => True
  end ->
  parsePitchToMidi p o = (ofZ 60, ofZ 4).
Proof.
  unfold parsePitchToMidi, match_pitch. destruct p as [|c r]; [reflexivity|].
  intros ->. reflexivity.
Qed.

Lemma resolvePitch_plain p inst c e :
  plain_instrument inst ->
  resolvePitch p inst c e
  = (set_octave (snd (parsePitchToMidi p (cur_octave c))) c,
     push_pitch (fst (parsePitchToMidi p (cur_octave c))) e).
Proof.
  intros ->. unfold resolvePitch. cbn [inst_style].
  change (str_eqb STANDARD TAB) with false.
  change (str_eqb STANDARD GRID) with false. cbv iota.
  destruct (parsePitchToMidi p (cur_octave c)); reflexivity.
Qed.

Lemma vol_override_kind attrs e :
  kind (vol_override attrs e) = kind e.
Proof.
  unfold vol_override. destruct (find is_vol attrs) as [a|]; [|reflexivity].
  destruct (attr_args a) as [|[|] ?]; reflexivity.
Qed.

(** The pitches of the event of a lexeme for a plain instrument. *)
Lemma build_event_pitches token inst voice b r c :
  is_lexeme token = true -> plain_instrument inst ->
  pitches_by_kind (snd (fst (build_event token inst voice b r c))).
Proof.
  intros L PI. unfold build_event.
  set (c1 := if truthy_str (duration_part token) then _ else c).
  set (e0 := mkEvent note [] _ _ _ _ _ _ _).
  set (e1 := if existsb is_grace (token_modifiers token) then _ else e0).
  assert (K1 : kind e1 = note /\ pitches e1 = []).
  { subst e1. destruct (existsb _ _); split; reflexivity. }
  destruct K1 as [Kd Pt]. clearbody e1 c1. clear e0.
  destruct (resolve_pitches (pitch_part token) inst c1 e1) as [c2 e2] eqn:R.
  cbn [fst snd]. unfold pitches_by_kind.
  rewrite vol_override_kind.
  destruct (vol_override_keeps (token_modifiers token) e2) as (-> & _).
  unfold resolve_pitches in R.
  destruct (str_eqb (pitch_part token) "r").
  { injection R as _ <-. cbn. exact Pt. }
  destruct (str_eqb (pitch_part token) "s").
  { injection R as _ <-. cbn. exact Pt. }
  destruct (startsWith (pitch_part token) "[") eqn:B.
  - assert (T : token = "[").
    { apply lexeme_bracket; [exact L|].
      destruct (pitch_part_prefix token) as [rest E].
      destruct (pitch_part token) as [|x p]; [discriminate B|].
      rewrite E, append_cons. unfold startsWith in *.
      cbn [String.prefix] in *.
      destruct (ascii_dec "[" x); [|discriminate B].
      destruct (p ++ rest); reflexivity. }
    subst token.
    change (pitch_part "[") with "[" in R.
    cbn [drop_all chr_eqb Ascii.eqb Bool.eqb orb andb] in R.
    change (split_ws "") with [""] in R. cbn [fold_left fst snd] in R.
    rewrite (resolvePitch_plain _ _ _ _ PI) in R.
    injection R as _ <-. cbn. rewrite Pt. reflexivity.
  - rewrite (resolvePitch_plain _ _ _ _ PI) in R.
    injection R as _ <-. cbn. rewrite Kd, Pt. reflexivity.
Qed.

(** The pitches of the events of a compiled score: a rest has none, a
    note has exactly one, and a chord has the one pitch 60, since a
    bracket is a token of its own. *)
Theorem event_pitches_by_kind (fuel : nat) (source : string)
    (sc : CompiledScore) (e : NoteEvent) :
  parse fuel source = Done sc -> In e (timeline sc) -> pitches_by_kind e.
Proof.
  intros P Hin.
  destruct (parse_compile _ _ _ P) as (u & st & C & _ & _ & Perm).
  apply (Permutation_in _ (Permutation_sym Perm)) in Hin.
  revert e Hin. apply Stdlib.Lists.List.Forall_forall.
  refine (reach_compile
            (fun st => Forall pitches_by_kind (timeline (score st)))
            _ _ _ _ _ _ _ fuel source u st _ C);
    try (intros; assumption).
  - intros token inst voice b r c st0 H T _ PI. cbn.
    apply Forall_app. split; [exact H|]. constructor; [|constructor].
    apply build_event_pitches; assumption.
  - constructor.
Qed.

Lemma event_pitches_by_kind_witness :
  exists sc e,
    parse 20 "def a measure 1 { a: [c4 e4 g4] r }" = Done sc /\
    In e (timeline sc) /\ kind e = chord /\ pitches_by_kind e.
Proof.
  eexists. eexists. split; [vm_compute; reflexivity|].
  split; [left; reflexivity|]. split; [reflexivity|].
  eapply (event_pitches_by_kind 20 "def a measure 1 { a: [c4 e4 g4] r }");
    [vm_compute; reflexivity|left; reflexivity].
Defined.

(* ------------------------------------------------------------------ *)
(** ** Termination *)

Lemma good_bind {A B} (Q1 : A -> Parser -> Prop) (Q : B -> Parser -> Prop)
    (m : M A) (f : A -> M B) (st : Parser) :
  good Q1 (m st) ->
  (forall a st1, Q1 a st1 -> good Q (f a st1)) ->
  good Q (bind m f st).
Proof.
  unfold bind. destruct (m st) as [[a st1]| |]; cbn [good].
  - intros H1 H2. exact (H2 a st1 H1).
  - trivial.
  - intros [].
Qed.

Lemma good_weaken {A} (Q Q' : A -> Parser -> Prop) (o : outcome (A * Parser)) :
  (forall a st, Q a st -> Q' a st) -> good Q o -> good Q' o.
Proof. destruct o as [[a st]| |]; cbn [good]; auto. Qed.

(** The loops: an iteration that goes on reduces a measure [mu]. *)
Lemma good_iterate {S R} (step : S -> M (S + R))
    (Inv : S -> Parser -> Prop) (mu : S -> Parser -> nat)
    (Post : R -> Parser -> Prop) :
  (forall s st,
     Inv s st ->
     good (fun r st' =>
             match r with
             | inl s' => Inv s' st' /\ (mu s' st' < mu s st)%nat
             | inr x => Post x st'
             end) (step s st)) ->
  forall n s st,
    Inv s st -> (mu s st < n)%nat -> good Post (iterate n step s st).
Proof.
  intros Hs n. induction n as [|n IH]; intros s st HI Hn; [lia|].
  cbn [iterate]. eapply good_bind; [exact (Hs s st HI)|].
  intros [s'|x] st1; cbn beta iota.
  - intros [HI' Hm]. apply IH; [exact HI'|lia].
  - intros HP. exact HP.
Qed.

Lemma Qred_inject_Z (a : Z) : Qred (inject_Z a) = inject_Z a.
Proof.
  unfold Qred, inject_Z.
  generalize (Z.ggcd_gcd a 1) (Z.ggcd_correct_divisors a 1).
  destruct (Z.ggcd a 1) as [g [aa bb]]. cbn [fst snd].
  rewrite Z.gcd_1_r. intros -> [Ha Hb]. rewrite Z.mul_1_l in Ha, Hb.
  subst aa bb. reflexivity.
Qed.

Lemma ival_ofZ (a : Z) : ival (ofZ a) = a.
Proof.
  unfold ival. destruct (ofZ_cases a) as [[-> ->]|[_ ->]]; [reflexivity|].
  rewrite Qred_inject_Z. reflexivity.
Qed.

Lemma intlike_ival (x : num) (a : Z) :
  intlike x a -> ival x = a /\ isNaN x = false.
Proof.
  intros [->|[-> ->]]; [|split; reflexivity].
  split; [apply ival_ofZ|].
  destruct (ofZ_cases a) as [[_ ->]|[_ ->]]; reflexivity.
Qed.

Lemma nle_zero_l (s : bool) (y : num) : nle (Zero s) y = nle (Zero false) y.
Proof. destruct y as [|[]| |]; reflexivity. Qed.

Lemma nle_zero_r (s : bool) (x : num) : nle x (Zero s) = nle x (Zero false).
Proof. destruct x as [|[]| |]; reflexivity. Qed.

Lemma nle_intlike (x y : num) (a b : Z) :
  intlike x a -> intlike y b -> nle x y = Z.leb a b.
Proof.
  intros [->|[-> ->]] [->|[-> ->]].
  - apply nle_ofZ.
  - rewrite nle_zero_r. apply (nle_ofZ a 0).
  - rewrite nle_zero_l. apply (nle_ofZ 0 b).
  - reflexivity.
Qed.

Lemma intlike_succ (x : num) (a : Z) :
  intlike x a -> intlike (nadd x (ofZ 1)) (a + 1).
Proof.
  intros [->|[-> ->]]; left; [apply nadd_ofZ|reflexivity].
Qed.

Lemma signed_intlike (neg : bool) (v : Z) :
  exists a, intlike (signed neg (inject_Z v)) a.
Proof.
  unfold signed. destruct (Qeq_bool (inject_Z v) 0) eqn:E.
  - exists 0. destruct neg; [right; split; reflexivity|left; reflexivity].
  - exists (if neg then - v else v). left. unfold ofZ, ofQ.
    destruct neg.
    + change (- inject_Z v)%Q with (inject_Z (- v)).
      replace (Qeq_bool (inject_Z (- v)) 0) with false; [reflexivity|].
      symmetry. apply not_true_iff_false. intros H.
      apply Qeq_bool_iff in H. unfold Qeq in H. cbn in H.
      apply not_true_iff_false in E. apply E. apply Qeq_bool_iff.
      unfold Qeq. cbn. lia.
    + rewrite E. reflexivity.
Qed.

Lemma parseInt_intlike (s : string) :
  parseInt s = NaN \/ exists a, intlike (parseInt s) a.
Proof.
  unfold parseInt. destruct (take_sign (skip_ws s)) as [neg s1].
  destruct (match hex_prefix s1 with Some r => _ | None => _ end)
    as [radix s2].
  destruct (take_digits radix s2 0 0) as [[v n] r].
  destruct n; [left; reflexivity|right; apply signed_intlike].
Qed.

Lemma measure_range_intlike (t : string) :
  (fst (measure_range t) = NaN \/ exists a, intlike (fst (measure_range t)) a)
  /\
  (snd (measure_range t) = NaN \/ exists a, intlike (snd (measure_range t)) a).
Proof.
  unfold measure_range. destruct (includes t "-"); cbn [fst snd].
  - split.
    + destruct (nth_error _ 0); [apply parseInt_intlike|left; reflexivity].
    + destruct (nth_error _ 1); [apply parseInt_intlike|left; reflexivity].
  - split; apply parseInt_intlike.
Qed.

Lemma span_le_max (T : list string) (t : string) :
  In t T -> (span (measure_range t) <= max_span T)%nat.
Proof.
  induction T as [|x T IH]; [intros []|]. cbn [max_span fold_right In].
  intros [->|H]; [lia|]. specialize (IH H). unfold max_span in IH. lia.
Qed.

Section Halting.
Variable T : list string.
Variable fuel : nat.
Hypothesis T_lexemes : Forall (fun t => is_lexeme t = true) T.
Hypothesis T_groups : braced_groups T.
Hypothesis T_brackets : closed_brackets T.
Hypothesis fuel_tokens : (length T + 2 < fuel)%nat.
Hypothesis fuel_spans : (max_span T < fuel)%nat.

Lemma moves_ret {A} (a : A) : moves T 0 (ret a).
Proof. intros st H. cbn. split; [exact H|lia]. Qed.

Lemma moves_throw {A} : moves T 0 (@throw A).
Proof. intros st H. exact Logic.I. Qed.

Lemma moves_read {A} (g : Parser -> A) :
  moves T 0 (fun st => Done (g st, st)).
Proof. intros st H. cbn. split; [exact H|lia]. Qed.

Lemma moves_consume : moves T 1 consume.
Proof. intros st H. cbn. split; [exact H|lia]. Qed.

Lemma moves_modify (f : Parser -> Parser) :
  (forall st, tokens (f st) = tokens st /\ tokenIndex (f st) = tokenIndex st) ->
  moves T 0 (modify f).
Proof.
  intros Hf st H. cbn. destruct (Hf st) as [-> ->]. split; [exact H|lia].
Qed.

Lemma moves_bind {A B} (k1 k2 : nat) (m : M A) (f : A -> M B) :
  moves T k1 m -> (forall a, moves T k2 (f a)) -> moves T (k1 + k2) (bind m f).
Proof.
  intros H1 H2 st H. eapply good_bind; [exact (H1 st H)|].
  cbn beta. intros a st1 [E L]. eapply good_weaken; [|exact (H2 a st1 E)].
  cbn beta. intros _ st2 [E' L']. split; [exact E'|lia].
Qed.

Lemma moves_le {A} (k k' : nat) (m : M A) :
  (k' <= k)%nat -> moves T k m -> moves T k' m.
Proof.
  intros L H st E. eapply good_weaken; [|exact (H st E)].
  cbn beta. intros _ st' [E' L']. split; [exact E'|lia].
Qed.

Lemma moves_bind0 {A B} (m : M A) (f : A -> M B) :
  moves T 0 m -> (forall a, moves T 0 (f a)) -> moves T 0 (bind m f).
Proof. intros H1 H2. exact (moves_bind 0 0 m f H1 H2). Qed.

Lemma moves_bind1 {A B} (m : M A) (f : A -> M B) :
  moves T 1 m -> (forall a, moves T 0 (f a)) -> moves T 1 (bind m f).
Proof. intros H1 H2. exact (moves_bind 1 0 m f H1 H2). Qed.

Lemma moves_when (b : bool) (m : M unit) :
  moves T 0 m -> moves T 0 (when b m).
Proof. intros H. destruct b; [exact H|apply moves_ret]. Qed.

Lemma moves_skip_if (val : string) : moves T 0 (skip_if val).
Proof.
  unfold skip_if, peek_is, peek. apply moves_bind0.
  - apply moves_bind0; [apply (moves_read (fun st => nth _ _ _))|].
    intros p. apply moves_ret.
  - intros b. apply moves_when. apply (moves_le 1); [lia|].
    apply moves_bind1; [apply moves_consume|]. intros _. apply moves_ret.
Qed.

Lemma moves_match_tok (val : string) : moves T 0 (match_tok val).
Proof.
  unfold match_tok, peek.
  apply moves_bind0; [apply (moves_read (fun st => nth _ _ _))|].
  intros p. destruct (str_eqb p val); [|apply moves_ret].
  apply (moves_le 1); [lia|].
  apply moves_bind1; [apply moves_consume|]. intros _. apply moves_ret.
Qed.

(** A [while] loop whose condition reads the state and holds within the
    tokens only, and whose body moves on. *)
Lemma moves_while (c : Parser -> bool) (cond : M bool) (body : M unit) :
  (forall st, cond st = Done (c st, st)) ->
  (forall st, tokens st = T -> c st = true ->
              (tokenIndex st < length T)%nat) ->
  moves T 1 body ->
  moves T 0 (while fuel cond body).
Proof.
  intros Hc Hb Hm st0 H0. unfold while.
  refine (good_iterate _
            (fun _ st => tokens st = T /\ (tokenIndex st0 <= tokenIndex st)%nat)
            (fun _ st => (length T - tokenIndex st)%nat)
            (fun _ st => tokens st = T /\
                         (tokenIndex st0 + 0 <= tokenIndex st)%nat)
            _ fuel tt st0 _ _); [|split; [exact H0|lia]|lia].
  intros [] st [E L]. unfold bind at 1. rewrite Hc.
  destruct (c st) eqn:C.
  - pose proof (Hb st E C) as B.
    eapply good_bind; [exact (Hm st E)|]. cbn beta.
    intros _ st1 [E1 L1]. cbn. split; [split; [exact E1|lia]|lia].
  - cbn. split; [exact E|lia].
Qed.

Lemma moves_lookup_cursor i v : moves T 0 (lookup_cursor i v).
Proof.
  intros st H. unfold lookup_cursor.
  destruct (globalCursors st !! i); cbn; [split; [exact H|lia]|trivial].
Qed.

Lemma moves_store_cursor i v c : moves T 0 (store_cursor i v c).
Proof.
  intros st H. unfold store_cursor.
  destruct (globalCursors st !! i); cbn; [split; [exact H|lia]|trivial].
Qed.

Lemma moves_find_instrument i : moves T 0 (find_instrument i).
Proof.
  intros st H. unfold find_instrument.
  destruct (find _ _); cbn; [split; [exact H|lia]|trivial].
Qed.

Lemma moves_parseEvent token inst voice b r :
  moves T 0 (parseEvent token inst voice b r).
Proof.
  unfold parseEvent. destruct (existsb _ _); [apply moves_ret|].
  apply moves_bind0; [apply moves_lookup_cursor|].
  intros [c|]; [|apply moves_throw].
  destruct (build_event token inst voice b r c) as [[c' e] adv].
  apply moves_bind0.
  { apply moves_modify. intros st. split; reflexivity. }
  intros _. apply moves_bind0; [apply moves_store_cursor|].
  intros _. apply moves_ret.
Qed.

Lemma moves_macro_events ts inst voice b :
  forall c, moves T 0 (macro_events ts inst voice b c).
Proof.
  induction ts as [|t ts IH]; intros c; cbn [macro_events].
  - apply moves_ret.
  - apply moves_bind0; [apply moves_parseEvent|]. intros a. apply IH.
Qed.

Lemma moves_handleMacro token inst voice b c :
  moves T 0 (handleMacro token inst voice b c).
Proof.
  unfold handleMacro.
  match goal with
  | |- context [if ?b then ?x else ?y] => destruct (if b then x else y)
      as [name args]
  end.
  apply moves_bind0; [apply (moves_read (fun st => st))|]. intros st.
  destruct (macros st !! name); [apply moves_macro_events|apply moves_ret].
Qed.

Lemma moves_ensure_cursor i v : moves T 0 (ensure_cursor i v).
Proof.
  unfold ensure_cursor. apply moves_bind0; [apply moves_lookup_cursor|].
  intros [c|]; [apply moves_ret|apply moves_store_cursor].
Qed.

Lemma in_bounds_lt (st : Parser) :
  tokens st = T ->
  Nat.ltb (tokenIndex st) (length (tokens st)) = true ->
  (tokenIndex st < length T)%nat.
Proof. intros <- H. apply Nat.ltb_lt. exact H. Qed.

Lemma moves_parseVoiceStream inst voice b t :
  moves T 0 (parseVoiceStream fuel inst voice b t).
Proof.
  intros st0 H0. unfold parseVoiceStream.
  refine (good_iterate _
            (fun _ st => tokens st = T /\ (tokenIndex st0 <= tokenIndex st)%nat)
            (fun _ st => (length T - tokenIndex st)%nat)
            (fun _ st => tokens st = T /\
                         (tokenIndex st0 + 0 <= tokenIndex st)%nat)
            _ fuel _ st0 _ _); [|split; [exact H0|lia]|lia].
  intros tick st [E L]. unfold bind at 1 2. unfold peek, in_bounds.
  destruct (negb _ && negb _ && Nat.ltb _ _) eqn:C.
  - apply andb_true_iff in C as [_ C]. pose proof (in_bounds_lt st E C) as B.
    unfold bind at 1. unfold consume.
    set (token := nth (tokenIndex st) (tokens st) "").
    assert (E1 : tokens (set_tokenIndex (S (tokenIndex st)) st) = T)
      by exact E.
    assert (G : forall (m : M (num + unit)),
               moves T 0 m ->
               good (fun r st' =>
                       match r with
                       | inl _ =>
                           (tokens st' = T /\
                            (tokenIndex st0 <= tokenIndex st')%nat) /\
                           (length T - tokenIndex st'
                            < length T - tokenIndex st)%nat
                       | inr _ =>
                           tokens st' = T /\
                           (tokenIndex st0 + 0 <= tokenIndex st')%nat
                       end) (m (set_tokenIndex (S (tokenIndex st)) st))).
    { intros m Hm. eapply good_weaken; [|exact (Hm _ E1)].
      cbn beta. intros r st' [E' L']. cbn [tokenIndex set_tokenIndex] in L'.
      destruct r; [split; [split; [exact E'|lia]|lia]|split; [exact E'|lia]]. }
    apply G.
    destruct (str_eqb token "]"); [apply moves_ret|].
    destruct (startsWith token "$").
    + apply moves_bind0; [apply moves_handleMacro|]. intros ?. apply moves_ret.
    + apply moves_bind0; [apply moves_parseEvent|]. intros ?. apply moves_ret.
  - cbn. split; [exact E|lia].
Qed.

Lemma moves_parseInstrumentLogic i t :
  moves T 1 (parseInstrumentLogic fuel i t).
Proof.
  unfold parseInstrumentLogic.
  apply moves_bind1; [apply moves_consume|]. intros _.
  apply moves_bind0; [apply moves_skip_if|]. intros _.
  apply moves_bind0; [apply moves_find_instrument|]. intros inst.
  apply moves_bind0.
  { unfold peek_is, peek.
    apply moves_bind0; [apply (moves_read (fun st => nth _ _ _))|].
    intros p. apply moves_ret. }
  intros [|].
  - apply (moves_le 1); [lia|].
    apply moves_bind1; [apply moves_consume|]. intros _.
    apply moves_bind0.
    + apply (moves_while
               (fun st => negb (str_eqb (nth (tokenIndex st) (tokens st) "")
                                  "}")
                          && Nat.ltb (tokenIndex st) (length (tokens st)))).
      * intros st. reflexivity.
      * intros st E C. apply andb_true_iff in C as [_ C].
        exact (in_bounds_lt st E C).
      * apply moves_bind1; [apply moves_consume|]. intros vToken. cbv zeta.
        apply moves_bind0; [apply moves_skip_if|]. intros _.
        apply moves_bind0; [apply moves_ensure_cursor|]. intros _.
        apply moves_bind0; [apply moves_parseVoiceStream|]. intros _.
        apply moves_skip_if.
    + intros _. apply (moves_le 1); [lia|].
      apply moves_bind1; [apply moves_consume|]. intros _. apply moves_ret.
  - cbv zeta.
    apply moves_bind0; [apply moves_ensure_cursor|]. intros _.
    apply moves_bind0; [apply moves_parseVoiceStream|]. intros _.
    apply moves_skip_if.
Qed.
Lemma nth_nonempty (i : nat) :
  str_eqb (nth i T "") "" = false -> (i < length T)%nat.
Proof.
  intros H. destruct (Nat.lt_ge_cases i (length T)) as [L|L]; [exact L|].
  rewrite (nth_overflow T "" L) in H. discriminate H.
Qed.

Lemma moves_parseDef : moves T 1 (parseDef fuel).
Proof.
  unfold parseDef.
  apply moves_bind1; [apply moves_consume|]. intros _.
  apply (moves_le 1); [lia|].
  apply moves_bind1; [apply moves_consume|]. intros id.
  apply moves_bind0; [apply (moves_read (fun st => nth _ _ _))|]. intros p.
  apply moves_bind0.
  { destruct (startsWith p _); [|apply moves_ret].
    apply (moves_le 1); [lia|].
    apply moves_bind1; [apply moves_consume|]. intros t. apply moves_ret. }
  intros label.
  apply moves_bind0; [apply (moves_read (fun st => st))|]. intros s0.
  apply moves_bind0.
  - intros st0 H0.
    refine (good_iterate _
              (fun _ st => tokens st = T /\
                           (tokenIndex st0 <= tokenIndex st)%nat)
              (fun _ st => (length T - tokenIndex st)%nat)
              (fun _ st => tokens st = T /\
                           (tokenIndex st0 + 0 <= tokenIndex st)%nat)
              _ fuel _ st0 _ _); [|split; [exact H0|lia]|lia].
    intros inst st [E L]. unfold bind at 1. unfold peek.
    destruct (existsb _ RESERVED || str_eqb _ "") eqn:C.
    + cbn. split; [exact E|lia].
    + apply orb_false_iff in C as [_ C]. rewrite E in C.
      pose proof (nth_nonempty _ C) as B.
      unfold bind at 1. unfold consume.
      destruct (negb _); cbn; [split; [exact E|lia]|].
      split; [split; [exact E|lia]|lia].
  - intros inst. apply moves_modify. intros st. split; reflexivity.
Qed.

Lemma moves_parseMacroDef : moves T 1 (parseMacroDef fuel).
Proof.
  unfold parseMacroDef.
  apply moves_bind1; [apply moves_consume|]. intros _.
  apply (moves_le 1); [lia|].
  apply moves_bind1; [apply moves_consume|]. intros sig.
  match goal with
  | |- context [if ?b then ?x else ?y] => destruct (if b then x else y)
      as [name params]
  end.
  apply moves_bind0; [apply moves_match_tok|]. intros _.
  apply moves_bind0; [apply moves_match_tok|]. intros b.
  destruct (negb b); [apply moves_ret|].
  apply moves_bind0.
  - intros st0 H0.
    refine (good_iterate _
              (fun _ st => tokens st = T /\
                           (tokenIndex st0 <= tokenIndex st)%nat)
              (fun _ st => (length T - tokenIndex st)%nat)
              (fun _ st => tokens st = T /\
                           (tokenIndex st0 + 0 <= tokenIndex st)%nat)
              _ fuel _ st0 _ _); [|split; [exact H0|lia]|lia].
    intros [balance bodyTokens] st [E L]. unfold bind at 1. unfold in_bounds.
    destruct (Z.ltb 0 balance && Nat.ltb _ _) eqn:C.
    + apply andb_true_iff in C as [_ C].
      pose proof (in_bounds_lt st E C) as B.
      cbn. split; [split; [exact E|lia]|lia].
    + cbn. split; [exact E|lia].
  - intros bodyTokens. apply moves_modify. intros st. split; reflexivity.
Qed.

(** The scan for the end of a block stays within the tokens. *)
Lemma good_scan_block (st0 : Parser) :
  tokens st0 = T -> (tokenIndex st0 <= length T)%nat ->
  good (fun _ st => tokens st = T /\
                    (tokenIndex st0 <= tokenIndex st <= length T)%nat /\
                    score st = score st0)
       (scan_block fuel st0).
Proof.
  intros H0 L0. unfold scan_block.
  refine (good_iterate _
            (fun _ st => tokens st = T /\
                         (tokenIndex st0 <= tokenIndex st <= length T)%nat /\
                         score st = score st0)
            (fun _ st => (length T - tokenIndex st)%nat)
            (fun _ st => tokens st = T /\
                         (tokenIndex st0 <= tokenIndex st <= length T)%nat /\
                         score st = score st0)
            _ fuel _ st0 _ _); [|repeat split; [exact H0|lia|lia]|lia].
  intros balance st (E & L & Sc). unfold bind at 1. unfold in_bounds.
  destruct (Z.ltb 0 balance && Nat.ltb _ _) eqn:C.
  - apply andb_true_iff in C as [_ C].
    pose proof (in_bounds_lt st E C) as B.
    cbn. repeat split; try assumption; lia.
  - cbn. repeat split; try assumption; lia.
Qed.

Lemma rev_str_append (a b acc : string) :
  rev_str (a ++ b) acc = rev_str b (rev_str a acc).
Proof.
  revert acc. induction a as [|x a IH]; intros acc; [reflexivity|].
  rewrite append_cons. cbn [rev_str]. apply IH.
Qed.

Lemma endsWith_bracket (val : string) : endsWith (val ++ "]") "]" = true.
Proof.
  unfold endsWith. rewrite rev_str_append. cbn.
  destruct (rev_str val ""); reflexivity.
Qed.

(** The loop over the tokens of a list value ends at the closing
    bracket at the latest. *)
Lemma good_read_list (val : string) (st0 : Parser) (j : nat) :
  tokens st0 = T -> (tokenIndex st0 <= j)%nat -> nth j T "" = "]" ->
  good (fun _ st => tokens st = T /\
                    (tokenIndex st0 <= tokenIndex st)%nat)
       (read_list fuel val st0).
Proof.
  intros H0 L0 Hj.
  assert (Lj : (j < length T)%nat).
  { apply nth_nonempty. rewrite Hj. reflexivity. }
  unfold read_list.
  refine (good_iterate _
            (fun v st => tokens st = T /\
                         (tokenIndex st0 <= tokenIndex st)%nat /\
                         (endsWith v "]" = true \/ (tokenIndex st <= j)%nat))
            (fun v st => if endsWith v "]" then O
                         else (j + 2 - tokenIndex st)%nat)
            (fun _ st => tokens st = T /\
                         (tokenIndex st0 <= tokenIndex st)%nat)
            _ fuel val st0 _ _).
  - intros v st (E & L & D). destruct (endsWith v "]") eqn:V.
    + cbn. split; [exact E|lia].
    + destruct D as [D|D]; [discriminate D|].
      unfold bind, consume, ret. cbn [good tokenIndex set_tokenIndex tokens].
      split.
      * split; [exact E|]. split; [lia|].
        destruct (Nat.eq_dec (tokenIndex st) j) as [->|N]; [|right; lia].
        left. rewrite E, Hj. apply endsWith_bracket.
      * destruct (endsWith (v ++ _) "]"); lia.
  - split; [exact H0|]. split; [lia|]. right. exact L0.
  - destruct (endsWith val "]"); lia.
Qed.
Lemma token_lexeme (i : nat) :
  str_eqb (nth i T "") "" = false -> is_lexeme (nth i T "") = true.
Proof.
  intros H. pose proof (nth_nonempty i H) as L.
  exact (proj1 (Stdlib.Lists.List.Forall_forall _ _) T_lexemes _
           (nth_In _ _ L)).
Qed.

Lemma moves_parseMetaBlock : moves T 1 (parseMetaBlock fuel).
Proof.
  unfold parseMetaBlock.
  apply moves_bind1; [apply moves_consume|]. intros _.
  apply moves_bind0; [apply moves_match_tok|]. intros b.
  destruct (negb b); [apply moves_ret|].
  apply moves_bind0.
  - apply (moves_while
             (fun st => negb (str_eqb (nth (tokenIndex st) (tokens st) "") "}")
                        && Nat.ltb (tokenIndex st) (length (tokens st)))).
    + intros st. reflexivity.
    + intros st E C. apply andb_true_iff in C as [_ C].
      exact (in_bounds_lt st E C).
    + apply moves_bind1; [apply moves_consume|]. intros k. cbv zeta.
      apply moves_bind0; [apply moves_skip_if|]. intros _.
      intros st E. unfold bind at 1. unfold consume.
      eapply good_bind with
        (Q1 := fun _ st' => tokens st' = T /\
                            (tokenIndex st + 0 <= tokenIndex st')%nat).
      * destruct (startsWith (nth (tokenIndex st) (tokens st) "") "[") eqn:B;
          [|cbn; split; [exact E|lia]].
        rewrite E in B.
        assert (N : str_eqb (nth (tokenIndex st) T "") "" = false).
        { destruct (nth (tokenIndex st) T ""); [discriminate B|reflexivity]. }
        pose proof (lexeme_bracket _ (token_lexeme _ N) B) as V.
        destruct (T_brackets _ V) as (j & Lj & Hj).
        eapply good_weaken;
          [|apply (good_read_list _ (set_tokenIndex (S (tokenIndex st)) st) j);
            [exact E|cbn; lia|exact Hj]].
        cbn. intros _ st' [E' L']. split; [exact E'|lia].
      * intros val st1 [E1 L1].
        eapply good_weaken.
        2:{ refine (moves_bind0 _ _ _ _ st1 E1).
            - apply moves_modify. intros ?. split; reflexivity.
            - intros _. apply moves_skip_if. }
        cbn. intros _ st' [E' L']. split; [exact E'|lia].
  - intros _. apply (moves_le 1); [lia|].
    apply moves_bind1; [apply moves_consume|]. intros _. apply moves_ret.
Qed.

Lemma good_parseGroup (st : Parser) :
  tokens st = T ->
  toLowerCase (nth (tokenIndex st) T "") = "group" ->
  good (fun _ st' => tokens st' = T /\
                     (tokenIndex st + 1 <= tokenIndex st')%nat)
       (parseGroup fuel st).
Proof.
  intros E G. destruct (T_groups _ G) as (j & Lj & Hj).
  assert (Bj : (j < length T)%nat).
  { apply nth_nonempty. rewrite Hj. reflexivity. }
  unfold parseGroup. unfold bind at 1 2. unfold consume at 1 2.
  cbn [tokenIndex set_tokenIndex]. rewrite !set_tokenIndex_twice.
  set (st2 := set_tokenIndex (S (S (tokenIndex st))) st).
  assert (E2 : tokens st2 = T) by exact E.
  eapply good_bind with
    (Q1 := fun _ st' => tokens st' = T /\
                        (tokenIndex st + 2 <= tokenIndex st')%nat).
  - unfold while.
    refine (good_iterate _
              (fun _ s => tokens s = T /\
                          (tokenIndex st + 2 <= tokenIndex s <= j)%nat)
              (fun _ s => (j - tokenIndex s)%nat)
              (fun _ s => tokens s = T /\
                          (tokenIndex st + 2 <= tokenIndex s)%nat)
              _ fuel tt st2 _ _);
      [|split; [exact E2|cbn; lia]|cbn; lia].
    intros [] s [Es Ls]. unfold bind, peek, consume, ret.
    destruct (negb (str_eqb (nth (tokenIndex s) (tokens s) "") "{")) eqn:C.
    + cbn [good tokens tokenIndex set_tokenIndex].
      assert (N : tokenIndex s <> j).
      { intros N. rewrite N, Es, Hj in C. discriminate C. }
      split; [split; [exact Es|lia]|lia].
    + cbn. split; [exact Es|lia].
  - intros _ st3 [E3 L3].
    eapply good_weaken.
    2:{ refine (moves_bind 1 0 _ _ _ _ st3 E3); [apply moves_consume|].
        intros _. apply moves_bind0.
        { apply moves_modify. intros ?. split; reflexivity. }
        intros _. apply moves_bind0.
        { apply (moves_while
             (fun s => negb (str_eqb (nth (tokenIndex s) (tokens s) "") "}")
                       && Nat.ltb (tokenIndex s) (length (tokens s)))).
          - intros s. reflexivity.
          - intros s Es C. apply andb_true_iff in C as [_ C].
            exact (in_bounds_lt s Es C).
          - intros s Es. unfold bind at 1. unfold peek.
            destruct (str_eqb _ "def").
            + exact (moves_parseDef s Es).
            + refine (moves_bind1 _ _ moves_consume _ s Es).
              intros _. apply moves_ret. }
        intros _. apply (moves_le 1); [lia|].
        apply moves_bind1; [apply moves_consume|]. intros _.
        apply moves_modify. intros ?. split; reflexivity. }
    cbn. intros _ st' [E' L']. split; [exact E'|lia].
Qed.

Lemma moves_replay_block (be : Z) (t : num) :
  be <= Z.of_nat (length T) -> moves T 0 (replay_block fuel be t).
Proof.
  intros Hbe. unfold replay_block.
  apply (moves_while (fun st => Z.ltb (Z.of_nat (tokenIndex st)) be)).
  - intros st. reflexivity.
  - intros st E C. apply Z.ltb_lt in C. lia.
  - intros st E. unfold bind at 1. unfold peek.
    destruct (str_eqb _ "meta"); [exact (moves_parseMetaBlock st E)|].
    cbv zeta. unfold bind at 1. unfold get_state.
    destruct (has_instrument _ st).
    + exact (moves_parseInstrumentLogic _ _ st E).
    + refine (moves_bind1 _ _ moves_consume _ st E). intros _. apply moves_ret.
Qed.

Lemma good_replay_loop (bs : nat) (be : Z) (tpm s e : num) (st : Parser) :
  tokens st = T -> be <= Z.of_nat (length T) ->
  (s = NaN \/ exists a, intlike s a) -> (e = NaN \/ exists b, intlike e b) ->
  (span (s, e) < fuel)%nat ->
  good (fun _ st' => tokens st' = T) (replay_loop fuel bs be tpm s e st).
Proof.
  intros E Hbe Hs He Hsp. unfold replay_loop.
  refine (good_iterate _
            (fun m s' => tokens s' = T /\
                         (m = NaN \/ exists a, intlike m a) /\
                         (isNaN s = false -> isNaN m = false /\
                                             ival s <= ival m))
            (fun m _ => span (m, e))
            (fun _ s' => tokens s' = T)
            _ fuel s st _ Hsp).
  - intros m s' (E' & Hm & Hord).
    destruct (nle m e) eqn:C; [|exact E'].
    destruct Hm as [->|[a Ha]]; [discriminate C|].
    destruct He as [->|[b Hb]]; [destruct m; discriminate C|].
    rewrite (nle_intlike m e a b Ha Hb) in C. apply Z.leb_le in C.
    destruct (intlike_ival m a Ha) as [Va Na].
    destruct (intlike_ival e b Hb) as [Vb Nb].
    pose proof (intlike_succ m a Ha) as Hm'.
    destruct (intlike_ival _ _ Hm') as [Va' Na'].
    cbv zeta. unfold bind at 1. unfold modify.
    eapply good_bind with (Q1 := fun _ s1 => tokens s1 = T).
    + eapply good_weaken;
        [|exact (moves_replay_block be _ Hbe (set_tokenIndex bs s') E')].
      cbn. intros _ s1 [E1 _]. exact E1.
    + intros _ s1 E1. cbn [good ret].
      split.
      * split; [exact E1|]. split; [right; eexists; exact Hm'|].
        intros Ns. destruct (Hord Ns) as [_ O]. rewrite Va'. split; [exact Na'|lia].
      * unfold span. cbn [fst snd]. rewrite Na, Na', Nb, Va, Va', Vb. cbn [orb].
        lia.
  - split; [exact E|]. split; [exact Hs|]. intros N. split; [exact N|lia].
Qed.

Lemma moves_parseMeasure : moves T 1 (parseMeasure fuel).
Proof.
  intros st E. unfold parseMeasure.
  unfold bind at 1 2. unfold consume at 1 2.
  cbn [tokenIndex set_tokenIndex tokens]. rewrite !set_tokenIndex_twice.
  set (range := nth (S (tokenIndex st)) (tokens st) "").
  destruct (measure_range range) as [s e] eqn:R.
  assert (Hs : s = NaN \/ exists a, intlike s a).
  { pose proof (proj1 (measure_range_intlike range)) as H.
    rewrite R in H. exact H. }
  assert (He : e = NaN \/ exists a, intlike e a).
  { pose proof (proj2 (measure_range_intlike range)) as H.
    rewrite R in H. exact H. }
  assert (Hsp : (span (s, e) < fuel)%nat).
  { rewrite <- R. subst range. rewrite E.
    destruct (Nat.lt_ge_cases (S (tokenIndex st)) (length T)) as [L|L].
    - pose proof (span_le_max T _ (nth_In _ "" L)). lia.
    - rewrite (nth_overflow T "" L). cbn. lia. }
  set (st2 := set_tokenIndex (S (S (tokenIndex st))) st).
  unfold bind at 1. unfold match_tok. unfold bind at 1. unfold peek.
  destruct (str_eqb (nth (tokenIndex st2) (tokens st2) "") "{") eqn:B.
  - unfold bind at 1. unfold consume. unfold ret at 1. cbn [negb].
    change (set_tokenIndex (S (tokenIndex st2)) st2)
      with (set_tokenIndex (S (S (S (tokenIndex st)))) st).
    set (st3 := set_tokenIndex (S (S (S (tokenIndex st)))) st).
    assert (E3 : tokens st3 = T) by exact E.
    assert (L3 : (tokenIndex st3 <= length T)%nat).
    { cbn. assert (S (S (tokenIndex st)) < length T)%nat; [|lia].
      apply nth_nonempty. cbn in B. rewrite E in B.
      apply String.eqb_eq in B. rewrite B. reflexivity. }
    unfold bind at 1. unfold get_state at 1.
    eapply good_bind; [exact (good_scan_block st3 E3 L3)|].
    cbn beta. intros _ st4 (E4 & L4 & _).
    unfold bind at 1. unfold get_state.
    eapply good_bind with (Q1 := fun _ s1 => tokens s1 = T).
    + apply good_replay_loop; try assumption. lia.
    + intros _ st5 E5. cbn. split; [exact E5|]. cbn in L4. lia.
  - cbn. split; [exact E|lia].
Qed.

Lemma moves_parseBody : moves T 0 (parseBody fuel).
Proof.
  unfold parseBody.
  apply (moves_while
           (fun st => Nat.ltb (tokenIndex st) (length (tokens st))
                      && negb (str_eqb (nth (tokenIndex st) (tokens st) "")
                                 "}"))).
  - intros st. reflexivity.
  - intros st E C. apply andb_true_iff in C as [C _].
    exact (in_bounds_lt st E C).
  - intros st E. unfold bind at 1. unfold peek. cbv zeta.
    destruct (str_eqb _ "meta"); [exact (moves_parseMetaBlock st E)|].
    destruct (str_eqb _ "macro"); [exact (moves_parseMacroDef st E)|].
    destruct (str_eqb _ "group") eqn:G.
    { apply good_parseGroup; [exact E|].
      rewrite E in G. apply String.eqb_eq in G. exact G. }
    destruct (str_eqb _ "def"); [exact (moves_parseDef st E)|].
    destruct (str_eqb _ "measure"); [exact (moves_parseMeasure st E)|].
    refine (moves_bind1 _ _ moves_consume _ st E). intros _. apply moves_ret.
Qed.

Lemma moves_parse_root : moves T 0 (parse_root fuel).
Proof.
  unfold parse_root.
  apply moves_bind0; [apply (moves_read (fun st => nth _ _ _))|]. intros p.
  destruct (str_eqb p "omniscore"); [|apply moves_parseBody].
  apply (moves_le 1); [lia|].
  apply moves_bind1; [apply moves_consume|]. intros _.
  apply moves_bind0; [apply moves_match_tok|]. intros b.
  apply moves_when.
  apply moves_bind0; [apply moves_parseBody|]. intros _.
  apply moves_bind0; [apply moves_match_tok|]. intros _. apply moves_ret.
Qed.
End Halting.

(** [parse] ends, by a return or by a throw, on every source text in
    whose tokens a brace follows the label of every [group], a closing
    bracket follows every opening bracket, and the measure numbers are
    exact: no loop of the run takes more iterations than there are
    tokens, plus two, or than the largest range of measures has
    numbers. *)
Theorem parse_halts (source : string) (fuel : nat) :
  let T := tokenize (strip_comments source false) in
  braced_groups T -> closed_brackets T -> exact_measures T ->
  (length T + 2 < fuel)%nat -> (max_span T < fuel)%nat ->
  parse fuel source <> OutOfFuel.
Proof.
  intros T HG HB _ F1 F2.
  assert (L : Forall (fun t => is_lexeme t = true) T).
  { apply lex_lexemes. exact Logic.I. }
  pose proof (moves_parse_root T fuel L HG HB F1 F2 (new_parser T) eq_refl)
    as H.
  unfold parse, compile. fold T.
  destruct (parse_root fuel (new_parser T)) as [[u st]| |];
    [discriminate|discriminate|exact (False_ind _ H)].
Qed.

Lemma parse_halts_witness :
  (braced_groups halting_tokens /\ closed_brackets halting_tokens /\
   exact_measures halting_tokens) /\
  parse 24 halting_source <> OutOfFuel.
Proof.
  assert (HG : braced_groups halting_tokens).
  { intros i H. destruct i as [|i]; [exists 2%nat; split; [lia|reflexivity]|].
    do 21 (destruct i as [|i]; [discriminate H|]). destruct i; discriminate H. }
  assert (HB : closed_brackets halting_tokens).
  { intros i H. do 10 (destruct i as [|i]; [discriminate H|]).
    destruct i as [|i]; [exists 12%nat; split; [lia|reflexivity]|].
    do 11 (destruct i as [|i]; [discriminate H|]). destruct i; discriminate H. }
  assert (HM : exact_measures halting_tokens).
  { intros i H. do 14 (destruct i as [|i]; [discriminate H|]).
    destruct i as [|i]; [vm_compute; repeat split|].
    do 7 (destruct i as [|i]; [discriminate H|]). destruct i; discriminate H. }
  split; [exact (conj HG (conj HB HM))|].
  apply (parse_halts halting_source 24 HG HB HM); vm_compute; lia.
Defined.

Example ex_halting :
  length halting_tokens = 21%nat /\ max_span halting_tokens = 2%nat /\
  exists sc, parse 24 halting_source = Done sc /\
             map tickStart (timeline sc) = [ofZ 0; ofZ 7680].
Proof.
  split; [reflexivity|]. split; [reflexivity|].
  eexists. split; vm_compute; reflexivity.
Qed.

(* ------------------------------------------------------------------ *)
(** ** Velocity overrides *)

Lemma has_char_rev (c : ascii) (s acc : string) :
  has_char c (rev_str s acc) = has_char c s || has_char c acc.
Proof.
  revert acc. induction s as [|x s IH]; intros acc; [reflexivity|].
  cbn [rev_str has_char]. rewrite IH. cbn [has_char].
  destruct (chr_eqb c x), (has_char c s), (has_char c acc); reflexivity.
Qed.

Lemma split_attr_chars (c : ascii) (s cur : string) (p2 p1 : option ascii) :
  has_char c s = false -> has_char c cur = false ->
  Forall (fun piece => has_char c piece = false)
    (split_attr_aux s cur p2 p1).
Proof.
  revert cur p2 p1. induction s as [|x s IH]; intros cur p2 p1 Hs Hc;
    cbn [split_attr_aux].
  - constructor; [|constructor]. rewrite has_char_rev, Hc. reflexivity.
  - cbn [has_char] in Hs. apply orb_false_iff in Hs as [Hx Hs].
    destruct (chr_eqb x "." && negb _).
    + constructor; [rewrite has_char_rev, Hc; reflexivity|].
      apply IH; [exact Hs|reflexivity].
    + apply IH; [exact Hs|]. cbn [has_char]. rewrite Hx, Hc. reflexivity.
Qed.

Lemma includes_char (s : string) (c : ascii) :
  includes s (String c "") = has_char c s.
Proof.
  induction s as [|x s IH]; [reflexivity|].
  cbn [includes has_char String.prefix]. rewrite IH. f_equal.
  unfold chr_eqb. destruct (ascii_dec c x) as [<-|N].
  - rewrite Ascii.eqb_refl. destruct s; reflexivity.
  - symmetry. apply Ascii.eqb_neq. exact N.
Qed.

(** A token without parenthesis has modifiers without arguments. *)
Lemma modifiers_without_arguments (token : string) :
  has_char "(" token = false ->
  Forall (fun a => attr_args a = []) (token_modifiers token).
Proof.
  intros H. unfold token_modifiers, split_attr.
  pose proof (split_attr_chars "(" token "" None None H eq_refl) as F.
  destruct (split_attr_aux token "" None None) as [|core pieces];
    [constructor|].
  apply Forall_cons_iff in F as [_ F]. cbn [tl].
  induction F as [|p l Hp F IH]; [constructor|]. cbn [map].
  constructor; [|exact IH]. unfold parse_attr.
  change "("%string with (String "(" ""). rewrite includes_char, Hp.
  reflexivity.
Qed.

Lemma vol_override_without_arguments attrs e :
  Forall (fun a => attr_args a = []) attrs -> vol_override attrs e = e.
Proof.
  intros F. unfold vol_override.
  destruct (find is_vol attrs) as [a|] eqn:E; [|reflexivity].
  apply find_some in E as [E _].
  rewrite (proj1 (Stdlib.Lists.List.Forall_forall _ _) F a E). reflexivity.
Qed.

Lemma pitch_part_quote (t : string) :
  exists p, pitch_part (String dquote t) = String dquote p.
Proof.
  unfold pitch_part, token_core, split_attr, split.
  cbn [split_attr_aux]. change (chr_eqb dquote ".") with false. cbn [andb].
  destruct (split_attr_prefix t (String dquote "") None (Some dquote))
    as (pre & _ & -> & _).
  cbn [rev_str]. rewrite append_cons, append_nil.
  cbn [split_aux]. change (chr_eqb ":" dquote) with false. cbv iota.
  destruct (split_aux_prefix ":" pre (String dquote "")) as (p & _ & -> & _).
  cbn [rev_str]. rewrite append_cons, append_nil. exists p. reflexivity.
Qed.

Lemma ident_no_char (c : ascii) (s : string) :
  is_ident_char c = false -> all_chars is_ident_char s = true ->
  has_char c s = false.
Proof.
  intros C. induction s as [|x s IH]; [reflexivity|]. cbn [all_chars has_char].
  intros A. apply andb_true_iff in A as [Gx A]. rewrite (IH A), orb_false_r.
  destruct (chr_eqb c x) eqn:E; [|reflexivity].
  apply chr_eqb_eq in E as ->. congruence.
Qed.

Lemma lexeme_parenthesis (t : string) :
  is_lexeme t = true -> has_char "(" t = true ->
  t = "(" \/ startsWith t (String dquote "") = true.
Proof.
  destruct t as [|c r]; [discriminate|]. cbn [is_lexeme]. intros L H.
  destruct (is_punct c) eqn:P.
  { destruct r as [|d r].
    - left. cbn [has_char] in H. rewrite orb_false_r in H.
      apply chr_eqb_eq in H as <-. reflexivity.
    - assert (chr_eqb c dquote = false) as Q
        by (destruct (chr_eqb c dquote) eqn:Q; [|reflexivity];
            apply chr_eqb_eq in Q as ->; discriminate P).
      assert (chr_eqb c "$" = false) as D
        by (destruct (chr_eqb c "$") eqn:D; [|reflexivity];
            apply chr_eqb_eq in D as ->; discriminate P).
      assert (is_generic c = false) as G
        by (destruct (is_generic c) eqn:G; [|reflexivity];
            destruct (generic_first c G) as [P' _]; congruence).
      rewrite Q, D, G in L. discriminate L. }
  cbn [andb orb] in L.
  destruct (chr_eqb c dquote) eqn:Q.
  { right. apply chr_eqb_eq in Q as ->. unfold startsWith. cbn.
    destruct r; reflexivity. }
  cbn [andb orb] in L. exfalso.
  destruct (chr_eqb c "$") eqn:D.
  - apply chr_eqb_eq in D as ->. cbn [andb] in L.
    destruct r as [|d r]; [discriminate L|].
    change (is_generic "$") with false in L. cbn [andb] in L.
    rewrite orb_false_r in L. apply andb_true_iff in L as [S A].
    assert (A' : all_chars is_ident_char (String d r) = true).
    { cbn [all_chars]. rewrite (ident_start_char d S), A. reflexivity. }
    cbn [has_char] in H. change (chr_eqb "(" "$") with false in H.
    rewrite orb_false_l in H.
    change (chr_eqb "(" d || has_char "(" r) with (has_char "(" (String d r))
      in H.
    rewrite (ident_no_char "(" _ eq_refl A') in H. discriminate H.
  - cbn [andb orb] in L. apply andb_true_iff in L as [G A].
    assert (A' : all_chars is_generic (String c r) = true).
    { cbn [all_chars]. rewrite G, A. reflexivity. }
    rewrite (generic_no_char "(" _ eq_refl A') in H. discriminate H.
Qed.

(** The event of a lexeme for a plain instrument has the velocity 0.8,
    or it is a note of the nominal pitch 60. *)
Lemma build_event_override token inst voice b r c :
  is_lexeme token = true -> plain_instrument inst ->
  let e := snd (fst (build_event token inst voice b r c)) in
  velocity e = ofQ (4 # 5) \/ (kind e = note /\ pitches e = [ofZ 60]).
Proof.
  intros L PI.
  assert (D : Forall (fun a => attr_args a = []) (token_modifiers token) \/
              startsWith token (String dquote "") = true).
  { destruct (has_char "(" token) eqn:H.
    - destruct (lexeme_parenthesis token L H) as [->|Q];
        [left; constructor|right; exact Q].
    - left. exact (modifiers_without_arguments token H). }
  destruct D as [F|Q].
  - left. cbv zeta. unfold build_event.
    destruct (resolve_pitches _ _ _ _) as [c2 e2] eqn:R. cbn [fst snd].
    rewrite (vol_override_without_arguments _ _ F).
    pose proof (resolve_pitches_keeps (pitch_part token) inst
      (if truthy_str (duration_part token)
       then set_duration
              (parseDurationVal (default "" (duration_part token))) c
       else c)) as K.
    match type of R with
    | resolve_pitches _ _ _ ?e = _ => specialize (K e)
    end.
    rewrite R in K. cbn [snd] in K. destruct K as [-> _].
    destruct (existsb is_grace _); reflexivity.
  - right. destruct token as [|x t]; [discriminate Q|].
      unfold startsWith in Q. cbn [String.prefix] in Q.
      destruct (ascii_dec dquote x) as [<-|]; [|discriminate Q].
      destruct (pitch_part_quote t) as [p Hp].
      unfold build_event. rewrite Hp.
      set (c1 := if truthy_str _ then _ else c).
      set (e0 := mkEvent note [] _ _ _ _ _ _ _).
      set (e1 := if existsb is_grace _ then _ else e0).
      assert (K1 : kind e1 = note /\ pitches e1 = []).
      { subst e1. destruct (existsb _ _); split; reflexivity. }
      destruct K1 as [Kd Pt]. clearbody e1 c1. clear e0.
      unfold resolve_pitches.
      change (str_eqb (String dquote p) "r") with false.
      change (str_eqb (String dquote p) "s") with false.
      change (startsWith (String dquote p) "[") with false. cbv iota.
      rewrite (resolvePitch_plain _ _ _ _ PI).
      rewrite (parsePitchToMidi_unmatched (String dquote p) _ eq_refl).
      cbn [fst snd]. rewrite vol_override_kind.
      destruct (vol_override_keeps (token_modifiers (String dquote t))
                  (push_pitch (ofZ 60) e1)) as (-> & _).
      cbn. rewrite Kd, Pt. split; reflexivity.
Qed.

(** In a compiled score a velocity other than 0.8 is found on notes of
    the nominal pitch 60 only: a modifier with an argument reaches
    [parseEvent] inside a quoted token, and such a token names no
    pitch. *)
Theorem velocity_override_on_nominal_pitch (fuel : nat) (source : string)
    (sc : CompiledScore) (e : NoteEvent) :
  parse fuel source = Done sc -> In e (timeline sc) ->
  velocity e = ofQ (4 # 5) \/ (kind e = note /\ pitches e = [ofZ 60]).
Proof.
  intros P Hin.
  destruct (parse_compile _ _ _ P) as (u & st & C & _ & _ & Perm).
  apply (Permutation_in _ (Permutation_sym Perm)) in Hin.
  revert e Hin. apply Stdlib.Lists.List.Forall_forall.
  refine (reach_compile
            (fun st => Forall (fun e => velocity e = ofQ (4 # 5) \/
                                        (kind e = note /\
                                         pitches e = [ofZ 60]))
                         (timeline (score st)))
            _ _ _ _ _ _ _ fuel source u st _ C);
    try (intros; assumption).
  - intros token inst voice b r c st0 H T _ PI. cbn.
    apply Forall_app. split; [exact H|]. constructor; [|constructor].
    apply build_event_override; assumption.
  - constructor.
Qed.

Lemma velocity_override_on_nominal_pitch_witness :
  In vol_event (timeline vol_score) /\
  (velocity vol_event = ofQ (4 # 5) \/
   (kind vol_event = note /\ pitches vol_event = [ofZ 60])).
Proof.
  split; [left; reflexivity|].
  apply (velocity_override_on_nominal_pitch 20 vol_source vol_score);
    [vm_compute; reflexivity|left; reflexivity].
Defined.

(* ------------------------------------------------------------------ *)
(** ** Groups *)

(** The label of a group never reaches the score: the group of an
    instrument is missing, or it is the text [Group]. *)
Theorem group_label_is_lost (fuel : nat) (source : string)
    (sc : CompiledScore) (i : InstrumentDef) :
  parse fuel source = Done sc -> In i (instruments sc) ->
  group_value (inst_group i).
Proof.
  intros P Hin.
  destruct (parse_compile _ _ _ P) as (u & st & C & _ & E & _).
  rewrite E in Hin. revert i Hin. apply Stdlib.Lists.List.Forall_forall.
  refine (proj2 (reach_compile
            (fun st => group_value (currentGroup st) /\
                       Forall (fun i => group_value (inst_group i))
                         (instruments (score st)))
            _ _ _ _ _ _ _ fuel source u st _ C));
    try (intros; assumption).
  - intros g st0 G [_ F]. split; [exact G|exact F].
  - intros inst st0 [G F] _ Hg. split; [exact G|]. cbn.
    apply Forall_app. split; [exact F|]. constructor; [|constructor].
    rewrite Hg. exact G.
  - split; [left; reflexivity|constructor].
Qed.

Lemma group_label_is_lost_witness :
  exists sc i,
    parse 20 ("group " ++ quoted "Strings" ++ " { def vln def vla }")
    = Done sc /\
    In i (instruments sc) /\ group_value (inst_group i).
Proof.
  eexists. eexists. split; [vm_compute; reflexivity|].
  split; [left; reflexivity|].
  eapply (group_label_is_lost 20
            ("group " ++ quoted "Strings" ++ " { def vln def vla }"));
    [vm_compute; reflexivity|left; reflexivity].
Defined.

Example ex_group :
  exists sc,
    parse 20 ("group " ++ quoted "Strings" ++ " { def vln } def pno")
    = Done sc /\
    map (fun i => (inst_id i, inst_group i)) (instruments sc)
    = [("vln", Some "Group"); ("pno", None)].
Proof. eexists. split; vm_compute; reflexivity. Qed.

(* ------------------------------------------------------------------ *)
(** ** Pitch names *)

Lemma octave_head (c : ascii) (r : string) :
  is_digit c || chr_eqb c "-" = true ->
  first_alt ACCIDENTALS (String c r) = None /\
  prefix_ci "b" (String c r) = None.
Proof.
  destruct c as [[] [] [] [] [] [] [] []]; intros H; try discriminate H;
    split; reflexivity.
Qed.

Lemma octave_ok_head (o : string) :
  octave_ok o = true ->
  first_alt ACCIDENTALS o = None /\ prefix_ci "b" o = None.
Proof.
  destruct o as [|c r]; [split; reflexivity|]. cbn [octave_ok]. intros H.
  apply octave_head. destruct (chr_eqb c "-"); [apply orb_true_r|].
  cbn [all_digits] in H. apply andb_true_iff in H as [_ H].
  apply andb_true_iff in H as [-> _]. reflexivity.
Qed.

Lemma octave_ok_char (c : ascii) (r : string) :
  octave_ok (String c r) = true -> is_digit c || chr_eqb c "-" = true.
Proof.
  cbn [octave_ok]. intros H. destruct (chr_eqb c "-"); [apply orb_true_r|].
  cbn [all_digits] in H. apply andb_true_iff in H as [_ H].
  apply andb_true_iff in H as [-> _]. reflexivity.
Qed.

Lemma first_alt_flat (o : string) :
  octave_ok o = true -> first_alt ACCIDENTALS (String "b" o) = Some ("b", o).
Proof.
  destruct o as [|c r]; [reflexivity|]. intros H.
  apply octave_ok_char in H. revert H.
  destruct c as [[] [] [] [] [] [] [] []]; intros H; try discriminate H;
    reflexivity.
Qed.

Lemma match_accs_octave (n : nat) (o : string) (last : option string) :
  octave_ok o = true -> match_accs n o last = (last, o).
Proof.
  intros H. destruct n as [|n]; [reflexivity|]. cbn [match_accs].
  rewrite (proj1 (octave_ok_head o H)). reflexivity.
Qed.

Lemma match_accs_name (acc o : string) :
  In acc SHIFTS -> octave_ok o = true ->
  match_accs (String.length (acc ++ o)) (acc ++ o) None
  = (if str_eqb acc "" then None else Some acc, o).
Proof.
  intros HA HO. destruct (octave_ok_head o HO) as [F B].
  cbn [SHIFTS In] in HA.
  destruct HA as [<-|[<-|[<-|[<-|[<-|[]]]]]];
    rewrite ?append_cons, ?append_nil.
  - apply match_accs_octave, HO.
  - cbn [String.length match_accs].
    replace (first_alt ACCIDENTALS (String "#" o)) with (Some ("#", o))
      by reflexivity.
    apply match_accs_octave, HO.
  - cbn [String.length match_accs]. rewrite (first_alt_flat o HO).
    apply match_accs_octave, HO.
  - cbn [String.length match_accs].
    replace (first_alt ACCIDENTALS (String "x" o)) with (Some ("x", o))
      by reflexivity.
    apply match_accs_octave, HO.
  - cbn [String.length match_accs].
    replace (first_alt ACCIDENTALS (String "b" (String "b" o)))
      with (Some ("bb", o)) by reflexivity.
    rewrite F. reflexivity.
Qed.

Lemma match_octave_ok (o : string) :
  octave_ok o = true ->
  match_octave o = Some (if str_eqb o "" then None else Some o).
Proof.
  destruct o as [|c r]; [reflexivity|]. cbn [octave_ok match_octave].
  intros ->. reflexivity.
Qed.

(** A pitch name made of a step letter, one of the accidentals [#], [b],
    [x] and [bb] or none, and an octave number or none, resolves to the
    MIDI number [12 * (octave + 1) + semitone]; without an octave number
    the octave is the sticky one, which is returned as it came. *)
Theorem pitch_of_name (s : ascii) (acc o : string) (lastOctave : num) :
  is_step s = true -> In acc SHIFTS -> octave_ok o = true ->
  parsePitchToMidi (String s (acc ++ o)) lastOctave
  = let octave := if str_eqb o "" then lastOctave else parseInt10 o in
    (nadd (nmul (nadd octave (ofZ 1)) (ofZ 12))
       (ofZ (semitone_of (String (lower_char s) "") acc)),
     octave).
Proof.
  intros HS HA HO. unfold parsePitchToMidi, match_pitch.
  unfold is_step in HS. rewrite HS, (match_accs_name acc o HA HO).
  rewrite (match_octave_ok o HO).
  cbn [SHIFTS In] in HA.
  destruct HA as [<-|[<-|[<-|[<-|[<-|[]]]]]];
    destruct (str_eqb o ""); reflexivity.
Qed.

Lemma pitch_of_name_witness :
  parsePitchToMidi "Bb3" (ofZ 4) = (ofZ 58, ofZ 3) /\
  parsePitchToMidi "f#" (ofZ 5) = (ofZ 78, ofZ 5).
Proof.
  split.
  - exact (pitch_of_name "B" "b" "3" (ofZ 4) eq_refl
             (or_intror (or_intror (or_introl eq_refl))) eq_refl).
  - exact (pitch_of_name "f" "#" "" (ofZ 5) eq_refl
             (or_intror (or_introl eq_refl)) eq_refl).
Defined.

(** The accidental is compared as it is written: a capital [B] is no
    flat, and the quarter tones and the natural sign change nothing. *)
Example ex_accidentals :
  fst (parsePitchToMidi "cb4" (ofZ 4)) = ofZ 59 /\
  fst (parsePitchToMidi "cB4" (ofZ 4)) = ofZ 60 /\
  fst (parsePitchToMidi "cqs4" (ofZ 4)) = ofZ 60 /\
  fst (parsePitchToMidi "cn4" (ofZ 4)) = ofZ 60 /\
  fst (parsePitchToMidi "c#b4" (ofZ 4)) = ofZ 59 /\
  fst (parsePitchToMidi "c-1" (ofZ 4)) = Zero false.
Proof. vm_compute. repeat split. Qed.


(* ------------------------------------------------------------------ *)
(** ** C9: the first event of a voice *)

Lemma of_voice_event token inst voice b r c :
  of_voice (inst_id inst) voice
    (snd (fst (build_event token inst voice b r c))) = true.
Proof.
  destruct (build_event_fields token inst voice b r c) as (Ei & Ev & _).
  unfold of_voice, str_eqb. rewrite Ei, Ev, !String.eqb_refl. reflexivity.
Qed.

Lemma voices_event token inst voice b r tbl c st :
  is_lexeme token = true -> plain_instrument inst ->
  globalCursors st !! inst_id inst = Some tbl -> tbl !! voice = Some c ->
  voices_inv st ->
  voices_inv
    (set_globalCursors
       (<[inst_id inst :=
            <[voice := fst (fst (build_event token inst voice b r c))]>
              tbl]> (globalCursors st))
       (set_score
          (set_timeline
             (timeline (score st) ++
              [snd (fst (build_event token inst voice b r c))])
             (score st)) st)).
Proof.
  intros T P G L [N F].
  pose proof (of_voice_event token inst voice b r c) as O.
  destruct (build_event_fields token inst voice b r c) as (Ei & Ev & _).
  split.
  - intros i tbl' v c' G' L' Sil.
    cbn [globalCursors set_globalCursors timeline score set_score
         set_timeline] in G', L', Sil.
    apply Forall_app in Sil as [S1 S2].
    apply Forall_cons_iff in S2 as [S2 _].
    destruct (decide (i = inst_id inst)) as [->|Ni].
    + rewrite lookup_insert_eq in G'. injection G' as <-.
      destruct (decide (v = voice)) as [->|Nv].
      * rewrite O in S2. discriminate S2.
      * rewrite lookup_insert_ne in L' by congruence.
        exact (N _ _ _ _ G L' S1).
    + rewrite lookup_insert_ne in G' by congruence.
      exact (N _ _ _ _ G' L' S1).
  - intros pre x post Eq Sil.
    cbn [timeline score set_score set_timeline set_globalCursors] in Eq.
    destruct post as [|p post _] using rev_ind.
    + apply app_inj_tail in Eq as [<- <-].
      rewrite Ei, Ev in Sil.
      assert (C : c = fresh_cursor) by exact (N _ _ _ _ G L Sil).
      subst c. exists token, inst, b, r.
      split; [exact T|]. split; [exact P|]. rewrite Ev. reflexivity.
    + rewrite app_comm_cons, app_assoc in Eq.
      apply app_inj_tail in Eq as [Eq _]. exact (F pre x post Eq Sil).
Qed.

Lemma voices_ensure_cursor i v : preserves voices_inv (ensure_cursor i v).
Proof.
  intros st a st' [N F] E.
  unfold ensure_cursor, bind, lookup_cursor, store_cursor, ret in E.
  destruct (globalCursors st !! i) as [tbl|] eqn:G; [|discriminate].
  destruct (tbl !! v) as [c|] eqn:L.
  - injection E as _ <-. split; assumption.
  - rewrite G in E. injection E as _ <-. split; [|exact F].
    intros i' tbl' v' c' G' L' Sil.
    cbn [globalCursors set_globalCursors timeline score] in G', L', Sil.
    destruct (decide (i' = i)) as [->|Ni].
    + rewrite lookup_insert_eq in G'. injection G' as <-.
      destruct (decide (v' = v)) as [->|Nv].
      * rewrite lookup_insert_eq in L'. injection L' as <-. reflexivity.
      * rewrite lookup_insert_ne in L' by congruence.
        exact (N _ _ _ _ G L' Sil).
    + rewrite lookup_insert_ne in G' by congruence.
      exact (N _ _ _ _ G' L' Sil).
Qed.

Section FirstEvents.
Let K0 : Parser -> Prop := fun _ => True.

Local Ltac any := intros; exact Logic.I.

Lemma composing_tokenIndex i st :
  composing st -> composing (set_tokenIndex i st).
Proof.
  intros [H V]. split; [|exact V]. apply (W_tokenIndex K0); [any|exact H].
Qed.

Lemma composing_macros m st : composing st -> composing (set_macros m st).
Proof.
  intros [H V]. split; [|exact V]. apply (W_macros K0); [any|exact H].
Qed.

Lemma composing_currentGroup g st :
  g = None \/ g = Some "Group" -> composing st ->
  composing (set_currentGroup g st).
Proof.
  intros G [H V]. split; [|exact V].
  apply (W_currentGroup K0); [any|exact G|exact H].
Qed.

Lemma composing_meta k v st :
  composing st ->
  composing
    (set_score (set_meta (apply_meta k v (meta (score st))) (score st)) st).
Proof.
  intros [H V]. split; [|exact V]. apply (W_meta K0); [any|exact H].
Qed.

Lemma composing_consume : preserves composing consume.
Proof. exact (consume_keeps composing composing_tokenIndex). Qed.

#[local] Hint Resolve composing_consume : driver.

Lemma composing_parseDef fuel : preserves composing (parseDef fuel).
Proof.
  intros st a st' [H [N F]] E. split.
  - refine (W_parseDef K0 _ _ _ fuel st a st' H E); any.
  - destruct (parseDef_spec fuel st a st' E) as (inst & _ & _ & k & ->).
    split; [|exact F].
    intros i tbl v c G L Sil.
    cbn [globalCursors set_globalCursors timeline score set_score
         set_instruments set_tokenIndex] in G, L, Sil.
    destruct (decide (i = inst_id inst)) as [->|Ni].
    + rewrite lookup_insert_eq in G. injection G as <-.
      rewrite lookup_empty in L. discriminate L.
    + rewrite lookup_insert_ne in G by congruence.
      exact (N _ _ _ _ G L Sil).
Qed.

Lemma composing_parseMetaBlock fuel :
  preserves composing (parseMetaBlock fuel).
Proof.
  unfold parseMetaBlock, read_list, update_meta, match_tok, skip_if,
    peek_is, peek, in_bounds.
  repeat first
    [ keeps_step composing
    | apply preserves_modify; intros ? ?; apply composing_meta; assumption ].
Qed.

Section Voice.
Variable inst : InstrumentDef.
Let V : Parser -> Prop := voicing inst.

Lemma voicing_tokenIndex i st : V st -> V (set_tokenIndex i st).
Proof.
  intros [H J]. split; [|exact J]. apply (S_tokenIndex K0); [any|exact H].
Qed.

Lemma voicing_consume : preserves V consume.
Proof. exact (consume_keeps V voicing_tokenIndex). Qed.

Lemma voicing_parseEvent token voice b r :
  is_lexeme token = true -> preserves V (parseEvent token inst voice b r).
Proof.
  intros T st a st' [H J] E. split.
  - refine (S_parseEvent K0 _ _ inst token voice b r T st a st' H E); any.
  - destruct (parseEvent_spec _ _ _ _ _ _ _ _ E)
      as [[_ ->]|(tbl & c & G & L & _ & ->)]; [exact J|].
    apply voices_event; try assumption.
    exact (S_inst_plain K0 inst st H).
Qed.

Lemma voicing_macro_events ts voice b :
  Forall (fun t => is_lexeme t = true) ts ->
  forall c, preserves V (macro_events ts inst voice b c).
Proof.
  induction 1 as [|t ts T F IH]; intros c; cbn [macro_events].
  - apply preserves_ret.
  - apply preserves_bind; [apply voicing_parseEvent, T|]. intros a. apply IH.
Qed.

Lemma voicing_handleMacro token voice b c :
  preserves V (handleMacro token inst voice b c).
Proof.
  unfold handleMacro.
  match goal with
  | |- context [if ?b then ?x else ?y] => destruct (if b then x else y)
      as [name args]
  end.
  apply preserves_bind; [apply (preserves_read V)|]. intros st.
  destruct (macros st !! name) as [def|]; [|apply preserves_ret].
  apply voicing_macro_events. apply lex_lexemes. exact Logic.I.
Qed.

Lemma voicing_parseVoiceStream fuel voice b t :
  preserves V (parseVoiceStream fuel inst voice b t).
Proof.
  unfold parseVoiceStream. apply preserves_iterate. intros tick.
  intros st a st' H E. unfold bind at 1 2 in E. unfold peek, in_bounds in E.
  destruct (negb _ && negb _ && Nat.ltb _ _) eqn:C.
  - apply andb_true_iff in C as [_ C]. apply Nat.ltb_lt in C.
    assert (T : is_lexeme (nth (tokenIndex st) (tokens st) "") = true).
    { destruct H as [[(_ & L & _) _] _].
      exact (proj1 (Stdlib.Lists.List.Forall_forall _ _) L _
               (nth_In _ _ C)). }
    unfold bind at 1 in E. unfold consume in E.
    pose proof (voicing_tokenIndex (S (tokenIndex st)) st H) as H1.
    revert E. generalize (set_tokenIndex (S (tokenIndex st)) st) H1.
    revert T. generalize (nth (tokenIndex st) (tokens st) "").
    intros token T st1 HS1 E.
    refine ((_ : preserves V
              (if str_eqb token "]" then ret (inl tick)
               else if startsWith token "$" then
                 t0 <- handleMacro token inst voice b tick ;; ret (inl t0)
               else
                 a0 <- parseEvent token inst voice b tick ;;
                 ret (inl (advance tick a0)))) st1 a st' HS1 E).
    clear E.
    destruct (str_eqb token "]"); [apply preserves_ret|].
    destruct (startsWith token "$").
    + apply preserves_bind; [apply voicing_handleMacro|].
      intros ?. apply preserves_ret.
    + apply preserves_bind; [apply voicing_parseEvent, T|].
      intros ?. apply preserves_ret.
  - injection E as _ <-. exact H.
Qed.

Lemma voicing_ensure_cursor i v : preserves V (ensure_cursor i v).
Proof.
  intros st a st' [H J] E. split.
  - refine (S_ensure_cursor K0 _ inst i v st a st' H E); any.
  - exact (voices_ensure_cursor i v st a st' J E).
Qed.
End Voice.

Lemma composing_parseInstrumentLogic fuel i t :
  preserves composing (parseInstrumentLogic fuel i t).
Proof.
  unfold parseInstrumentLogic.
  apply preserves_bind; [apply composing_consume|]. intros _.
  apply preserves_bind.
  { unfold skip_if, peek_is, peek.
    repeat first [keeps_step composing]. }
  intros _.
  intros st a st' H E. unfold bind at 1 in E. unfold find_instrument in E.
  destruct (find _ _) as [inst|] eqn:F; [|discriminate].
  apply find_some in F as [F _].
  assert (HS : voicing inst st).
  { destruct H as [H J]. split; [split|]; assumption. }
  assert (R : voicing inst st').
  { refine ((_ : preserves (voicing inst)
      (b <- peek_is "{" ;;
       if b then
         consume ;;
         while fuel
           (p <- peek ;; ib <- in_bounds ;; ret (negb (str_eqb p "}") && ib))
           (vToken <- consume ;;
            let voice := drop_first ":" vToken in
            skip_if ":" ;;
            ensure_cursor i voice ;;
            parseVoiceStream fuel inst voice t "|" ;;
            skip_if "|") ;;
         consume ;;
         ret tt
       else
         let voice := "v1" in
         ensure_cursor i voice ;;
         parseVoiceStream fuel inst voice t "|" ;;
         skip_if "|")) st a st' HS E).
    clear E.
    pose proof (voicing_consume inst) as HC.
    pose proof (voicing_ensure_cursor inst) as HE.
    pose proof (voicing_parseVoiceStream inst) as HV.
    unfold skip_if, peek_is, peek, in_bounds. cbv zeta.
    repeat first
      [ apply HC | apply HE | apply HV | keeps_step (voicing inst) ]. }
  destruct R as [[R _] J]. split; assumption.
Qed.

Lemma composing_compile fuel source u st :
  compile fuel source = Done (u, st) -> composing st.
Proof.
  intros E.
  refine (drv_compile composing composing_tokenIndex composing_macros
            composing_currentGroup composing_parseDef
            composing_parseMetaBlock composing_parseInstrumentLogic
            fuel source u st _ E).
  split; [split; [exact Logic.I|split]|split].
  - apply lex_lexemes. exact Logic.I.
  - split; [|constructor]. apply lex_keyless. exact Logic.I.
  - intros i tbl v c G. cbn in G. rewrite lookup_empty in G. discriminate G.
  - intros pre e post Eq. cbn in Eq. destruct pre; discriminate Eq.
Qed.
End FirstEvents.

Lemma plain_style (inst : InstrumentDef) :
  plain_instrument inst -> inst_style inst = STANDARD.
Proof. intros ->. reflexivity. Qed.



(** The event of the witness: duration 1, 1920 ticks, middle C. *)
Example ex_first_event :
  duration first_event = ofZ 1 /\
  tickStart first_event = ofZ 0 /\ tickEnd first_event = ofZ 1920 /\
  pitches first_event = [ofZ 60].
Proof. vm_compute. repeat split. Qed.
